(** * The adventure game: entities, collision detection, level control

    A shallow embedding of [assets/js/adventureGame]: the classes
    [GameObject], [Character], [Npc], [Player], the static class [GameEnv]
    and the singletons [GameControl] and [Prompt].

    Conventions of the embedding.
    - JavaScript numbers are exact rationals ([Q]); comparisons are the
      decidable comparisons of [Q].  [NaN] and the infinities have no
      counterpart, so every statement about a quotient names its divisor.
      Rounding has no counterpart either: every sum, product and
      quotient is the exact one.
    - Objects live in a store and are passed by reference ([ref]); the
      registry [GameEnv.gameObjects] is a list of references.  Position
      objects ([{x, y}]) have a store of their own, because a character
      built without [INIT_POSITION] aliases the module constant.
    - A method is a computation [M A]: it reads and writes the [World] and
      ends normally ([Ok]), by a JavaScript exception ([Throw]) or, for the
      self-calling game loop only, by running out of fuel ([Diverge]).
    - The [trace] of the world records what leaves the program ([alert],
      [requestAnimationFrame]) and the method calls the statements below
      speak about ([isCollision], [destroy]). *)

From Stdlib Require Import QArith Lqa Qround.
From stdpp Require Import base option list gmap strings.

(** ** Numbers *)

Definition Qltb (a b : Q) : bool :=
  match (a ?= b)%Q with Lt => true | _ => false end.

(** [a > b] of the source is [Qltb b a]. *)
Definition Qgtb (a b : Q) : bool := Qltb b a.

(** [v || d] on a number that may be missing: [undefined] and [0] are falsy. *)
Definition num_or (v : option Q) (d : Q) : Q :=
  match v with
  | Some q => if Qeq_bool q 0 then d else q
  | None => d
  end.

(** [v || d] on a string that may be missing: [undefined] and [""] are falsy. *)
Definition str_or (v : option string) (d : string) : string :=
  match v with
  | Some EmptyString => d
  | Some s => s
  | None => d
  end.

Definition truthy_str (v : option string) : bool :=
  match v with
  | Some EmptyString => false
  | Some _ => true
  | None => false
  end.

(** ** Data *)

Definition ref := nat.

(** An object literal [{x, y}] (a position or a velocity). *)
Module Vec.
Record t := mk { x : Q; y : Q }.
Definition set_x (v : Q) (p : t) : t := mk v (y p).
Definition set_y (v : Q) (p : t) : t := mk (x p) v.
End Vec.

(** The rectangle [getBoundingClientRect] returns. *)
Module Rect.
Record t := mk { left : Q; top : Q; width : Q; height : Q }.
Definition right (r : t) : Q := (left r + width r)%Q.
Definition bottom (r : t) : Q := (top r + height r)%Q.
End Rect.

Module Hitbox.
Record t := mk { widthPercentage : option Q; heightPercentage : option Q }.
(** The empty object [{}]. *)
Definition empty : t := mk None None.
End Hitbox.

Module Quiz.
Record t := mk { title : option string; questions : option (list string) }.
End Quiz.

(** The value of [this.direction]: the name of a row of the sprite
    sheet. *)
Module Direction.
Inductive t := down | left | right | up.
End Direction.

#[global] Instance Direction_eq_dec : EqDecision Direction.t.
Proof. solve_decision. Defined.

(** The size of a sprite sheet, [{height, width}]. *)
Module Pixels.
Record t := mk { height : Q; width : Q }.
End Pixels.

(** The grid of a sprite sheet, [{rows, columns}]. *)
Module Orientation.
Record t := mk { rows : Q; columns : Q }.
End Orientation.

(** The frames of one direction, [{row, start, columns}]. *)
Module DirectionData.
Record t := mk { row : Q; start : Q; columns : Q }.
End DirectionData.

(** A sprite descriptor, as the level classes build them.  [keypress],
    the key bindings of a player, is left out: the key handlers take the
    bindings as an argument. *)
Module SpriteData.
Record t := mk {
    id : option string;
    greeting : option string;
    src : option string;
    SCALE_FACTOR : option Q;
    STEP_FACTOR : option Q;
    ANIMATION_RATE : option Q;
    INIT_POSITION : option Vec.t;
    hitbox : option Hitbox.t;
    quiz : option Quiz.t;
    pixels : option Pixels.t;
    orientation : option Orientation.t;
    down : option DirectionData.t;
    left : option DirectionData.t;
    right : option DirectionData.t;
    up : option DirectionData.t
  }.
(** The empty object [{}]. *)
Definition empty : t :=
  mk None None None None None None None None None None None None None None None.
(** [spriteData[direction]] *)
Definition row (direction : Direction.t) (d : t) : option DirectionData.t :=
  match direction with
  | Direction.down => down d
  | Direction.left => left d
  | Direction.right => right d
  | Direction.up => up d
  end.
End SpriteData.

(** A canvas element: its id, whether it hangs in the document
    ([parentNode] is not null) and its bounding client rectangle. *)
Module Canvas.
Record t := mk { id : string; parentNode : bool; rect : Rect.t }.
Definition set_parentNode (b : bool) (c : t) : t := mk (id c) b (rect c).
Definition set_rect (r : Rect.t) (c : t) : t := mk (id c) (parentNode c) r.
End Canvas.

Module TouchPoint.
Record t := mk {
    id : string;
    greet : option string;
    top : bool;
    bottom : bool;
    left : bool;
    right : bool
  }.
End TouchPoint.

Module TouchPoints.
Record t := mk { this : TouchPoint.t; other : TouchPoint.t }.
End TouchPoints.

Module CollisionData.
Record t := mk { hit : bool; touchPoints : TouchPoints.t }.
End CollisionData.

Module Movement.
Record t := mk { up : bool; down : bool; left : bool; right : bool }.
Definition all : t := mk true true true true.
Definition set_up (b : bool) (m : t) : t := mk b (down m) (left m) (right m).
Definition set_down (b : bool) (m : t) : t := mk (up m) b (left m) (right m).
Definition set_left (b : bool) (m : t) : t := mk (up m) (down m) b (right m).
Definition set_right (b : bool) (m : t) : t := mk (up m) (down m) (left m) b.
End Movement.

Inductive Class := Background | Character | Player | Npc.

#[global] Instance Class_eq_dec : EqDecision Class.
Proof. solve_decision. Defined.

(** An instance of [GameObject] or of one of its subclasses; the fields of
    the whole hierarchy in one record.  [collisionData] is [None] while it
    is the empty object of the constructor; [position] is the address of
    the position object. *)
Module Obj.
Record t := mk {
    class : Class;
    canvas : option Canvas.t;
    hitbox : Hitbox.t;
    collisionData : option CollisionData.t;
    collisionEvents : list string;
    movement : Movement.t;
    spriteData : option SpriteData.t;
    position : ref;
    velocity : Vec.t;
    scale : Vec.t;
    scaleFactor : Q;
    stepFactor : Q;
    size : Q;
    width : Q;
    height : Q;
    xVelocity : Q;
    yVelocity : Q;
    quiz : option string;
    questions : list string;
    direction : Direction.t
  }.

Definition set_canvas (v : option Canvas.t) (o : t) : t :=
    mk (class o) v (hitbox o) (collisionData o) (collisionEvents o)
       (movement o) (spriteData o) (position o) (velocity o) (scale o)
       (scaleFactor o) (stepFactor o) (size o) (width o) (height o)
       (xVelocity o) (yVelocity o) (quiz o) (questions o) (direction o).
Definition set_collisionData (v : option CollisionData.t) (o : t) : t :=
    mk (class o) (canvas o) (hitbox o) v (collisionEvents o)
       (movement o) (spriteData o) (position o) (velocity o) (scale o)
       (scaleFactor o) (stepFactor o) (size o) (width o) (height o)
       (xVelocity o) (yVelocity o) (quiz o) (questions o) (direction o).
Definition set_collisionEvents (v : list string) (o : t) : t :=
    mk (class o) (canvas o) (hitbox o) (collisionData o) v
       (movement o) (spriteData o) (position o) (velocity o) (scale o)
       (scaleFactor o) (stepFactor o) (size o) (width o) (height o)
       (xVelocity o) (yVelocity o) (quiz o) (questions o) (direction o).
Definition set_movement (v : Movement.t) (o : t) : t :=
    mk (class o) (canvas o) (hitbox o) (collisionData o) (collisionEvents o)
       v (spriteData o) (position o) (velocity o) (scale o)
       (scaleFactor o) (stepFactor o) (size o) (width o) (height o)
       (xVelocity o) (yVelocity o) (quiz o) (questions o) (direction o).
Definition set_velocity (v : Vec.t) (o : t) : t :=
    mk (class o) (canvas o) (hitbox o) (collisionData o) (collisionEvents o)
       (movement o) (spriteData o) (position o) v (scale o)
       (scaleFactor o) (stepFactor o) (size o) (width o) (height o)
       (xVelocity o) (yVelocity o) (quiz o) (questions o) (direction o).
(** The assignments of [resize] after the position is rescaled. *)
Definition set_geometry (newScale : Vec.t) (sz xv yv : Q) (o : t) : t :=
    mk (class o) (canvas o) (hitbox o) (collisionData o) (collisionEvents o)
       (movement o) (spriteData o) (position o) (velocity o) newScale
       (scaleFactor o) (stepFactor o) sz sz sz xv yv (quiz o) (questions o)
       (direction o).
Definition set_quiz (v : option string) (qs : list string) (o : t) : t :=
    mk (class o) (canvas o) (hitbox o) (collisionData o) (collisionEvents o)
       (movement o) (spriteData o) (position o) (velocity o) (scale o)
       (scaleFactor o) (stepFactor o) (size o) (width o) (height o)
       (xVelocity o) (yVelocity o) v qs (direction o).
Definition set_direction (v : Direction.t) (o : t) : t :=
    mk (class o) (canvas o) (hitbox o) (collisionData o) (collisionEvents o)
       (movement o) (spriteData o) (position o) (velocity o) (scale o)
       (scaleFactor o) (stepFactor o) (size o) (width o) (height o)
       (xVelocity o) (yVelocity o) (quiz o) (questions o) v.
End Obj.


(** One entry of a level's [objects] list, [{ class, data }]. *)
Module LevelObject.
Record t := mk { class : Class; data : option SpriteData.t }.
End LevelObject.

(** A level class: its constructor takes [path] and reads
    [GameEnv.innerWidth] and [GameEnv.innerHeight]. *)
Definition Level : Type := string -> Q -> Q -> list LevelObject.t.

(** The static fields of [GameEnv]. *)
Module GameEnv.
Record t := mk {
    gameObjects : list ref;
    continueLevel : bool;
    innerWidth : Q;
    innerHeight : Q;
    top : Q;
    timerActive : bool
  }.
Definition set_gameObjects (v : list ref) (e : t) : t :=
  mk v (continueLevel e) (innerWidth e) (innerHeight e) (top e) (timerActive e).
Definition set_continueLevel (v : bool) (e : t) : t :=
  mk (gameObjects e) v (innerWidth e) (innerHeight e) (top e) (timerActive e).
Definition set_timerActive (v : bool) (e : t) : t :=
  mk (gameObjects e) (continueLevel e) (innerWidth e) (innerHeight e) (top e) v.
End GameEnv.

(** The fields of the [GameControl] singleton. *)
Module GameControl.
Record t := mk {
    currentPass : nat;
    currentLevelIndex : nat;
    levelClasses : list Level;
    path : string
  }.
Definition set_currentPass (v : nat) (c : t) : t :=
  mk v (currentLevelIndex c) (levelClasses c) (path c).
Definition set_currentLevelIndex (v : nat) (c : t) : t :=
  mk (currentPass c) v (levelClasses c) (path c).
End GameControl.

(** The rows [updatePromptTable] builds.  A question row carries the
    number printed before the question, the question, and the one
    [<input type="text">] of the row, tagged with [dataset.questionIndex]. *)
Inductive Row :=
  | RowHeader
  | RowQuestion (number : nat) (question : string) (questionIndex : nat)
  | RowSubmit
  | RowNoQuestions.

(** The children of the [promptDropDown] element. *)
Inductive PanelNode :=
  | NodeTitle
  | NodeTable (rows : list Row).

(** The [promptTitle] element: [style.display] and [innerHTML]. *)
Module TitleElement.
Record t := mk { display : string; innerHTML : string }.
End TitleElement.

(** The fields of the [Prompt] singleton; [dim] is [backgroundDim.dim]. *)
Module Prompt.
Record t := mk { isOpen : bool; dim : bool; currentNpc : option ref }.
End Prompt.

(** The part of the page the program looks up: whether [#gameContainer]
    exists, the children of [.promptDropDown] and the [#promptTitle]
    element when they exist, and the number of [#dim] overlays. *)
Module Document.
Record t := mk {
    gameContainer : bool;
    promptDropDown : option (list PanelNode);
    promptTitle : option TitleElement.t;
    dimDiv : nat
  }.
End Document.

(** What the browser decides: where it lays out a canvas that has no
    style yet, and the values [Math.random] returns, call after call. *)
Module Host.
Record t := mk { layout : Rect.t; random : nat -> Q }.
End Host.

Inductive Event :=
  | EvAlert (msg : option string)
  | EvRequestAnimationFrame
  | EvIsCollision (this other : ref)
  | EvDestroy (this : ref).

#[global] Instance Event_eq_dec : EqDecision Event.
Proof. solve_decision. Defined.

Record World := mkWorld {
    heap : gmap ref Obj.t;
    positions : gmap ref Vec.t;
    next : ref;
    env : GameEnv.t;
    control : GameControl.t;
    prompt : Prompt.t;
    document : Document.t;
    host : Host.t;
    randomCalls : nat;
    trace : list Event
  }.

Definition set_heap (v : gmap ref Obj.t) (w : World) : World :=
  mkWorld v (positions w) (next w) (env w) (control w) (prompt w)
          (document w) (host w) (randomCalls w) (trace w).
Definition set_positions (v : gmap ref Vec.t) (w : World) : World :=
  mkWorld (heap w) v (next w) (env w) (control w) (prompt w)
          (document w) (host w) (randomCalls w) (trace w).
Definition set_next (v : ref) (w : World) : World :=
  mkWorld (heap w) (positions w) v (env w) (control w) (prompt w)
          (document w) (host w) (randomCalls w) (trace w).
Definition set_env (v : GameEnv.t) (w : World) : World :=
  mkWorld (heap w) (positions w) (next w) v (control w) (prompt w)
          (document w) (host w) (randomCalls w) (trace w).
Definition set_control (v : GameControl.t) (w : World) : World :=
  mkWorld (heap w) (positions w) (next w) (env w) v (prompt w)
          (document w) (host w) (randomCalls w) (trace w).
Definition set_prompt (v : Prompt.t) (w : World) : World :=
  mkWorld (heap w) (positions w) (next w) (env w) (control w) v
          (document w) (host w) (randomCalls w) (trace w).
Definition set_document (v : Document.t) (w : World) : World :=
  mkWorld (heap w) (positions w) (next w) (env w) (control w) (prompt w)
          v (host w) (randomCalls w) (trace w).
Definition set_randomCalls (v : nat) (w : World) : World :=
  mkWorld (heap w) (positions w) (next w) (env w) (control w) (prompt w)
          (document w) (host w) v (trace w).
Definition set_trace (v : list Event) (w : World) : World :=
  mkWorld (heap w) (positions w) (next w) (env w) (control w) (prompt w)
          (document w) (host w) (randomCalls w) v.

(** The registry, [GameEnv.gameObjects]. *)
Abbreviation gameObjects w := (GameEnv.gameObjects (env w)).

(** ** Computations *)

Inductive Error :=
  | TypeError (msg : string)
  | Error_ (msg : string).

Inductive Outcome (A : Type) :=
  | Ok (a : A) (w : World)
  | Throw (e : Error) (w : World)
  | Diverge.
Arguments Ok {A} a w.
Arguments Throw {A} e w.
Arguments Diverge {A}.

Definition M (A : Type) : Type := World -> Outcome A.

#[global] Instance M_ret : MRet M := λ A a w, Ok a w.
#[global] Instance M_bind : MBind M := λ A B f m w,
  match m w with
  | Ok a w' => f a w'
  | Throw e w' => Throw e w'
  | Diverge => Diverge
  end.

Definition gets {A} (f : World -> A) : M A := λ w, Ok (f w) w.
Definition modify (f : World -> World) : M unit := λ w, Ok tt (f w).
Definition throw {A} (e : Error) : M A := λ w, Throw e w.

(** Reading a property of [undefined] or [null] throws a [TypeError]. *)
Definition require {A} (v : option A) (msg : string) : M A :=
  match v with
  | Some a => mret a
  | None => throw (TypeError msg)
  end.

Definition emit (e : Event) : M unit :=
  modify (λ w, set_trace (trace w ++ [e]) w).

(** [alert(msg)] *)
Definition alert (msg : option string) : M unit := emit (EvAlert msg).

(** The object behind a reference.  References of the program always
    point into the store; the error is for a reference that does not. *)
Definition deref (r : ref) : M Obj.t :=
  o ← gets (λ w, heap w !! r);
  match o with
  | Some o => mret o
  | None => throw (Error_ "no object at this reference")
  end.

Definition update_obj (r : ref) (f : Obj.t -> Obj.t) : M unit :=
  o ← deref r;
  modify (λ w, set_heap (<[r := f o]> (heap w)) w).

Definition deref_pos (p : ref) : M Vec.t :=
  v ← gets (λ w, positions w !! p);
  match v with
  | Some v => mret v
  | None => throw (Error_ "no position object at this reference")
  end.

Definition store_pos (p : ref) (v : Vec.t) : M unit :=
  modify (λ w, set_positions (<[p := v]> (positions w)) w).

(** [for (const a of l) body(a)], for a list that the body leaves alone. *)
Fixpoint forOf {A} (l : list A) (body : A -> M unit) : M unit :=
  match l with
  | [] => mret tt
  | a :: l' => body a;; forOf l' body
  end.

(** A loop that carries a local variable. *)
Fixpoint forOfAcc {A S} (l : list A) (body : S -> A -> M S) (s : S) : M S :=
  match l with
  | [] => mret s
  | a :: l' => s' ← body s a; forOfAcc l' body s'
  end.

(** ** GameObject *)

(** The body of [isCollision] once the two rectangles, the two hitboxes
    and the ids and greetings of the touch points are at hand. *)
Definition collide (thisRect otherRect : Rect.t)
    (thisHitbox otherHitbox : Hitbox.t)
    (thisId otherId : string) (thisGreet otherGreet : option string)
    : CollisionData.t :=
  let thisWidthReduction :=
    (Rect.width thisRect * num_or (Hitbox.widthPercentage thisHitbox) 0)%Q in
  let thisHeightReduction :=
    (Rect.height thisRect * num_or (Hitbox.heightPercentage thisHitbox) 0)%Q in
  let otherWidthReduction :=
    (Rect.width otherRect * num_or (Hitbox.widthPercentage otherHitbox) 0)%Q in
  let otherHeightReduction :=
    (Rect.height otherRect * num_or (Hitbox.heightPercentage otherHitbox) 0)%Q in
  let thisLeft := (Rect.left thisRect + thisWidthReduction)%Q in
  let thisTop := (Rect.top thisRect + thisHeightReduction)%Q in
  let thisRight := (Rect.right thisRect - thisWidthReduction)%Q in
  let thisBottom := Rect.bottom thisRect in
  let otherLeft := (Rect.left otherRect + otherWidthReduction)%Q in
  let otherTop := (Rect.top otherRect + otherHeightReduction)%Q in
  let otherRight := (Rect.right otherRect - otherWidthReduction)%Q in
  let otherBottom := Rect.bottom otherRect in
  let hit :=
    Qltb thisLeft otherRight && Qgtb thisRight otherLeft &&
    Qltb thisTop otherBottom && Qgtb thisBottom otherTop in
  let touchPoints :=
    TouchPoints.mk
      (TouchPoint.mk thisId thisGreet
         (Qgtb thisBottom otherTop && Qltb thisTop otherTop)
         (Qltb thisTop otherBottom && Qgtb thisBottom otherBottom)
         (Qgtb thisRight otherLeft && Qltb thisLeft otherLeft)
         (Qltb thisLeft otherRight && Qgtb thisRight otherRight))
      (TouchPoint.mk otherId otherGreet
         (Qgtb otherBottom thisTop && Qltb otherTop thisTop)
         (Qltb otherTop thisBottom && Qgtb otherBottom thisBottom)
         (Qgtb otherRight thisLeft && Qltb otherLeft thisLeft)
         (Qltb otherLeft thisRight && Qgtb otherRight thisRight)) in
  CollisionData.mk hit touchPoints.

(** [collide] on two objects whose canvas and sprite data exist. *)
Definition collideObjs (t o : Obj.t) (thisCanvas otherCanvas : Canvas.t)
    (thisSprite otherSprite : SpriteData.t) : CollisionData.t :=
  collide (Canvas.rect thisCanvas) (Canvas.rect otherCanvas)
          (Obj.hitbox t) (Obj.hitbox o)
          (Canvas.id thisCanvas) (Canvas.id otherCanvas)
          (SpriteData.greeting thisSprite) (SpriteData.greeting otherSprite).

Definition isCollision (this other : ref) : M unit :=
  emit (EvIsCollision this other);;
  t ← deref this;
  o ← deref other;
  thisCanvas ← require (Obj.canvas t) "this.canvas is undefined";
  otherCanvas ← require (Obj.canvas o) "other.canvas is undefined";
  thisSprite ← require (Obj.spriteData t) "this.spriteData is undefined";
  otherSprite ← require (Obj.spriteData o) "other.spriteData is undefined";
  update_obj this
    (Obj.set_collisionData
       (Some (collideObjs t o thisCanvas otherCanvas thisSprite otherSprite))).

(** [handleCollisionReaction(other)] *)
Definition handleCollisionReaction (other : TouchPoint.t) : M unit :=
  alert (TouchPoint.greet other).

(** The branch of [handleCollisionState] that rewrites the movement
    flags and the velocity from the touch points of [this]. *)
Definition handleCollisionState_on (touchPoints : TouchPoint.t) (o : Obj.t)
    : Obj.t :=
  let o := Obj.set_movement Movement.all o in
  let o :=
    if TouchPoint.top touchPoints then
      let o := Obj.set_movement (Movement.set_down false (Obj.movement o)) o in
      if Qgtb (Vec.y (Obj.velocity o)) 0
      then Obj.set_velocity (Vec.set_y 0 (Obj.velocity o)) o else o
    else o in
  let o :=
    if TouchPoint.bottom touchPoints then
      let o := Obj.set_movement (Movement.set_up false (Obj.movement o)) o in
      if Qltb (Vec.y (Obj.velocity o)) 0
      then Obj.set_velocity (Vec.set_y 0 (Obj.velocity o)) o else o
    else o in
  let o :=
    if TouchPoint.right touchPoints then
      let o := Obj.set_movement (Movement.set_left false (Obj.movement o)) o in
      if Qltb (Vec.x (Obj.velocity o)) 0
      then Obj.set_velocity (Vec.set_x 0 (Obj.velocity o)) o else o
    else o in
  if TouchPoint.left touchPoints then
    let o := Obj.set_movement (Movement.set_right false (Obj.movement o)) o in
    if Qgtb (Vec.x (Obj.velocity o)) 0
    then Obj.set_velocity (Vec.set_x 0 (Obj.velocity o)) o else o
  else o.

Definition handleCollisionState (this : ref) : M unit :=
  t ← deref this;
  if bool_decide (0 < length (Obj.collisionEvents t))%nat then
    cd ← require (Obj.collisionData t) "collisionData.touchPoints is undefined";
    update_obj this
      (handleCollisionState_on (TouchPoints.this (CollisionData.touchPoints cd)))
  else mret tt.

(** [array.includes(id)] *)
Definition includes (id : string) (l : list string) : bool :=
  bool_decide (id ∈ l).

Definition handleCollisionEvent (this : ref) : M unit :=
  t ← deref this;
  cd ← require (Obj.collisionData t) "collisionData.touchPoints is undefined";
  let objectOther := TouchPoints.other (CollisionData.touchPoints cd) in
  (if negb (includes (TouchPoint.id objectOther) (Obj.collisionEvents t)) then
     update_obj this
       (Obj.set_collisionEvents
          (Obj.collisionEvents t ++ [TouchPoint.id objectOther]));;
     handleCollisionReaction objectOther
   else mret tt);;
  handleCollisionState this.

Definition has_canvas (o : Obj.t) : bool :=
  match Obj.canvas o with Some _ => true | None => false end.

(** [this.collisionData.hit], which is [undefined] on the empty object. *)
Definition hit_of (o : Obj.t) : bool :=
  match Obj.collisionData o with
  | Some cd => CollisionData.hit cd
  | None => false
  end.

(** The body of the loop of [collisionChecks]; the accumulator is the
    local variable [collisionDetected]. *)
Definition collisionChecks_body (this : ref) (collisionDetected : bool)
    (gameObj : ref) : M bool :=
  g ← deref gameObj;
  if has_canvas g && negb (bool_decide (this = gameObj)) then
    isCollision this gameObj;;
    t ← deref this;
    if hit_of t then
      handleCollisionEvent this;;
      mret true
    else mret collisionDetected
  else mret collisionDetected.

Definition collisionChecks (this : ref) : M unit :=
  objs ← gets (λ w, gameObjects w);
  collisionDetected ← forOfAcc objs (collisionChecks_body this) false;
  if negb collisionDetected then
    update_obj this (Obj.set_collisionEvents [])
  else mret tt.

(** ** Character *)

(** [draw()] as far as the later collision tests see it.  The sprite
    sheet and the sprite data are set together by the constructor, so the
    test [this.spriteSheet] is the test that the object has sprite data;
    without it a red square is painted and nothing else happens.  With it,
    the frame size is read from [spriteData.pixels] and
    [spriteData.orientation], and the frame from the row of
    [this.direction]: a descriptor without one of them makes the read
    throw.  Then the canvas is styled [position: absolute] at
    [left = position.x], [top = GameEnv.top + position.y] with the size of
    the object, and that box is what [getBoundingClientRect] returns
    afterwards (the page is not scrolled and the canvas is positioned
    against the viewport).  The pixels and the animation counters
    ([frameIndex], [frameCounter]) are not part of the model. *)
Definition Character_draw (this : ref) : M unit :=
  t ← deref this;
  match Obj.spriteData t with
  | Some spriteData =>
      (* this.spriteData.pixels.width / this.spriteData.orientation.columns *)
      _ ← require (SpriteData.pixels spriteData)
                  "this.spriteData.pixels is undefined";
      _ ← require (SpriteData.orientation spriteData)
                  "this.spriteData.orientation is undefined";
      (* directionData.start *)
      _ ← require (SpriteData.row (Obj.direction t) spriteData)
                  "directionData is undefined";
      canvas ← require (Obj.canvas t) "this.canvas is undefined";
      p ← deref_pos (Obj.position t);
      top ← gets (λ w, GameEnv.top (env w));
      update_obj this
        (Obj.set_canvas
           (Some (Canvas.set_rect
                    (Rect.mk (Vec.x p) (top + Vec.y p)%Q
                             (Obj.width t) (Obj.height t))
                    canvas)))
  | None => mret tt
  end.

(** The second half of [update]: the velocity is added to the position,
    then the four boundary tests run in the order of the source, each on
    the position the previous one left. *)
Definition integrate_and_clamp (innerWidth innerHeight width height : Q)
    (position velocity : Vec.t) : Vec.t * Vec.t :=
  let position := Vec.set_x (Vec.x position + Vec.x velocity)%Q position in
  let position := Vec.set_y (Vec.y position + Vec.y velocity)%Q position in
  let '(position, velocity) :=
    if Qgtb (Vec.y position + height)%Q innerHeight
    then (Vec.set_y (innerHeight - height)%Q position, Vec.set_y 0 velocity)
    else (position, velocity) in
  let '(position, velocity) :=
    if Qltb (Vec.y position) 0
    then (Vec.set_y 0 position, Vec.set_y 0 velocity)
    else (position, velocity) in
  let '(position, velocity) :=
    if Qgtb (Vec.x position + width)%Q innerWidth
    then (Vec.set_x (innerWidth - width)%Q position, Vec.set_x 0 velocity)
    else (position, velocity) in
  if Qltb (Vec.x position) 0
  then (Vec.set_x 0 position, Vec.set_x 0 velocity)
  else (position, velocity).

Definition Character_update (this : ref) : M unit :=
  Character_draw this;;
  collisionChecks this;;
  t ← deref this;
  p ← deref_pos (Obj.position t);
  innerWidth ← gets (λ w, GameEnv.innerWidth (env w));
  innerHeight ← gets (λ w, GameEnv.innerHeight (env w));
  let '(p', v') :=
    integrate_and_clamp innerWidth innerHeight (Obj.width t) (Obj.height t)
                        p (Obj.velocity t) in
  store_pos (Obj.position t) p';;
  update_obj this (Obj.set_velocity v').

Definition Character_resize (this : ref) : M unit :=
  innerWidth ← gets (λ w, GameEnv.innerWidth (env w));
  innerHeight ← gets (λ w, GameEnv.innerHeight (env w));
  let newScale := Vec.mk innerWidth innerHeight in
  t ← deref this;
  p ← deref_pos (Obj.position t);
  store_pos (Obj.position t)
    (Vec.mk (Vec.x p / Vec.x (Obj.scale t) * Vec.x newScale)%Q
            (Vec.y p / Vec.y (Obj.scale t) * Vec.y newScale)%Q);;
  update_obj this
    (Obj.set_geometry newScale
       (Vec.y newScale / Obj.scaleFactor t)%Q
       (Vec.x newScale / Obj.stepFactor t)%Q
       (Vec.y newScale / Obj.stepFactor t)%Q).

(** [array.indexOf(x)]; [None] stands for [-1]. *)
Fixpoint indexOf (x : ref) (l : list ref) : option nat :=
  match l with
  | [] => None
  | y :: l' => if bool_decide (x = y) then Some 0%nat else S <$> indexOf x l'
  end.

Definition set_gameObjects (v : list ref) : M unit :=
  modify (λ w, set_env (GameEnv.set_gameObjects v (env w)) w).

Definition Character_destroy (this : ref) : M unit :=
  objs ← gets (λ w, gameObjects w);
  match indexOf this objs with
  | Some index =>
      t ← deref this;
      canvas ← require (Obj.canvas t) "this.canvas is undefined";
      (if Canvas.parentNode canvas then
         update_obj this
           (Obj.set_canvas (Some (Canvas.set_parentNode false canvas)))
       else throw (TypeError "this.canvas.parentNode is null"));;
      objs ← gets (λ w, gameObjects w);
      set_gameObjects (delete index objs)
  | None => mret tt
  end.

(** The module constants of [Character.js]. *)
Definition SCALE_FACTOR : Q := 25.
Definition STEP_FACTOR : Q := 100.
Definition ANIMATION_RATE : Q := 1.

(** The address of the one object [const INIT_POSITION = { x: 0, y: 0 }]. *)
Definition INIT_POSITION : ref := 0%nat.

Definition alloc (o : Obj.t) : M ref :=
  r ← gets next;
  modify (λ w, set_next (S r) (set_heap (<[r := o]> (heap w)) w));;
  mret r.

Definition alloc_pos (v : Vec.t) : M ref :=
  r ← gets next;
  modify (λ w, set_next (S r) (set_positions (<[r := v]> (positions w)) w));;
  mret r.

(** [GameEnv.gameObjects.push(this)] *)
Definition push (this : ref) : M unit :=
  objs ← gets (λ w, gameObjects w);
  set_gameObjects (objs ++ [this]).

(** The constructor of [Character], which [Player] and [Npc] run through
    [super(data)]; [cls] is the class being built.  The statements are
    those of the source, in its order.  The object under construction
    cannot be reached by anyone until it is pushed, so it enters the store
    when the constructor gets there.  [INIT_POSITION] of a descriptor is an
    object literal of its own, which the level class writes for the one
    object built from the descriptor; the object aliases it, or the
    module constant when the descriptor has none.  The cell of the
    literal is allocated here, when the constructor takes it over: a
    descriptor handed to two constructor calls gets two cells, where the
    two objects of the source would share the one literal. *)
Definition Character_constructor (cls : Class) (data : option SpriteData.t)
    : M ref :=
  (* this.canvas.id = data.id || "default" *)
  d ← require data "data is null";
  let id := str_or (SpriteData.id d) "default" in
  (* this.hitbox = data?.hitbox || {} *)
  let hitbox := default Hitbox.empty (SpriteData.hitbox d) in
  (* document.getElementById("gameContainer").appendChild(this.canvas) *)
  gameContainer ← gets (λ w, Document.gameContainer (document w));
  (if (gameContainer : bool) then mret tt
   else throw (TypeError "document.getElementById(...) is null"));;
  layout ← gets (λ w, Host.layout (host w));
  let canvas := Canvas.mk id true layout in
  innerWidth ← gets (λ w, GameEnv.innerWidth (env w));
  innerHeight ← gets (λ w, GameEnv.innerHeight (env w));
  let scale := Vec.mk innerWidth innerHeight in
  if truthy_str (SpriteData.src d) then
    let scaleFactor := num_or (SpriteData.SCALE_FACTOR d) SCALE_FACTOR in
    let stepFactor := num_or (SpriteData.STEP_FACTOR d) STEP_FACTOR in
    position ← match SpriteData.INIT_POSITION d with
               | Some p => alloc_pos p
               | None => mret INIT_POSITION
               end;
    (* this.direction = 'down' *)
    this ← alloc (Obj.mk cls (Some canvas) hitbox None [] Movement.all
                         (Some d) position (Vec.mk 0 0) scale
                         scaleFactor stepFactor 0 0 0 0 0 None []
                         Direction.down);
    push this;;
    Character_resize this;;
    mret this
  else throw (Error_ "Sprite data is required").

(** ** Background *)

(** Modelled from the spec: [Background.js] is imported by the level
    classes but is not among the sources.  The spec lists the background
    among the variants of the entity interface (draw, update, resize,
    destroy), has one entity created per descriptor entry and inserted in
    the registry, and has [destroy()] remove the entity from the registry.
    The spec does not say what the fields of a background are.  The model
    gives it no canvas of its own, which makes it the kind of registry
    entry that the test [gameObj.canvas] of [collisionChecks] is there to
    pass over; what is proved of a background rests on that choice. *)
Definition Background_constructor (data : option SpriteData.t) : M ref :=
  this ← alloc (Obj.mk Background None Hitbox.empty None [] Movement.all
                       data INIT_POSITION (Vec.mk 0 0) (Vec.mk 0 0)
                       0 0 0 0 0 0 0 None [] Direction.down);
  push this;;
  mret this.

(** Modelled from the spec: the background is redrawn; nothing the other
    operations read changes. *)
Definition Background_update (this : ref) : M unit := mret tt.

(** Modelled from the spec: [destroy()] removes the entity from the
    registry. *)
Definition Background_destroy (this : ref) : M unit :=
  objs ← gets (λ w, gameObjects w);
  match indexOf this objs with
  | Some index => set_gameObjects (delete index objs)
  | None => mret tt
  end.

(** ** Prompt.shuffleArray *)

Definition Math_random : M Q :=
  n ← gets randomCalls;
  r ← gets (λ w, Host.random (host w) n);
  modify (set_randomCalls (S n));;
  mret r.

(** [[array[i], array[j]] = [array[j], array[i]]] for two indices in
    range.  [Math.random] returns [0 <= r < 1], so [j <= i] in the loop
    below; the model leaves the array alone for any other [j]. *)
Definition swap (i j : nat) (array : list string) : list string :=
  match array !! i, array !! j with
  | Some a, Some b => <[j := a]> (<[i := b]> array)
  | _, _ => array
  end.

(** The loop of [shuffleArray], entered with [i]; it runs while [i > 0]. *)
Fixpoint shuffleLoop (i : nat) (array : list string) : M (list string) :=
  match i with
  | O => mret array
  | S i' =>
      r ← Math_random;
      let j := Z.to_nat (Qfloor (r * inject_Z (Z.of_nat (i + 1)))) in
      shuffleLoop i' (swap i j array)
  end.

Definition shuffleArray (array : list string) : M (list string) :=
  shuffleLoop (length array - 1) array.

(** ** Npc and Player *)

(** [data?.quiz?.title] *)
Definition quiz_title (data : option SpriteData.t) : option string :=
  match data with
  | Some d =>
      match SpriteData.quiz d with
      | Some q => Quiz.title q
      | None => None
      end
  | None => None
  end.

(** [data?.quiz?.questions || []] *)
Definition quiz_questions (data : option SpriteData.t) : list string :=
  match data with
  | Some d =>
      match SpriteData.quiz d with
      | Some q => default [] (Quiz.questions q)
      | None => []
      end
  | None => []
  end.

(** [bindInteractKeyListeners] registers listeners only. *)
Definition Npc_constructor (data : option SpriteData.t) : M ref :=
  this ← Character_constructor Npc data;
  let quiz := quiz_title data in
  questions ← shuffleArray (quiz_questions data);
  update_obj this (Obj.set_quiz quiz questions);;
  mret this.

(** "This NPC is stationary, so the update method only calls the draw
    method." *)
Definition Npc_update (this : ref) : M unit := Character_draw this.

(** The key bindings of a player are not part of the model. *)
Definition Player_constructor (data : option SpriteData.t) : M ref :=
  Character_constructor Player data.

(** ** Dynamic dispatch *)

(** [new cls(data)] *)
Definition construct (cls : Class) (data : option SpriteData.t) : M ref :=
  match cls with
  | Background => Background_constructor data
  | Character => Character_constructor Character data
  | Player => Player_constructor data
  | Npc => Npc_constructor data
  end.

(** [this.update()] *)
Definition update (this : ref) : M unit :=
  t ← deref this;
  match Obj.class t with
  | Background => Background_update this
  | Npc => Npc_update this
  | Character | Player => Character_update this
  end.

(** [this.destroy()] *)
Definition destroy (this : ref) : M unit :=
  emit (EvDestroy this);;
  t ← deref this;
  match Obj.class t with
  | Background => Background_destroy this
  | Character | Player | Npc => Character_destroy this
  end.

(** ** Prompt *)

Definition set_isOpen (v : bool) : M unit :=
  modify (λ w, set_prompt (Prompt.mk v (Prompt.dim (prompt w))
                                     (Prompt.currentNpc (prompt w))) w).
Definition set_dim (v : bool) : M unit :=
  modify (λ w, set_prompt (Prompt.mk (Prompt.isOpen (prompt w)) v
                                     (Prompt.currentNpc (prompt w))) w).
Definition set_currentNpc (v : option ref) : M unit :=
  modify (λ w, set_prompt (Prompt.mk (Prompt.isOpen (prompt w))
                                     (Prompt.dim (prompt w)) v) w).
Definition set_promptDropDown (v : option (list PanelNode)) : M unit :=
  modify (λ w, set_document
                 (Document.mk (Document.gameContainer (document w)) v
                              (Document.promptTitle (document w))
                              (Document.dimDiv (document w))) w).
Definition set_promptTitle (v : option TitleElement.t) : M unit :=
  modify (λ w, set_document
                 (Document.mk (Document.gameContainer (document w))
                              (Document.promptDropDown (document w)) v
                              (Document.dimDiv (document w))) w).
Definition set_dimDiv (v : nat) : M unit :=
  modify (λ w, set_document
                 (Document.mk (Document.gameContainer (document w))
                              (Document.promptDropDown (document w))
                              (Document.promptTitle (document w)) v) w).

(** [backgroundDim.create()] *)
Definition backgroundDim_create : M unit :=
  set_dim true;;
  n ← gets (λ w, Document.dimDiv (document w));
  set_dimDiv (S n).

(** [backgroundDim.remove()]; [promptTitle] there is the element the page
    exposes under that id. *)
Definition backgroundDim_remove : M unit :=
  set_dim false;;
  n ← gets (λ w, Document.dimDiv (document w));
  match n with
  | O => throw (TypeError "document.getElementById(...) is null")
  | S n' =>
      set_dimDiv n';;
      set_isOpen false;;
      title ← gets (λ w, Document.promptTitle (document w));
      t ← require title "promptTitle is not defined";
      set_promptTitle (Some (TitleElement.mk "none" (TitleElement.innerHTML t)))
  end.

Definition createPromptDisplayTable : list Row := [RowHeader].

(** The rows [forEach((question, index) => ...)] appends. *)
Definition questionRows (questions : list string) : list Row :=
  imap (λ index question, RowQuestion (index + 1) question index) questions.

(** In the model every object has a list of questions, empty until the
    constructor of [Npc] fills it, so the test [this.currentNpc.questions]
    is the test that there is a current NPC: the program makes no object
    of another class the current NPC. *)
Definition updatePromptTable : M PanelNode :=
  let table := createPromptDisplayTable in
  currentNpc ← gets (λ w, Prompt.currentNpc (prompt w));
  match currentNpc with
  | Some npc =>
      n ← deref npc;
      mret (NodeTable (table ++ questionRows (Obj.questions n) ++ [RowSubmit]))
  | None => mret (NodeTable (table ++ [RowNoQuestions]))
  end.

(** [v.title] for a value [v] that is [undefined] or a string: reading a
    property of [undefined] throws, and a string has no property [title],
    so the read yields [undefined]. *)
Definition title_of (v : option string) : M (option string) :=
  match v with
  | None => throw (TypeError "npc.quiz is undefined")
  | Some _ => mret None
  end.

Definition appendChild (node : PanelNode) : M unit :=
  children ← gets (λ w, Document.promptDropDown (document w));
  c ← require children "promptDropDown is null";
  set_promptDropDown (Some (c ++ [node])).

Definition openPromptPanel (npc : ref) : M unit :=
  promptDropDown ← gets (λ w, Document.promptDropDown (document w));
  promptTitle ← gets (λ w, Document.promptTitle (document w));
  isOpen ← gets (λ w, Prompt.isOpen (prompt w));
  (if (isOpen : bool) then backgroundDim_remove else mret tt);;
  set_currentNpc (Some npc);;
  set_isOpen true;;
  (* promptDropDown.innerHTML = "" *)
  _ ← require promptDropDown "promptDropDown is null";
  set_promptDropDown (Some []);;
  (* promptTitle.style.display = "block" *)
  _ ← require promptTitle "promptTitle is null";
  modify (λ w, set_document
                 (Document.mk (Document.gameContainer (document w))
                              (Document.promptDropDown (document w))
                              ((λ e, TitleElement.mk "block"
                                       (TitleElement.innerHTML e))
                                 <$> Document.promptTitle (document w))
                              (Document.dimDiv (document w))) w);;
  (* promptTitle.innerHTML = npc.quiz.title || "Questions" *)
  n ← deref npc;
  title ← title_of (Obj.quiz n);
  set_promptTitle (Some (TitleElement.mk "block" (str_or title "Questions")));;
  appendChild NodeTitle;;
  table ← updatePromptTable;
  appendChild table;;
  backgroundDim_create.

(** [Npc.handleKeyInteract()] *)
Definition handleKeyInteract (this : ref) : M unit :=
  t ← deref this;
  sprite ← require (Obj.spriteData t) "this.spriteData is undefined";
  objs ← gets (λ w, gameObjects w);
  players ← forOfAcc objs
    (λ players obj,
       o ← deref obj;
       if match SpriteData.id sprite with
          | Some id => includes id (Obj.collisionEvents o)
          | None => false
          end
       then mret (players ++ [obj]) else mret players) [];
  let hasQuestions := bool_decide (0 < length (Obj.questions t))%nat in
  if bool_decide (0 < length players)%nat && hasQuestions then
    forOf players
      (λ player,
         isOpen ← gets (λ w, Prompt.isOpen (prompt w));
         if negb isOpen then
           set_currentNpc (Some this);;
           openPromptPanel this
         else mret tt)
  else mret tt.

(** ** GameControl *)

Definition set_continueLevel (v : bool) : M unit :=
  modify (λ w, set_env (GameEnv.set_continueLevel v (env w)) w).
Definition set_currentPass (v : nat) : M unit :=
  modify (λ w, set_control (GameControl.set_currentPass v (control w)) w).
Definition set_currentLevelIndex (v : nat) : M unit :=
  modify (λ w, set_control (GameControl.set_currentLevelIndex v (control w)) w).

(** [stopTimer()]: nothing while the timer is off.  With the timer on,
    the time is saved to local storage (not part of the model), the timer
    fields are reset, and the call of [this.updateCoinDisplay], which
    [GameControl] does not define, throws. *)
Definition stopTimer : M unit :=
  timerActive ← gets (λ w, GameEnv.timerActive (env w));
  if negb timerActive then mret tt
  else
    modify (λ w, set_env (GameEnv.set_timerActive false (env w)) w);;
    throw (TypeError "this.updateCoinDisplay is not a function").

(** [loadLevelObjects(gameInstance)]; [gameLoop] is the call
    [this.gameLoop()] that ends it.  [initStatsUI] builds page elements
    and [getStats] starts fetches; neither is part of the model. *)
Definition loadLevelObjects (gameLoop : M unit) (objects : list LevelObject.t)
    : M unit :=
  forOf objects
    (λ object,
       (* if (!object.data) object.data = {} *)
       let data := default SpriteData.empty (LevelObject.data object) in
       _ ← construct (LevelObject.class object) (Some data);
       mret tt);;
  gameLoop.

Definition loadLevel (gameLoop : M unit) : M unit :=
  currentLevelIndex ← gets (λ w, GameControl.currentLevelIndex (control w));
  levelClasses ← gets (λ w, GameControl.levelClasses (control w));
  if bool_decide (length levelClasses ≤ currentLevelIndex)%nat then stopTimer
  else
    set_continueLevel true;;
    set_gameObjects [];;
    set_currentPass 0;;
    LevelClass ← require (levelClasses !! currentLevelIndex)
                         "LevelClass is not a constructor";
    path ← gets (λ w, GameControl.path (control w));
    width ← gets (λ w, GameEnv.innerWidth (env w));
    height ← gets (λ w, GameEnv.innerHeight (env w));
    let levelInstance := (LevelClass : Level) path width height in
    loadLevelObjects gameLoop levelInstance.

(** The teardown loop of [handleLevelEnd], entered with [index + 1]:
    [for (index = ...; index >= 0; index--) gameObjects[index].destroy()]. *)
Fixpoint destroyLoop (n : nat) : M unit :=
  match n with
  | O => mret tt
  | S index =>
      objs ← gets (λ w, gameObjects w);
      obj ← require (objs !! index) "GameEnv.gameObjects[index] is undefined";
      destroy obj;;
      destroyLoop index
  end.

Definition handleLevelEnd (gameLoop : M unit) : M unit :=
  currentLevelIndex ← gets (λ w, GameControl.currentLevelIndex (control w));
  levelClasses ← gets (λ w, GameControl.levelClasses (control w));
  (if bool_decide
        (Z.of_nat currentLevelIndex < Z.of_nat (length levelClasses) - 1)%Z
   then alert (Some "Level ended.")
   else alert (Some "Game over. All levels completed."));;
  objs ← gets (λ w, gameObjects w);
  destroyLoop (length objs);;
  set_currentLevelIndex (currentLevelIndex + 1);;
  loadLevel gameLoop.

Definition handleLevelStart : M unit :=
  currentLevelIndex ← gets (λ w, GameControl.currentLevelIndex (control w));
  currentPass ← gets (λ w, GameControl.currentPass (control w));
  (if bool_decide (currentLevelIndex = 0%nat) && bool_decide (currentPass = 10%nat)
   then alert (Some "Start Level.") else mret tt);;
  set_currentPass (currentPass + 1).

(** The body of [gameLoop]; [self] is the loop itself, which the level
    end calls again through [loadLevel].  [GameEnv.clear] touches pixels
    only; [requestAnimationFrame] is recorded in the trace. *)
Definition gameLoop_body (self : M unit) : M unit :=
  continueLevel ← gets (λ w, GameEnv.continueLevel (env w));
  if negb continueLevel then handleLevelEnd self
  else
    objs ← gets (λ w, gameObjects w);
    forOf objs update;;
    handleLevelStart;;
    emit EvRequestAnimationFrame.

Fixpoint gameLoop (fuel : nat) : M unit :=
  match fuel with
  | O => λ _, Diverge
  | S fuel' => gameLoop_body (gameLoop fuel')
  end.

(** ** Notions of the statements *)

(** The world a computation ends in, normally or by an exception. *)
Definition final {A} (o : Outcome A) : option World :=
  match o with
  | Ok _ w => Some w
  | Throw _ w => Some w
  | Diverge => None
  end.

(** The four edges of a rectangle. *)
Module Edges.
Record t := mk { left : Q; top : Q; right : Q; bottom : Q }.
End Edges.

(** The inset rectangle in the words of the specification: the left edge
    moves right by [width * insetW], the top edge moves down by
    [height * insetH], the right edge moves left by [width * insetW], the
    bottom edge stays. *)
Definition inset (r : Rect.t) (insetW insetH : Q) : Edges.t :=
  Edges.mk (Rect.left r + Rect.width r * insetW)%Q
           (Rect.top r + Rect.height r * insetH)%Q
           (Rect.right r - Rect.width r * insetW)%Q
           (Rect.bottom r).

(** Overlap on open intervals: four strict comparisons. *)
Definition overlap (a b : Edges.t) : Prop :=
  (Edges.left a < Edges.right b)%Q ∧ (Edges.left b < Edges.right a)%Q ∧
  (Edges.top a < Edges.bottom b)%Q ∧ (Edges.top b < Edges.bottom a)%Q.

(** The inset percentages of a hitbox, [0] when one is missing. *)
Definition insetW (h : Hitbox.t) : Q := default 0%Q (Hitbox.widthPercentage h).
Definition insetH (h : Hitbox.t) : Q := default 0%Q (Hitbox.heightPercentage h).

(** A rectangle given by its edges [[left, top, right, bottom]]. *)
Definition rect_of_edges (l t r b : Q) : Rect.t := Rect.mk l t (r - l)%Q (b - t)%Q.

(** The movement flags one set of touch points leaves: a touching side
    forbids the move towards it. *)
Definition flags_of (touchPoints : TouchPoint.t) : Movement.t :=
  Movement.mk (negb (TouchPoint.bottom touchPoints))
              (negb (TouchPoint.top touchPoints))
              (negb (TouchPoint.right touchPoints))
              (negb (TouchPoint.left touchPoints)).

(** What [isCollision] stores for two objects, when their canvases and
    sprite data exist. *)
Definition collision (t o : Obj.t) : option CollisionData.t :=
  match Obj.canvas t, Obj.canvas o, Obj.spriteData t, Obj.spriteData o with
  | Some thisCanvas, Some otherCanvas, Some thisSprite, Some otherSprite =>
      Some (collideObjs t o thisCanvas otherCanvas thisSprite otherSprite)
  | _, _, _, _ => None
  end.

(** The collision of the object [t] with the object at [g]. *)
Definition collisionWith (h : gmap ref Obj.t) (t : Obj.t) (g : ref)
    : option CollisionData.t :=
  match h !! g with
  | Some o => collision t o
  | None => None
  end.

(** The partners of [this]: the registry entries with a canvas, other
    than [this], in registry order. *)
Definition is_partner (h : gmap ref Obj.t) (this g : ref) : bool :=
  negb (bool_decide (this = g)) &&
  match h !! g with Some o => has_canvas o | None => false end.

Definition partnersIn (h : gmap ref Obj.t) (this : ref) (objs : list ref)
    : list ref :=
  List.filter (is_partner h this) objs.

Definition partners (w : World) (this : ref) : list ref :=
  partnersIn (heap w) this (gameObjects w).

(** The partners that register a hit. *)
Definition is_hit (h : gmap ref Obj.t) (t : Obj.t) (g : ref) : bool :=
  match collisionWith h t g with
  | Some cd => CollisionData.hit cd
  | None => false
  end.

Definition hitsIn (h : gmap ref Obj.t) (this : ref) (t : Obj.t)
    (objs : list ref) : list ref :=
  List.filter (is_hit h t) (partnersIn h this objs).

Definition hits (w : World) (this : ref) : list ref :=
  match heap w !! this with
  | Some t => hitsIn (heap w) this t (gameObjects w)
  | None => []
  end.

(** The references on which [destroy()] was called, in call order, and the
    pairs on which [isCollision] was called. *)
Definition destroyed (tr : list Event) : list ref :=
  omap (λ e, match e with EvDestroy r => Some r | _ => None end) tr.

Definition collisionCalls (tr : list Event) : list (ref * ref) :=
  omap (λ e, match e with EvIsCollision a b => Some (a, b) | _ => None end) tr.

(** ** Preconditions *)

(** [draw()] finds what it reads: an object with sprite data has the
    size and the grid of the sprite sheet and the row of its direction
    (an object without sprite data gets the red square). *)
Definition drawable (o : Obj.t) : bool :=
  match Obj.spriteData o with
  | Some spriteData =>
      bool_decide (is_Some (SpriteData.pixels spriteData)) &&
      bool_decide (is_Some (SpriteData.orientation spriteData)) &&
      bool_decide (is_Some (SpriteData.row (Obj.direction o) spriteData))
  | None => true
  end.

(** [this] has what the collision tests and the styling of the canvas
    read: it is in the store with a canvas, sprite data and a position
    object. *)
Definition ready (w : World) (this : ref) : bool :=
  match heap w !! this with
  | Some t =>
      has_canvas t &&
      bool_decide (is_Some (Obj.spriteData t)) &&
      bool_decide (is_Some (positions w !! Obj.position t))
  | None => false
  end.

(** Every registry entry is in the store, and those with a canvas have
    sprite data (the constructors of the classes with a canvas set both). *)
Definition registry_ready (w : World) : bool :=
  forallb (λ g, match heap w !! g with
                | Some o => implb (has_canvas o)
                                  (bool_decide (is_Some (Obj.spriteData o)))
                | None => false
                end)
          (gameObjects w).

(** Every registry entry can be destroyed: it is in the store and, unless
    it is a background, its canvas hangs in the document. *)
Definition destroyable (h : gmap ref Obj.t) (g : ref) : bool :=
  match h !! g with
  | Some o =>
      match Obj.class o with
      | Background => true
      | _ => match Obj.canvas o with
             | Some c => Canvas.parentNode c
             | None => false
             end
      end
  | None => false
  end.

(** The registry as the constructors leave it: no reference twice, every
    reference below the allocator, every entry destroyable. *)
Definition registry_wf (w : World) : Prop :=
  NoDup (gameObjects w) ∧
  Forall (λ g, g < next w)%nat (gameObjects w) ∧
  forallb (destroyable (heap w)) (gameObjects w) = true.

(** ** The collision pass on the object *)

(** The store and the trace after a method changed [this] and emitted
    [evs]. *)
Definition with_this (this : ref) (t : Obj.t) (evs : list Event) (w : World)
    : World :=
  set_heap (<[this := t]> (heap w)) (set_trace (trace w ++ evs) w).

(** [handleCollisionEvent] on an object whose collision data is [cd]. *)
Definition onHit (cd : CollisionData.t) (t : Obj.t) : Obj.t * list Event :=
  let objectOther := TouchPoints.other (CollisionData.touchPoints cd) in
  let '(t1, evs) :=
    if negb (includes (TouchPoint.id objectOther) (Obj.collisionEvents t))
    then (Obj.set_collisionEvents
            (Obj.collisionEvents t ++ [TouchPoint.id objectOther]) t,
          [EvAlert (TouchPoint.greet objectOther)])
    else (t, []) in
  (if bool_decide (0 < length (Obj.collisionEvents t1))%nat
   then handleCollisionState_on
          (TouchPoints.this (CollisionData.touchPoints cd)) t1
   else t1,
   evs).

(** One turn of the loop of [collisionChecks] for a partner whose
    collision with [t] is [cd]. *)
Definition visit (cd : CollisionData.t) (t : Obj.t) (detected : bool)
    : Obj.t * bool * list Event :=
  let t1 := Obj.set_collisionData (Some cd) t in
  if CollisionData.hit cd then
    let '(t2, evs) := onHit cd t1 in (t2, true, evs)
  else (t1, detected, []).

(** The loop of [collisionChecks] on the object [t] of [this]; [h] is the
    store the partners are read from. *)
Fixpoint scan (h : gmap ref Obj.t) (this : ref) (objs : list ref)
    (t : Obj.t) (detected : bool) : option (Obj.t * bool * list Event) :=
  match objs with
  | [] => Some (t, detected, [])
  | g :: objs' =>
      if is_partner h this g then
        match collisionWith h t g with
        | Some cd =>
            let '(t1, d1, evs1) := visit cd t detected in
            match scan h this objs' t1 d1 with
            | Some (t2, d2, evs2) =>
                Some (t2, d2, EvIsCollision this g :: evs1 ++ evs2)
            | None => None
            end
        | None => None
        end
      else scan h this objs' t detected
  end.

(** Recording an id in the list of collision events. *)
Definition record_id (l : list string) (id : string) : list string :=
  if includes id l then l else l ++ [id].

(** What the collision pass never writes: an object with the four fields
    the pass writes blanked out. *)
Definition shape (t : Obj.t) : Obj.t :=
  Obj.set_collisionData None
    (Obj.set_collisionEvents []
       (Obj.set_movement Movement.all
          (Obj.set_velocity (Vec.mk 0 0) t))).

(** The id under which the partner at [g] is recorded. *)
Definition partner_id (h : gmap ref Obj.t) (g : ref) : string :=
  match h !! g with
  | Some o => match Obj.canvas o with Some c => Canvas.id c | None => "" end
  | None => ""
  end.

(** ** What loading and running a level leave alone *)

(** From [w] to [w']: no [destroy()] was called, the level index, the
    level list and the continue flag are the same, and the registry only
    gained references the allocator handed out in between, each once. *)
Definition grows (w w' : World) : Prop :=
  destroyed (trace w') = destroyed (trace w) ∧
  GameControl.currentLevelIndex (control w') =
    GameControl.currentLevelIndex (control w) ∧
  GameControl.levelClasses (control w') = GameControl.levelClasses (control w) ∧
  GameEnv.continueLevel (env w') = GameEnv.continueLevel (env w) ∧
  (next w ≤ next w')%nat ∧
  ∃ new, gameObjects w' = gameObjects w ++ new ∧
         NoDup new ∧
         Forall (λ r, next w ≤ r < next w')%nat new.

(** A computation that ends, normally or by an exception, in a world the
    starting world grew into. *)
Definition steady {A} (m : M A) : Prop :=
  ∀ w, match m w with
       | Ok _ w' => grows w w'
       | Throw _ w' => grows w w'
       | Diverge => False
       end.

(** ** The two levels of the game *)

(** The descriptors of [GameLevelDesert] and [GameLevelWater], with the
    fields [SpriteData.t] keeps. *)
Definition image_data_desert (path : string) : SpriteData.t :=
  SpriteData.mk None
    (Some "Welcome to the desert!  It is hot and dry here, but there are many adventures to be had!")
    (Some (path +:+ "/images/gamify/desert.png"))
    None None None None None None
    (Some (Pixels.mk 580 1038)) None None None None None.

Definition sprite_data_chillguy (path : string) (width height : Q)
    : SpriteData.t :=
  SpriteData.mk (Some "Chill Guy")
    (Some "Hi I am Chill Guy, the desert wanderer. I am looking for wisdome and adventure!")
    (Some (path +:+ "/images/gamify/chillguy.png"))
    (Some 5%Q) (Some 1000%Q) (Some 50%Q)
    (Some (Vec.mk 0 (height - height / 5)%Q))
    (Some (Hitbox.mk (Some 0.45%Q) (Some 0.2%Q)))
    None
    (Some (Pixels.mk 384 512)) (Some (Orientation.mk 3 4))
    (Some (DirectionData.mk 0 0 3)) (Some (DirectionData.mk 2 0 3))
    (Some (DirectionData.mk 1 0 3)) (Some (DirectionData.mk 3 0 3)).

Definition sprite_data_tux (path : string) (width height : Q) : SpriteData.t :=
  SpriteData.mk (Some "Tux")
    (Some "Hi I am Tux, the Linux mascot.  I am very happy to spend some linux shell time with you!")
    (Some (path +:+ "/images/gamify/tux.png"))
    (Some 8%Q) None (Some 50%Q)
    (Some (Vec.mk (width / 2)%Q (height / 2)%Q))
    (Some (Hitbox.mk (Some 0.1%Q) (Some 0.2%Q)))
    (Some (Quiz.mk (Some "Linux Command Quiz") (Some [
    "Which command is used to list files in a directory?
1. ls
2. dir
3. list
4. show";
    "Which command is used to change directories?
1. cd
2. chdir
3. changedir
4. changedirectory";
    "Which command is used to create a new directory?
1. mkdir
2. newdir
3. createdir
4. makedir";
    "Which command is used to remove a file?
1. rm
2. remove
3. delete
4. erase";
    "Which command is used to remove a directory?
1. rmdir
2. removedir
3. deletedir
4. erasedir";
    "Which command is used to copy files?
1. cp
2. copy
3. duplicate
4. xerox";
    "Which command is used to move files?
1. mv
2. move
3. transfer
4. relocate";
    "Which command is used to view a file?
1. cat
2. view
3. show
4. display";
    "Which command is used to search for text in a file?
1. grep
2. search
3. find
4. locate";
    "Which command is used to view the contents of a file?
1. less
2. more
3. view
4. cat"
  ])))
    (Some (Pixels.mk 256 352)) (Some (Orientation.mk 8 11))
    (Some (DirectionData.mk 5 0 3)) None None None.

Definition sprite_data_octocat (path : string) (width height : Q)
    : SpriteData.t :=
  SpriteData.mk (Some "Octocat")
    (Some "Hi I am Octocat! I am the GitHub code code code collaboration mascot")
    (Some (path +:+ "/images/gamify/octocat.png"))
    (Some 10%Q) None (Some 50%Q)
    (Some (Vec.mk (width / 4)%Q (height / 4)%Q))
    (Some (Hitbox.mk (Some 0.1%Q) (Some 0.1%Q)))
    (Some (Quiz.mk (Some "GitHub Command Quiz") (Some [
    "Which command is used to clone a repository?
1. git clone
2. git fork
3. git copy
4. git download";
    "Which command is used to add changes to the staging area?
1. git add
2. git stage
3. git commit
4. git push";
    "Which command is used to commit changes?
1. git commit
2. git add
3. git save
4. git push";
    "Which command is used to push changes to a remote repository?
1. git push
2. git upload
3. git send
4. git commit";
    "Which command is used to pull changes from a remote repository?
1. git pull
2. git fetch
3. git receive
4. git update";
    "Which command is used to check the status of the working directory and staging area?
1. git status
2. git check
3. git info
4. git log";
    "Which command is used to create a new branch?
1. git branch
2. git create-branch
3. git new-branch
4. git checkout";
    "Which command is used to switch to a different branch?
1. git checkout
2. git switch
3. git change-branch
4. git branch";
    "Which command is used to merge branches?
1. git merge
2. git combine
3. git join
4. git integrate";
    "Which command is used to view the commit history?
1. git log
2. git history
3. git commits
4. git show"
  ])))
    (Some (Pixels.mk 301 801)) (Some (Orientation.mk 1 4))
    (Some (DirectionData.mk 0 0 3)) None None None.

Definition sprite_data_robot (path : string) (width height : Q)
    : SpriteData.t :=
  SpriteData.mk (Some "Robot")
    (Some "Hi I am Robot, the Jupyter Notebook mascot.  I am very happy to spend some linux shell time with you!")
    (Some (path +:+ "/images/gamify/robot.png"))
    (Some 10%Q) None (Some 100%Q)
    (Some (Vec.mk (width * 3 / 4)%Q (height * 3 / 4)%Q))
    (Some (Hitbox.mk (Some 0.1%Q) (Some 0.2%Q)))
    (Some (Quiz.mk (Some "Jupyter Notebook Command Quiz") (Some [
    "Which shortcut is used to run a cell in Jupyter Notebook?
1. Shift + Enter
2. Ctrl + Enter
3. Alt + Enter
4. Tab + Enter";
    "Which shortcut adds a new cell above the current cell?
1. A
2. B
3. C
4. D";
    "Which shortcut adds a new cell below the current cell?
1. B
2. A
3. C
4. D";
    "Which shortcut changes a cell to Markdown format?
1. M
2. Y
3. R
4. K";
    "Which shortcut changes a cell to Code format?
1. Y
2. M
3. C
4. D";
    "Which shortcut deletes the current cell?
1. D, D
2. X
3. Del
4. Ctrl + D";
    "Which shortcut saves the current notebook?
1. Ctrl + S
2. Alt + S
3. Shift + S
4. Tab + S";
    "Which shortcut restarts the kernel?
1. 0, 0
2. R, R
3. K, K
4. Shift + R";
    "Which shortcut interrupts the kernel?
1. I, I
2. Ctrl + C
3. Shift + I
4. Alt + I";
    "Which shortcut toggles line numbers in a cell?
1. L
2. N
3. T
4. G"
  ])))
    (Some (Pixels.mk 316 627)) (Some (Orientation.mk 3 6))
    (Some (DirectionData.mk 1 0 6)) None None None.

Definition GameLevelDesert : Level := λ path width height,
  [ LevelObject.mk Background (Some (image_data_desert path));
    LevelObject.mk Player (Some (sprite_data_chillguy path width height));
    LevelObject.mk Npc (Some (sprite_data_tux path width height));
    LevelObject.mk Npc (Some (sprite_data_octocat path width height));
    LevelObject.mk Npc (Some (sprite_data_robot path width height)) ].

Definition image_data_water (path : string) : SpriteData.t :=
  SpriteData.mk (Some "Water") None
    (Some (path +:+ "/images/gamify/deepseadungeon.jpeg"))
    None None None None None None
    (Some (Pixels.mk 597 340)) None None None None None.

Definition sprite_data_octopus (path : string) (width height : Q)
    : SpriteData.t :=
  SpriteData.mk (Some "Octopus")
    (Some "Hi I am Octopus, the water wanderer. I am looking for wisdome and adventure!")
    (Some (path +:+ "/images/gamify/octopus.png"))
    (Some 5%Q) (Some 1000%Q) (Some 50%Q)
    (Some (Vec.mk 0 (height - height / 5)%Q))
    (Some (Hitbox.mk (Some 0.45%Q) (Some 0.2%Q)))
    None
    (Some (Pixels.mk 250 167)) (Some (Orientation.mk 3 2))
    (Some (DirectionData.mk 0 0 2)) (Some (DirectionData.mk 1 0 2))
    (Some (DirectionData.mk 1 0 2)) (Some (DirectionData.mk 0 0 2)).

Definition sprite_data_nomad (path : string) (width height : Q)
    : SpriteData.t :=
  SpriteData.mk (Some "Javanomad")
    (Some "Hi I am Java Nomad, the Java mascot.  I am very happy to spend some linux shell time with you!")
    (Some (path +:+ "/images/gamify/animwizard.png"))
    (Some 10%Q) None (Some 100%Q)
    (Some (Vec.mk (width * 3 / 4)%Q (height * 3 / 4)%Q))
    (Some (Hitbox.mk (Some 0.1%Q) (Some 0.2%Q)))
    (Some (Quiz.mk (Some "Jupyter Notebook Command Quiz") (Some [
    "Which keyword is used to define a class in Java?
1. define
2. class
3. Class
4. struct";
    "Which data type is used to store a single character in Java?
1. String
2. char
3. Character
4. ch";
    "What is the default value of an int variable in Java?
1. 0
2. null
3. undefined
4. -1";
    "Which of these is NOT a Java access modifier?
1. public
2. private
3. protected
4. external";
    "What is the purpose of the 'final' keyword in Java?
1. It defines a constant variable
2. It prevents method overriding
3. It prevents class inheritance
4. All of the above";
    "Which Java loop is guaranteed to execute at least once?
1. for loop
2. while loop
3. do-while loop
4. foreach loop";
    "What is the parent class of all Java classes?
1. Object
2. BaseClass
3. Root
4. Core";
    "How do you correctly create a new object in Java?
1. Object obj = Object();
2. Object obj = new Object();
3. Object obj = new();
4. new Object obj;";
    "Which Java keyword is used to handle exceptions?
1. throw
2. try
3. error
4. exception";
    "Which Java collection allows key-value pairs?
1. ArrayList
2. HashMap
3. HashSet
4. LinkedList"
  ])))
    (Some (Pixels.mk 307 813)) (Some (Orientation.mk 3 7))
    (Some (DirectionData.mk 1 0 6)) None None None.

Definition GameLevelWater : Level := λ path width height,
  [ LevelObject.mk Background (Some (image_data_water path));
    LevelObject.mk Player (Some (sprite_data_octopus path width height));
    LevelObject.mk Npc (Some (sprite_data_nomad path width height)) ].

(** ** Sample runs *)

(** The world after [GameEnv.create()] in a window of the given size
    without header or footer, and after the assignments of
    [GameControl.start]: a page with a game container, an empty prompt
    panel and its title element; a browser that lays an unstyled canvas
    out at the origin and whose [Math.random] returns [0.5], [0.25],
    [0.75], [0], and so on in turn. *)
Definition created (innerWidth innerHeight : Q) : World :=
  mkWorld ∅ {[ INIT_POSITION := Vec.mk 0 0 ]} 1
    (GameEnv.mk [] true innerWidth innerHeight 0 false)
    (GameControl.mk 0 0 [GameLevelDesert; GameLevelWater] "")
    (Prompt.mk false false None)
    (Document.mk true (Some []) (Some (TitleElement.mk "" "")) 0)
    (Host.mk (Rect.mk 0 0 0 0)
             (λ n, match (n mod 4)%nat with
                   | 0%nat => 0.5 | 1%nat => 0.25 | 2%nat => 0.75 | _ => 0
                   end%Q))
    0 [].

(** The world of an outcome, [w0] when there is none. *)
Definition world_of {A} (w0 : World) (o : Outcome A) : World :=
  default w0 (final o).

(** [GameControl.start] from there on: the desert level is loaded and
    its first frame has run. *)
Definition started (innerWidth innerHeight : Q) : World :=
  world_of (created innerWidth innerHeight)
           (loadLevel (gameLoop 1) (created innerWidth innerHeight)).

(** The registry of the desert level: the background and four objects
    with a canvas. *)
Definition desert_background : ref := 1%nat.
Definition chillguy : ref := 3%nat.
Definition tux : ref := 5%nat.
Definition octocat : ref := 7%nat.
Definition robot : ref := 9%nat.

(** A landscape window and a portrait window. *)
Definition landscape : World := started 1000 800.
Definition portrait : World := started 100 1000.

(** The Escape key was pressed during the desert level. *)
Definition escaped : World :=
  set_env (GameEnv.set_continueLevel false (env landscape)) landscape.

(** The text inputs of a table, by their [dataset.questionIndex]. *)
Definition inputs (node : PanelNode) : list nat :=
  match node with
  | NodeTitle => []
  | NodeTable rows =>
      omap (λ row, match row with
                   | RowQuestion _ _ questionIndex => Some questionIndex
                   | _ => None
                   end) rows
  end.

(** ** The claims the code does not meet, as they are worded *)

(** "For every entity in the registry, after [update()] the position
    satisfies [0 <= x <= W - width] and [0 <= y <= H - height]." *)
Definition update_keeps_inside : Prop :=
  ∀ w this t w' t' p',
    this ∈ gameObjects w →
    heap w !! this = Some t →
    update this w = Ok tt w' →
    heap w' !! this = Some t' →
    positions w' !! Obj.position t' = Some p' →
    (0 <= Vec.x p')%Q ∧
    (Vec.x p' <= GameEnv.innerWidth (env w') - Obj.width t')%Q ∧
    (0 <= Vec.y p')%Q ∧
    (Vec.y p' <= GameEnv.innerHeight (env w') - Obj.height t')%Q.

(** "The [update()] of every registry entity runs the collision detector
    against every other registry entity." *)
Definition update_checks_everyone : Prop :=
  ∀ w this w' other,
    this ∈ gameObjects w →
    other ∈ gameObjects w →
    other ≠ this →
    update this w = Ok tt w' →
    (this, other) ∈ collisionCalls (drop (length (trace w)) (trace w')).

(** A sprite descriptor with an id, a position and a scale factor, and
    nothing else but a source and a sprite sheet of one frame. *)
Definition sprite_at (id : string) (x y scale : Q) : SpriteData.t :=
  SpriteData.mk (Some id) (Some ("Hi I am " +:+ id)) (Some (id +:+ ".png"))
    (Some scale) None None (Some (Vec.mk x y)) None None
    (Some (Pixels.mk 64 64)) (Some (Orientation.mk 1 1))
    (Some (DirectionData.mk 0 0 1)) None None None.

(** A player [P] of size 160 at (100, 100) between two stationary
    objects of size 100: [A] at (50, 200), across its lower left corner,
    and [B] at (200, 50), across its upper right corner; one frame has
    run, so every canvas is in place. *)
Definition crowded : World :=
  world_of (created 1000 800)
    ((_ ← construct Player (Some (sprite_at "P" 100 100 5));
      _ ← construct Npc (Some (sprite_at "A" 50 200 8));
      _ ← construct Npc (Some (sprite_at "B" 200 50 8));
      gameLoop 1) (created 1000 800)).

Definition crowded_P : ref := 2%nat.
Definition crowded_A : ref := 4%nat.
Definition crowded_B : ref := 6%nat.

(** The portrait window, the player having recorded Tux earlier. *)
Definition revisited : World :=
  set_heap (alter (Obj.set_collisionEvents ["Tux"]) chillguy (heap portrait))
           portrait.

(** The object, its canvas and its position in a world where they exist
    (blank values where they do not). *)
Definition object_at (w : World) (r : ref) : Obj.t :=
  default (Obj.mk Background None Hitbox.empty None [] Movement.all None
                  INIT_POSITION (Vec.mk 0 0) (Vec.mk 0 0)
                  0 0 0 0 0 0 0 None [] Direction.down)
          (heap w !! r).

Definition canvas_at (w : World) (r : ref) : Canvas.t :=
  default (Canvas.mk "" false (Rect.mk 0 0 0 0)) (Obj.canvas (object_at w r)).

Definition position_at (w : World) (r : ref) : Vec.t :=
  default (Vec.mk 0 0) (positions w !! Obj.position (object_at w r)).

(** ** Keys *)

(** The key bindings of a player, [this.keypress]: the key codes of the
    four directions.  The constructor of [Player] takes them from the
    descriptor, or binds W, A, S and D; the handlers below take them as an
    argument. *)
Module Keypress.
Record t := mk { up : nat; left : nat; down : nat; right : nat }.
End Keypress.

(** [{up: 87, left: 65, down: 83, right: 68}] *)
Definition wasd : Keypress.t := Keypress.mk 87 65 83 68.

(** [Player.handleKeyDown({ keyCode })]: the cases of the [switch] in the
    order of the source; each adds or subtracts a step and sets
    [this.direction]. *)
Definition Player_handleKeyDown (keypress : Keypress.t) (this : ref)
    (keyCode : nat) : M unit :=
  t ← deref this;
  let velocity := Obj.velocity t in
  if bool_decide (keyCode = Keypress.up keypress) then
    update_obj this
      (λ o, Obj.set_direction Direction.up
              (Obj.set_velocity
                 (Vec.set_y (Vec.y velocity - Obj.yVelocity t)%Q velocity) o))
  else if bool_decide (keyCode = Keypress.left keypress) then
    update_obj this
      (λ o, Obj.set_direction Direction.left
              (Obj.set_velocity
                 (Vec.set_x (Vec.x velocity - Obj.xVelocity t)%Q velocity) o))
  else if bool_decide (keyCode = Keypress.down keypress) then
    update_obj this
      (λ o, Obj.set_direction Direction.down
              (Obj.set_velocity
                 (Vec.set_y (Vec.y velocity + Obj.yVelocity t)%Q velocity) o))
  else if bool_decide (keyCode = Keypress.right keypress) then
    update_obj this
      (λ o, Obj.set_direction Direction.right
              (Obj.set_velocity
                 (Vec.set_x (Vec.x velocity + Obj.xVelocity t)%Q velocity) o))
  else mret tt.

(** [Player.handleKeyUp({ keyCode })] *)
Definition Player_handleKeyUp (keypress : Keypress.t) (this : ref)
    (keyCode : nat) : M unit :=
  t ← deref this;
  let velocity := Obj.velocity t in
  if bool_decide (keyCode = Keypress.up keypress) then
    update_obj this (Obj.set_velocity (Vec.set_y 0 velocity))
  else if bool_decide (keyCode = Keypress.left keypress) then
    update_obj this (Obj.set_velocity (Vec.set_x 0 velocity))
  else if bool_decide (keyCode = Keypress.down keypress) then
    update_obj this (Obj.set_velocity (Vec.set_y 0 velocity))
  else if bool_decide (keyCode = Keypress.right keypress) then
    update_obj this (Obj.set_velocity (Vec.set_x 0 velocity))
  else mret tt.

(** [Npc.handleKeyDown({ key })] *)
Definition Npc_handleKeyDown (this : ref) (key : string) : M unit :=
  if bool_decide (key = "e") || bool_decide (key = "u")
  then handleKeyInteract this
  else mret tt.

(** The listener [addExitKeyListener] installs. *)
Definition exitKeyListener (key : string) : M unit :=
  if bool_decide (key = "Escape") then set_continueLevel false else mret tt.

(** ** Prompt.handleSubmit *)

(** The answers are read from the inputs and logged; they go nowhere
    else. *)
Definition handleSubmit : M unit :=
  alert (Some "Your answers have been submitted!");;
  set_isOpen false;;
  backgroundDim_remove.

(** ** Resizing *)

(** What [GameEnv.create] reads from the page: the size of the window and
    the [offsetHeight] of the header and of the footer, when the page has
    them.  The page has the game canvas. *)
Module Window.
Record t := mk {
    innerWidth : Q;
    innerHeight : Q;
    header : option Q;
    footer : option Q
  }.
End Window.

(** [GameEnv.create()]: [setTop], [setBottom], then the two dimensions;
    [setCanvas] and [size] concern the game canvas only. *)
Definition GameEnv_create (window : Window.t) : M unit :=
  let top := default 0%Q (Window.header window) in
  let bottom := default 0%Q (Window.footer window) in
  modify (λ w,
    set_env (GameEnv.mk (gameObjects w)
                        (GameEnv.continueLevel (env w))
                        (Window.innerWidth window)
                        (Window.innerHeight window - top - bottom)%Q
                        top
                        (GameEnv.timerActive (env w))) w).

(** [GameEnv.resize()] *)
Definition GameEnv_resize (window : Window.t) : M unit := GameEnv_create window.

(** Modelled from the spec: the background is among the variants of the
    entity interface, and its [resize()] changes nothing the other
    operations read. *)
Definition Background_resize (this : ref) : M unit := mret tt.

(** [this.resize()] *)
Definition resize (this : ref) : M unit :=
  t ← deref this;
  match Obj.class t with
  | Background => Background_resize this
  | Character | Player | Npc => Character_resize this
  end.

(** [GameControl.resize()], the listener of the window's [resize] event. *)
Definition GameControl_resize (window : Window.t) : M unit :=
  GameEnv_resize window;;
  objs ← gets (λ w, gameObjects w);
  forOf objs resize.

(** ** Notions of the further statements *)

(** A collision seen from the other object. *)
Definition mirror (cd : CollisionData.t) : CollisionData.t :=
  CollisionData.mk (CollisionData.hit cd)
    (TouchPoints.mk (TouchPoints.other (CollisionData.touchPoints cd))
                    (TouchPoints.this (CollisionData.touchPoints cd))).

(** Equality of two [{x, y}] objects as numbers. *)
Definition Vec_eq (a b : Vec.t) : Prop :=
  (Vec.x a == Vec.x b)%Q ∧ (Vec.y a == Vec.y b)%Q.

Definition Vec_add (a b : Vec.t) : Vec.t :=
  Vec.mk (Vec.x a + Vec.x b)%Q (Vec.y a + Vec.y b)%Q.

(** The sum of a list of [{x, y}] objects. *)
Definition Vec_sum (l : list Vec.t) : Vec.t := foldr Vec_add (Vec.mk 0 0) l.

(** What one [keydown] event adds to the velocity of a player whose steps
    are [xVelocity] and [yVelocity]. *)
Definition key_step (keypress : Keypress.t) (xVelocity yVelocity : Q)
    (keyCode : nat) : Vec.t :=
  if bool_decide (keyCode = Keypress.up keypress) then Vec.mk 0 (- yVelocity)
  else if bool_decide (keyCode = Keypress.left keypress) then Vec.mk (- xVelocity) 0
  else if bool_decide (keyCode = Keypress.down keypress) then Vec.mk 0 yVelocity
  else if bool_decide (keyCode = Keypress.right keypress) then Vec.mk xVelocity 0
  else Vec.mk 0 0.

(** The direction a key turns the player to. *)
Definition key_direction (keypress : Keypress.t) (keyCode : nat)
    : option Direction.t :=
  if bool_decide (keyCode = Keypress.up keypress) then Some Direction.up
  else if bool_decide (keyCode = Keypress.left keypress) then Some Direction.left
  else if bool_decide (keyCode = Keypress.down keypress) then Some Direction.down
  else if bool_decide (keyCode = Keypress.right keypress) then Some Direction.right
  else None.

(** The direction of a player that faced [direction] before the
    [keydown] events [keyCodes]: that of the last key that is bound. *)
Definition facing (keypress : Keypress.t) (direction : Direction.t)
    (keyCodes : list nat) : Direction.t :=
  foldl (λ d keyCode, default d (key_direction keypress keyCode))
        direction keyCodes.

(** The axis a key moves the player along. *)
Inductive Axis := Horizontal | Vertical.

Definition key_axis (keypress : Keypress.t) (keyCode : nat) : option Axis :=
  if bool_decide (keyCode = Keypress.up keypress) then Some Vertical
  else if bool_decide (keyCode = Keypress.left keypress) then Some Horizontal
  else if bool_decide (keyCode = Keypress.down keypress) then Some Vertical
  else if bool_decide (keyCode = Keypress.right keypress) then Some Horizontal
  else None.

(** The [keydown] events [keyCodes], one after the other. *)
Definition keysDown (keypress : Keypress.t) (this : ref) (keyCodes : list nat)
    : M unit :=
  forOf keyCodes (Player_handleKeyDown keypress this).

(** The velocity a list of touching sides lets through: a component
    towards a touched side is set to [0]. *)
Definition let_through (touching : list TouchPoint.t) (v : Vec.t) : Vec.t :=
  Vec.mk
    (if existsb TouchPoint.left touching && Qgtb (Vec.x v) 0
        || existsb TouchPoint.right touching && Qltb (Vec.x v) 0
     then 0%Q else Vec.x v)
    (if existsb TouchPoint.top touching && Qgtb (Vec.y v) 0
        || existsb TouchPoint.bottom touching && Qltb (Vec.y v) 0
     then 0%Q else Vec.y v).

(** The touch points of the object [t] with each of the partners [gs]. *)
Definition touchPointsOf (h : gmap ref Obj.t) (t : Obj.t) (gs : list ref)
    : list TouchPoint.t :=
  omap (λ g, (λ cd, TouchPoints.this (CollisionData.touchPoints cd))
               <$> collisionWith h t g) gs.

(** The object [this] once [draw()] has put its canvas at its position. *)
Definition drawn (w : World) (t : Obj.t) : Obj.t :=
  match Obj.canvas t, positions w !! Obj.position t with
  | Some canvas, Some p =>
      Obj.set_canvas
        (Some (Canvas.set_rect
                 (Rect.mk (Vec.x p) (GameEnv.top (env w) + Vec.y p)%Q
                          (Obj.width t) (Obj.height t)) canvas)) t
  | _, _ => t
  end.

(** The velocity [update] integrates: the velocity of [t] past the
    partners that hit the drawn object. *)
Definition passing (w : World) (this : ref) (t : Obj.t) : Vec.t :=
  let_through
    (touchPointsOf (heap w) (drawn w t)
       (hitsIn (heap w) this (drawn w t) (gameObjects w)))
    (Obj.velocity t).


Definition animationFrames (tr : list Event) : nat :=
  length (List.filter (λ e, bool_decide (e = EvRequestAnimationFrame)) tr).

(** The questions a table shows, top to bottom. *)
Definition questionsShown (node : PanelNode) : list string :=
  match node with
  | NodeTitle => []
  | NodeTable rows =>
      omap (λ row, match row with
                   | RowQuestion _ question _ => Some question
                   | _ => None
                   end) rows
  end.

(** The table of the questions of an NPC. *)
Definition tableOf (questions : list string) : PanelNode :=
  NodeTable (createPromptDisplayTable ++ questionRows questions ++ [RowSubmit]).

(** The registry objects that recorded a collision with the object whose
    sprite data is [sprite]: the [players] of [handleKeyInteract]. *)
Definition touchedBy (w : World) (sprite : SpriteData.t) : list ref :=
  List.filter
    (λ g, match heap w !! g, SpriteData.id sprite with
          | Some o, Some id => includes id (Obj.collisionEvents o)
          | _, _ => false
          end)
    (gameObjects w).

(** ** What a running game keeps *)

(** Two states of one object: the class, the sprite data and the position
    object are the same, and the canvas hangs in the document in both or
    in neither. *)
Definition same_kind (o o' : Obj.t) : Prop :=
  Obj.class o' = Obj.class o ∧
  Obj.spriteData o' = Obj.spriteData o ∧
  Obj.position o' = Obj.position o ∧
  (Canvas.parentNode <$> Obj.canvas o') = (Canvas.parentNode <$> Obj.canvas o).

(** From [w] to [w']: the registry and the allocator are the same, no
    position object is lost, and every object stays of the same kind. *)
Definition keeps (w w' : World) : Prop :=
  gameObjects w' = gameObjects w ∧
  next w' = next w ∧
  (∀ p, is_Some (positions w !! p) → is_Some (positions w' !! p)) ∧
  (∀ g o, heap w !! g = Some o →
          ∃ o', heap w' !! g = Some o' ∧ same_kind o o').

(** A computation that ends, normally or by an exception, in a world
    that keeps the starting one. *)
Definition keeping {A} (m : M A) : Prop :=
  ∀ w, match m w with
       | Ok _ w' => keeps w w'
       | Throw _ w' => keeps w w'
       | Diverge => False
       end.

(** From [w] to [w']: only the objects, their positions and the trace
    have changed, and the trace gained neither a requested frame nor a
    destroyed object. *)
Definition quiet (w w' : World) : Prop :=
  env w' = env w ∧ control w' = control w ∧ prompt w' = prompt w ∧
  document w' = document w ∧ next w' = next w ∧
  randomCalls w' = randomCalls w ∧
  animationFrames (trace w') = animationFrames (trace w) ∧
  destroyed (trace w') = destroyed (trace w).

Definition quietly {A} (m : M A) : Prop :=
  ∀ w, match m w with
       | Ok _ w' => quiet w w'
       | Throw _ w' => quiet w w'
       | Diverge => False
       end.


(** A computation that ends, normally or by an exception, in a world
    related to the starting one by [R]. *)
Definition framed (R : World → World → Prop) {A} (m : M A) : Prop :=
  ∀ w, match m w with
       | Ok _ w' => R w w'
       | Throw _ w' => R w w'
       | Diverge => False
       end.

(** The state of the registry the methods rely on: it is well formed,
    every entry is in the store, every entry but a background can be
    drawn and tested, and the module constant [INIT_POSITION] exists. *)
Definition consistent (w : World) : Prop :=
  registry_wf w ∧
  registry_ready w = true ∧
  Forall (λ g, Obj.class (object_at w g) ≠ Background → ready w g = true)
         (gameObjects w) ∧
  is_Some (positions w !! INIT_POSITION).

(** Every registry object but a background can be drawn. *)
Definition all_drawable (w : World) : Prop :=
  ∀ g, g ∈ gameObjects w →
       Obj.class (object_at w g) ≠ Background →
       drawable (object_at w g) = true.

(** The object at [g] is a background or can be drawn: its [update()]
    does not throw in [draw()]. *)
Definition can_update (w : World) (g : ref) : bool :=
  match Obj.class (object_at w g) with
  | Background => true
  | _ => drawable (object_at w g)
  end.

(** Two states of one object with the same class, sprite data and
    direction. *)
Definition same_look (o o' : Obj.t) : Prop :=
  Obj.class o' = Obj.class o ∧
  Obj.spriteData o' = Obj.spriteData o ∧
  Obj.direction o' = Obj.direction o.

(** From [w] to [w']: the store gained no object and no object has
    turned or changed its sprite data. *)
Definition unturned (w w' : World) : Prop :=
  ∀ g, match heap w !! g with
       | Some o => ∃ o', heap w' !! g = Some o' ∧ same_look o o'
       | None => heap w' !! g = None
       end.

(** The object [o] has the size and the steps of the game area of [w]. *)
Definition sized (w : World) (o : Obj.t) : Prop :=
  let innerWidth := GameEnv.innerWidth (env w) in
  let innerHeight := GameEnv.innerHeight (env w) in
  Obj.scale o = Vec.mk innerWidth innerHeight ∧
  Obj.size o = (innerHeight / Obj.scaleFactor o)%Q ∧
  Obj.width o = Obj.size o ∧
  Obj.height o = Obj.size o ∧
  Obj.xVelocity o = (innerWidth / Obj.stepFactor o)%Q ∧
  Obj.yVelocity o = (innerHeight / Obj.stepFactor o)%Q.

(** Every registry object but a background has the size and the steps
    of the current game area. *)
Definition all_sized (w : World) : Prop :=
  ∀ g, g ∈ gameObjects w →
       Obj.class (object_at w g) ≠ Background → sized w (object_at w g).

(** Two states of one object with the same class, scale, factors, size
    and steps. *)
Definition same_size (o o' : Obj.t) : Prop :=
  Obj.class o' = Obj.class o ∧
  Obj.scale o' = Obj.scale o ∧
  Obj.scaleFactor o' = Obj.scaleFactor o ∧
  Obj.stepFactor o' = Obj.stepFactor o ∧
  Obj.size o' = Obj.size o ∧
  Obj.width o' = Obj.width o ∧
  Obj.height o' = Obj.height o ∧
  Obj.xVelocity o' = Obj.xVelocity o ∧
  Obj.yVelocity o' = Obj.yVelocity o.

(** From [w] to [w']: the game area is the same, the registry gained no
    entry, the store gained no object and every object kept its size. *)
Definition settled (w w' : World) : Prop :=
  GameEnv.innerWidth (env w') = GameEnv.innerWidth (env w) ∧
  GameEnv.innerHeight (env w') = GameEnv.innerHeight (env w) ∧
  (∀ g, g ∈ gameObjects w' → g ∈ gameObjects w) ∧
  (∀ g, match heap w !! g with
        | Some o => ∃ o', heap w' !! g = Some o' ∧ same_size o o'
        | None => heap w' !! g = None
        end).

(** The registry is consistent and its objects are sized. *)
Definition sound (w : World) : Prop := consistent w ∧ all_sized w.

(** The classes of the registry entries, in registry order. *)
Definition classesOf (w : World) : list Class :=
  (λ g, Obj.class (object_at w g)) <$> gameObjects w.

(** ** What a constructor builds *)

(** The address of the position object of a character built from [d] in
    [w], and the address of the character itself. *)
Definition built_position (d : SpriteData.t) (w : World) : ref :=
  match SpriteData.INIT_POSITION d with
  | Some _ => next w
  | None => INIT_POSITION
  end.

Definition built_ref (d : SpriteData.t) (w : World) : ref :=
  match SpriteData.INIT_POSITION d with
  | Some _ => S (next w)
  | None => next w
  end.

(** The character of class [cls] the constructor leaves in the store when
    it is given [d] in [w]. *)
Definition built (cls : Class) (d : SpriteData.t) (w : World) : Obj.t :=
  let innerWidth := GameEnv.innerWidth (env w) in
  let innerHeight := GameEnv.innerHeight (env w) in
  let scaleFactor := num_or (SpriteData.SCALE_FACTOR d) SCALE_FACTOR in
  let stepFactor := num_or (SpriteData.STEP_FACTOR d) STEP_FACTOR in
  let size := (innerHeight / scaleFactor)%Q in
  Obj.mk cls
    (Some (Canvas.mk (str_or (SpriteData.id d) "default") true
                     (Host.layout (host w))))
    (default Hitbox.empty (SpriteData.hitbox d))
    None [] Movement.all (Some d) (built_position d w)
    (Vec.mk 0 0) (Vec.mk innerWidth innerHeight)
    scaleFactor stepFactor size size size
    (innerWidth / stepFactor)%Q (innerHeight / stepFactor)%Q
    None [] Direction.down.

(** A descriptor a constructor accepts: a background takes any, the
    other classes need a source. *)
Definition accepted (cls : Class) (data : option SpriteData.t) : bool :=
  match cls, data with
  | Background, _ => true
  | _, Some d => truthy_str (SpriteData.src d)
  | _, None => false
  end.

(** ** Runs *)

(** The nominal case of [gameLoop]. *)
Definition nominalFrame : M unit :=
  objs ← gets (λ w, gameObjects w);
  forOf objs update;;
  handleLevelStart;;
  emit EvRequestAnimationFrame.

(** The constructor calls of [loadLevelObjects]. *)
Definition constructAll (objects : list LevelObject.t) : M unit :=
  forOf objects
    (λ object,
       let data := default SpriteData.empty (LevelObject.data object) in
       _ ← construct (LevelObject.class object) (Some data);
       mret tt).

(** Every entry of a level is one its constructor accepts. *)
Definition acceptedAll (objects : list LevelObject.t) : bool :=
  forallb (λ object,
             accepted (LevelObject.class object)
                      (Some (default SpriteData.empty (LevelObject.data object))))
          objects.

(** A descriptor with what [draw()] reads of a new object, which faces
    down: the size and the grid of the sprite sheet and the row [down]. *)
Definition has_sheet (d : SpriteData.t) : bool :=
  bool_decide (is_Some (SpriteData.pixels d)) &&
  bool_decide (is_Some (SpriteData.orientation d)) &&
  bool_decide (is_Some (SpriteData.down d)).

(** Every entry of a level but a background has such a descriptor. *)
Definition sheetsAll (objects : list LevelObject.t) : bool :=
  forallb (λ object,
             match LevelObject.class object with
             | Background => true
             | _ => has_sheet (default SpriteData.empty (LevelObject.data object))
             end)
          objects.

(** [m], started in a world with [P], ends, normally or by an exception,
    in a world with [Q]. *)
Definition hoare (P : World → Prop) {A} (m : M A) (Q : World → Prop) : Prop :=
  ∀ w, P w → match m w with
             | Ok _ w' => Q w'
             | Throw _ w' => Q w'
             | Diverge => False
             end.

(** The events of the page the program listens to, each with the
    handler it runs to its end: an animation frame, a key going down or up
    for a player, a key going down for an NPC or for the exit listener, a
    resize of the window, a click on the submit button. *)
Inductive step : World → World → Prop :=
  | step_frame fuel w w' :
      final (gameLoop (S (S fuel)) w) = Some w' → step w w'
  | step_keydown keypress this keyCode w w' :
      final (Player_handleKeyDown keypress this keyCode w) = Some w' → step w w'
  | step_keyup keypress this keyCode w w' :
      final (Player_handleKeyUp keypress this keyCode w) = Some w' → step w w'
  | step_interact this key w w' :
      final (Npc_handleKeyDown this key w) = Some w' → step w w'
  | step_exit key w w' :
      final (exitKeyListener key w) = Some w' → step w w'
  | step_resize window w w' :
      final (GameControl_resize window w) = Some w' → step w w'
  | step_submit w w' :
      final (handleSubmit w) = Some w' → step w w'.

(** The modules are loaded: no object is registered, and the constant
    [INIT_POSITION] exists. *)
Definition loaded (w : World) : Prop :=
  gameObjects w = [] ∧ is_Some (positions w !! INIT_POSITION).

(** The worlds of a run: [GameControl.start] loads the first level, then
    the events follow one another. *)
Inductive run : World → Prop :=
  | run_start fuel w0 w :
      loaded w0 → final (loadLevel (gameLoop (S fuel)) w0) = Some w → run w
  | run_step w w' : run w → step w w' → run w'.

(** ** Sample worlds *)

(** The desert level with the panel open on Tux's quiz. *)
Definition asked : World := world_of landscape (openPromptPanel tux landscape).



(** The desert level after the keys D and S: the player moves right and
    down, from the bottom left corner of the game area. *)
Definition moving : World :=
  world_of landscape (keysDown wasd chillguy [68; 83]%nat landscape).

(** The player between the two stationary objects, after the keys D
    and S: it moves right and down, towards both. *)
Definition hemmed : World :=
  world_of crowded (keysDown wasd crowded_P [68; 83]%nat crowded).

(** The same player with the stationary object [A] only, across its
    lower left corner; one frame has run, then the keys D and S. *)
Definition cornered : World :=
  world_of (created 1000 800)
    ((_ ← construct Player (Some (sprite_at "P" 100 100 5));
      _ ← construct Npc (Some (sprite_at "A" 50 200 8));
      gameLoop 1;;
      keysDown wasd crowded_P [68; 83]%nat) (created 1000 800)).

(** A descriptor with an id and a source and nothing else. *)
Definition plain_sprite (id : string) : SpriteData.t :=
  SpriteData.mk (Some id) None (Some (id +:+ ".png"))
                None None None None None None None None None None None None.

(** A player built from such a descriptor: the constructor accepts it,
    [draw()] finds no sprite sheet size. *)
Definition bare : World :=
  world_of (created 1000 800)
    (construct Player (Some (plain_sprite "a")) (created 1000 800)).

Definition bare_player : ref := 1%nat.

(** * Properties *)

(** ** Comparisons and defaults *)

Lemma Qltb_lt (a b : Q) : Qltb a b = true ↔ (a < b)%Q.
Proof.
  unfold Qltb. rewrite Qlt_alt.
  destruct (a ?= b)%Q; split; congruence.
Qed.

Lemma Qltb_ge (a b : Q) : Qltb a b = false ↔ (b <= a)%Q.
Proof.
  rewrite <- not_true_iff_false, Qltb_lt. split.
  - apply Qnot_lt_le.
  - apply Qle_not_lt.
Qed.

Lemma Qgtb_gt (a b : Q) : Qgtb a b = true ↔ (b < a)%Q.
Proof. apply Qltb_lt. Qed.

Lemma Qgtb_le (a b : Q) : Qgtb a b = false ↔ (a <= b)%Q.
Proof. apply Qltb_ge. Qed.

Lemma num_or_zero (v : option Q) : (num_or v 0 == default 0 v)%Q.
Proof.
  destruct v as [q|]; simpl; [|reflexivity].
  destruct (Qeq_bool q 0) eqn:E; [|reflexivity].
  apply Qeq_bool_eq in E. symmetry. exact E.
Qed.

Lemma num_or_nonzero (v : option Q) (d : Q) :
  ¬ (d == 0)%Q → ¬ (num_or v d == 0)%Q.
Proof.
  intros Hd. destruct v as [q|]; simpl; [|exact Hd].
  destruct (Qeq_bool q 0) eqn:E; [exact Hd|].
  intros Hq. apply Qeq_eq_bool in Hq. congruence.
Qed.

(** ** Running the primitives *)

(** Symbolic execution of a computation: unfold the combinators and use
    the lookups and tests the context decides. *)
Ltac munfold :=
  unfold emit, alert, modify, deref, deref_pos, store_pos, update_obj,
    require, throw, gets, mbind, M_bind, mret, M_ret.

Ltac mstep :=
  first
    [ progress munfold
    | progress cbn -[lookup insert delete Qltb Qgtb num_or str_or]
    | match goal with
      | H : ?l = Some _ |- context [?l] => rewrite H
      | H : ?l = None |- context [?l] => rewrite H
      | H : ?l = true |- context [?l] => rewrite H
      | H : ?l = false |- context [?l] => rewrite H
      end ].

Ltac mrun := repeat mstep.

Lemma bind_Ok {A B} (m : M A) (f : A → M B) w a w' :
  m w = Ok a w' → (m ≫= f) w = f a w'.
Proof. intros H. unfold mbind, M_bind. rewrite H. reflexivity. Qed.

Lemma bind_Throw {A B} (m : M A) (f : A → M B) w e w' :
  m w = Throw e w' → (m ≫= f) w = Throw e w'.
Proof. intros H. unfold mbind, M_bind. rewrite H. reflexivity. Qed.

Lemma deref_Ok w r o : heap w !! r = Some o → deref r w = Ok o w.
Proof.
  intros H. unfold deref, gets, mbind, M_bind. rewrite H. reflexivity.
Qed.

Lemma update_obj_Ok w r o f :
  heap w !! r = Some o →
  update_obj r f w = Ok tt (set_heap (<[r := f o]> (heap w)) w).
Proof.
  intros H. unfold update_obj. rewrite (bind_Ok _ _ _ _ _ (deref_Ok _ _ _ H)).
  reflexivity.
Qed.

Lemma deref_pos_Ok w p v : positions w !! p = Some v → deref_pos p w = Ok v w.
Proof.
  intros H. unfold deref_pos, gets, mbind, M_bind. rewrite H. reflexivity.
Qed.

(** ** The collision detector *)

Lemma collide_hit_iff thisRect otherRect thisHitbox otherHitbox
    thisId otherId thisGreet otherGreet :
  CollisionData.hit
    (collide thisRect otherRect thisHitbox otherHitbox
             thisId otherId thisGreet otherGreet) = true
  ↔ overlap (inset thisRect (insetW thisHitbox) (insetH thisHitbox))
            (inset otherRect (insetW otherHitbox) (insetH otherHitbox)).
Proof.
  unfold collide, overlap, inset, insetW, insetH. cbn [CollisionData.hit Edges.left Edges.right Edges.top Edges.bottom].
  rewrite !andb_true_iff, !Qgtb_gt, !Qltb_lt.
  rewrite !num_or_zero. tauto.
Qed.

Lemma isCollision_Ok w this other t o thisCanvas otherCanvas thisSprite otherSprite :
  heap w !! this = Some t →
  heap w !! other = Some o →
  Obj.canvas t = Some thisCanvas →
  Obj.canvas o = Some otherCanvas →
  Obj.spriteData t = Some thisSprite →
  Obj.spriteData o = Some otherSprite →
  isCollision this other w =
    Ok tt (with_this this
             (Obj.set_collisionData
                (Some (collideObjs t o thisCanvas otherCanvas thisSprite otherSprite)) t)
             [EvIsCollision this other] w).
Proof.
  intros Ht Ho Htc Hoc Hts Hos.
  unfold isCollision. mrun. reflexivity.
Qed.

(** C2.  [isCollision] stores [hit = true] exactly when the two inset
    rectangles overlap, all four comparisons being strict; rectangles
    whose edges only touch do not hit; with no inset the rectangles
    [[0,0,50,50]] and [[40,40,90,90]] hit. *)
Theorem isCollision_hit_iff_overlap :
  (∀ w this other t o thisCanvas otherCanvas,
     heap w !! this = Some t →
     heap w !! other = Some o →
     Obj.canvas t = Some thisCanvas →
     Obj.canvas o = Some otherCanvas →
     is_Some (Obj.spriteData t) →
     is_Some (Obj.spriteData o) →
     ∃ w' t' cd,
       isCollision this other w = Ok tt w' ∧
       heap w' !! this = Some t' ∧
       Obj.collisionData t' = Some cd ∧
       (CollisionData.hit cd = true ↔
        overlap (inset (Canvas.rect thisCanvas)
                       (insetW (Obj.hitbox t)) (insetH (Obj.hitbox t)))
                (inset (Canvas.rect otherCanvas)
                       (insetW (Obj.hitbox o)) (insetH (Obj.hitbox o))))) ∧
  (∀ thisId otherId thisGreet otherGreet,
     CollisionData.hit
       (collide (rect_of_edges 0 0 50 50) (rect_of_edges 40 40 90 90)
                Hitbox.empty Hitbox.empty
                thisId otherId thisGreet otherGreet) = true) ∧
  (∀ thisId otherId thisGreet otherGreet,
     CollisionData.hit
       (collide (rect_of_edges 0 0 50 50) (rect_of_edges 50 0 100 50)
                Hitbox.empty Hitbox.empty
                thisId otherId thisGreet otherGreet) = false).
Proof.
  split; [|split; reflexivity].
  intros w this other t o tc oc Ht Ho Htc Hoc [ts Hts] [os Hos].
  eexists _, _, _. split; [|split; [|split]].
  - eapply isCollision_Ok; eassumption.
  - unfold with_this. cbn. apply lookup_insert_eq.
  - reflexivity.
  - apply collide_hit_iff.
Qed.

(** ** Resizing *)

(** C5.  After [resize()] in a viewport [W' x H'], for an object scaled
    to [W x H] before: the size, the width and the height are
    [H' / scaleFactor], the position is [(x * W' / W, y * H' / H)], the
    steps are [W' / stepFactor] and [H' / stepFactor].  In a viewport of
    height 800 a scale factor 5 gives the size 160 and a step factor 1000
    gives the vertical step 0.8. *)
Theorem Character_resize_spec w this t p :
  heap w !! this = Some t →
  positions w !! Obj.position t = Some p →
  ¬ (Vec.x (Obj.scale t) == 0)%Q →
  ¬ (Vec.y (Obj.scale t) == 0)%Q →
  ¬ (Obj.scaleFactor t == 0)%Q →
  ¬ (Obj.stepFactor t == 0)%Q →
  ∃ w' t' p',
    Character_resize this w = Ok tt w' ∧
    heap w' !! this = Some t' ∧
    positions w' !! Obj.position t' = Some p' ∧
    (Obj.size t' == GameEnv.innerHeight (env w) / Obj.scaleFactor t)%Q ∧
    Obj.width t' = Obj.size t' ∧
    Obj.height t' = Obj.size t' ∧
    (Vec.x p' ==
       Vec.x p * GameEnv.innerWidth (env w) / Vec.x (Obj.scale t))%Q ∧
    (Vec.y p' ==
       Vec.y p * GameEnv.innerHeight (env w) / Vec.y (Obj.scale t))%Q ∧
    (Obj.xVelocity t' == GameEnv.innerWidth (env w) / Obj.stepFactor t)%Q ∧
    (Obj.yVelocity t' == GameEnv.innerHeight (env w) / Obj.stepFactor t)%Q ∧
    ((GameEnv.innerHeight (env w) == 800)%Q → (Obj.scaleFactor t == 5)%Q →
     (Obj.size t' == 160)%Q) ∧
    ((GameEnv.innerHeight (env w) == 800)%Q → (Obj.stepFactor t == 1000)%Q →
     (Obj.yVelocity t' == 0.8)%Q).
Proof.
  intros Ht Hp _ _ _ _.
  eexists _, _, _. split; [|split; [|split]].
  - unfold Character_resize. mrun. reflexivity.
  - cbn. apply lookup_insert_eq.
  - cbn. apply lookup_insert_eq.
  - cbn. repeat split; try reflexivity.
    + unfold Qdiv. ring.
    + unfold Qdiv. ring.
    + intros -> ->. reflexivity.
    + intros -> ->. reflexivity.
Qed.

(** ** Construction *)

(** C7.  Building a [Character], a [Player] or an [Npc] from an absent
    descriptor, or from one without a sprite source, ends by an exception
    and leaves the registry as it was. *)
Theorem constructor_requires_sprite cls data w :
  cls ≠ Background →
  (data = None ∨
   ∃ d, data = Some d ∧ truthy_str (SpriteData.src d) = false) →
  ∃ e w', construct cls data w = Throw e w' ∧ gameObjects w' = gameObjects w.
Proof.
  intros Hcls Hdata.
  assert (∃ e, Character_constructor cls data w = Throw e w) as [e He].
  { unfold Character_constructor.
    destruct Hdata as [-> | (d & -> & Hsrc)].
    - eexists. reflexivity.
    - mrun. destruct (Document.gameContainer (document w));
        mrun; eexists; reflexivity. }
  destruct cls; [congruence| | |]; cbn [construct].
  - eauto.
  - unfold Player_constructor. eauto.
  - unfold Npc_constructor. rewrite (bind_Throw _ _ _ _ _ He). eauto.
Qed.

(** ** Destruction *)

Lemma indexOf_None x l : indexOf x l = None ↔ x ∉ l.
Proof.
  induction l as [|y l IH]; cbn.
  - split; [intros _; apply not_elem_of_nil | done].
  - rewrite not_elem_of_cons. case_bool_decide as E.
    + split; [done | intros [? _]; done].
    + destruct (indexOf x l); cbn.
      * split; [done | intros [_ H]; apply IH in H; done].
      * split; [intros _; split; [done | by apply IH] | done].
Qed.

Lemma indexOf_Some x l i : indexOf x l = Some i → l !! i = Some x.
Proof.
  revert i. induction l as [|y l IH]; intros i; cbn; [done|].
  case_bool_decide as E.
  - intros [= <-]. by subst.
  - destruct (indexOf x l) as [j|]; cbn; [|done].
    intros [= <-]. cbn. by apply IH.
Qed.

Lemma indexOf_delete x l i :
  NoDup l → indexOf x l = Some i → indexOf x (delete i l) = None.
Proof.
  revert i. induction l as [|y l IH]; intros i Hnd; cbn; [done|].
  apply NoDup_cons in Hnd as [Hy Hnd].
  case_bool_decide as E.
  - intros [= <-]. cbn. subst. by apply indexOf_None.
  - destruct (indexOf x l) as [j|] eqn:Hj; cbn; [|done].
    intros [= <-]. simpl. rewrite bool_decide_eq_false_2 by done.
    by rewrite (IH j Hnd eq_refl).
Qed.


Lemma Character_destroy_absent w this :
  indexOf this (gameObjects w) = None → Character_destroy this w = Ok tt w.
Proof. intros H. unfold Character_destroy. mrun. reflexivity. Qed.

Lemma Background_destroy_absent w this :
  indexOf this (gameObjects w) = None → Background_destroy this w = Ok tt w.
Proof. intros H. unfold Background_destroy. mrun. reflexivity. Qed.

Lemma destroy_absent w this t :
  heap w !! this = Some t →
  indexOf this (gameObjects w) = None →
  destroy this w = Ok tt (set_trace (trace w ++ [EvDestroy this]) w).
Proof.
  intros Ht H. unfold destroy. mrun.
  destruct (Obj.class t).
  - by rewrite Background_destroy_absent.
  - by rewrite Character_destroy_absent.
  - by rewrite Character_destroy_absent.
  - by rewrite Character_destroy_absent.
Qed.

(** What a [destroy()] that returns has done. *)
Lemma destroy_Ok_inv w this w1 :
  destroy this w = Ok tt w1 →
  is_Some (heap w1 !! this) ∧
  (indexOf this (gameObjects w) = None ∧ gameObjects w1 = gameObjects w ∨
   ∃ i, indexOf this (gameObjects w) = Some i ∧
        gameObjects w1 = delete i (gameObjects w)).
Proof.
  unfold destroy. mrun.
  destruct (heap w !! this) as [t|] eqn:Ht; mrun; [|done].
  assert (Background_destroy this (set_trace (trace w ++ [EvDestroy this]) w)
            = Ok tt w1 → is_Some (heap w1 !! this) ∧
  (indexOf this (gameObjects w) = None ∧ gameObjects w1 = gameObjects w ∨
   ∃ i, indexOf this (gameObjects w) = Some i ∧
        gameObjects w1 = delete i (gameObjects w))) as HB.
  { unfold Background_destroy, set_gameObjects. mrun.
    destruct (indexOf this (gameObjects w)) as [i|] eqn:Hi; mrun;
      intros [= <-]; (split; [by eexists|]); [right|left]; eauto. }
  assert (Character_destroy this (set_trace (trace w ++ [EvDestroy this]) w)
            = Ok tt w1 → is_Some (heap w1 !! this) ∧
  (indexOf this (gameObjects w) = None ∧ gameObjects w1 = gameObjects w ∨
   ∃ i, indexOf this (gameObjects w) = Some i ∧
        gameObjects w1 = delete i (gameObjects w))) as HC.
  { unfold Character_destroy, set_gameObjects. mrun.
    destruct (indexOf this (gameObjects w)) as [i|] eqn:Hi; mrun.
    - destruct (Obj.canvas t) as [c|]; mrun; [|done].
      destruct (Canvas.parentNode c); mrun; [|done].
      intros [= <-]. cbn -[lookup insert delete]. rewrite lookup_insert_eq.
      split; [by eexists|]. right. eauto.
    - intros [= <-]. split; [by eexists|]. left. eauto. }
  destruct (Obj.class t); assumption.
Qed.

(** The constructors push each object once and [destroy()] only removes:
    a registry without duplicates stays without duplicates. *)
Lemma destroy_NoDup w this w1 :
  destroy this w = Ok tt w1 →
  NoDup (gameObjects w) → NoDup (gameObjects w1).
Proof.
  intros H Hnd. apply destroy_Ok_inv in H as [_ [[_ ->] | (i & _ & ->)]];
    [done|].
  apply (sublist_NoDup _ _ Hnd), sublist_delete.
Qed.

(** C9.  After a first [destroy()] that returned, a second [destroy()] on
    the same object returns as well and changes nothing: the world is the
    one the first call left, with the second call added to the trace. *)
Theorem destroy_twice w this w1 :
  NoDup (gameObjects w) →
  destroy this w = Ok tt w1 →
  destroy this w1 = Ok tt (set_trace (trace w1 ++ [EvDestroy this]) w1) ∧
  gameObjects (set_trace (trace w1 ++ [EvDestroy this]) w1) = gameObjects w1.
Proof.
  intros Hnd H1. split; [|reflexivity].
  apply destroy_Ok_inv in H1 as [[t1 Ht1] H1].
  apply (destroy_absent _ _ t1 Ht1).
  destruct H1 as [[Hi ->] | (i & Hi & ->)]; [done|].
  by apply indexOf_delete.
Qed.

(** ** The collision pass *)

Lemma with_this_id w this t : heap w !! this = Some t → with_this this t [] w = w.
Proof.
  intros H. unfold with_this, set_heap, set_trace. cbn -[lookup insert].
  rewrite insert_id by done. rewrite app_nil_r. by destruct w.
Qed.

Lemma with_this_twice w this t1 e1 t2 e2 :
  with_this this t2 e2 (with_this this t1 e1 w) = with_this this t2 (e1 ++ e2) w.
Proof.
  unfold with_this, set_heap, set_trace. cbn -[lookup insert].
  by rewrite insert_insert_eq, app_assoc.
Qed.

Lemma lookup_with_this w this t evs :
  heap (with_this this t evs w) !! this = Some t.
Proof. cbn -[lookup insert]. apply lookup_insert_eq. Qed.

Lemma lookup_with_this_ne w this t evs g :
  this ≠ g → heap (with_this this t evs w) !! g = heap w !! g.
Proof. intros H. cbn -[lookup insert]. by apply lookup_insert_ne. Qed.

Lemma update_obj_with_this w this t evs f :
  update_obj this f (with_this this t evs w) = Ok tt (with_this this (f t) evs w).
Proof.
  rewrite (update_obj_Ok _ _ t) by apply lookup_with_this.
  f_equal. unfold with_this, set_heap, set_trace. cbn -[lookup insert].
  by rewrite insert_insert_eq.
Qed.

Lemma emit_with_this w this t evs e :
  emit e (with_this this t evs w) = Ok tt (with_this this t (evs ++ [e]) w).
Proof.
  unfold emit, modify, with_this, set_heap, set_trace. cbn -[lookup insert].
  by rewrite app_assoc.
Qed.

Lemma handleCollisionState_with_this w this t evs cd :
  Obj.collisionData t = Some cd →
  handleCollisionState this (with_this this t evs w) =
    Ok tt (with_this this
             (if bool_decide (0 < length (Obj.collisionEvents t))%nat
              then handleCollisionState_on
                     (TouchPoints.this (CollisionData.touchPoints cd)) t
              else t) evs w).
Proof.
  intros Hcd. unfold handleCollisionState.
  rewrite (bind_Ok _ _ _ _ _ (deref_Ok _ _ _ (lookup_with_this _ _ _ _))).
  case_bool_decide; [|reflexivity].
  rewrite Hcd. cbn [require].
  unfold mbind at 1, M_bind at 1, mret, M_ret.
  apply update_obj_with_this.
Qed.

Lemma handleCollisionEvent_with_this w this t evs cd :
  Obj.collisionData t = Some cd →
  handleCollisionEvent this (with_this this t evs w) =
    Ok tt (with_this this (onHit cd t).1 (evs ++ (onHit cd t).2) w).
Proof.
  intros Hcd. unfold handleCollisionEvent, onHit.
  rewrite (bind_Ok _ _ _ _ _ (deref_Ok _ _ _ (lookup_with_this _ _ _ _))).
  rewrite Hcd. cbn [require].
  unfold mbind at 1, M_bind at 1, mret at 1, M_ret at 1.
  destruct (includes _ _) eqn:Hin; cbn [negb fst snd].
  - unfold mbind at 1, M_bind at 1, mret at 1, M_ret at 1.
    rewrite (handleCollisionState_with_this _ _ _ _ cd Hcd).
    by rewrite app_nil_r.
  - unfold handleCollisionReaction, alert.
    erewrite bind_Ok; [|erewrite bind_Ok; [apply emit_with_this
                                          |apply update_obj_with_this]].
    by rewrite (handleCollisionState_with_this _ _ _ _ cd).
Qed.

Lemma collisionChecks_body_partner w this g t o evs d cd :
  this ≠ g →
  heap w !! g = Some o →
  has_canvas o = true →
  collision t o = Some cd →
  collisionChecks_body this d g (with_this this t evs w) =
    Ok (visit cd t d).1.2
       (with_this this (visit cd t d).1.1
          (evs ++ EvIsCollision this g :: (visit cd t d).2) w).
Proof.
  intros Hne Ho Hcanvas Hcd. unfold collisionChecks_body.
  erewrite bind_Ok;
    [|apply deref_Ok; rewrite lookup_with_this_ne by done; exact Ho].
  rewrite Hcanvas, bool_decide_eq_false_2 by done. cbn [negb andb].
  unfold collision in Hcd.
  destruct (Obj.canvas t) as [tc|] eqn:Htc; [|done].
  destruct (Obj.canvas o) as [oc|] eqn:Hoc; [|done].
  destruct (Obj.spriteData t) as [ts|] eqn:Hts; [|done].
  destruct (Obj.spriteData o) as [os|] eqn:Hos; [|done].
  injection Hcd as <-.
  erewrite bind_Ok;
    [|apply (isCollision_Ok _ this g t o tc oc ts os); try assumption;
      [apply lookup_with_this | rewrite lookup_with_this_ne by done; exact Ho]].
  rewrite with_this_twice.
  erewrite bind_Ok; [|apply deref_Ok, lookup_with_this].
  unfold visit, hit_of. cbn [Obj.collisionData Obj.set_collisionData].
  destruct (CollisionData.hit _) eqn:Hhit.
  - erewrite bind_Ok; [|by apply handleCollisionEvent_with_this].
    destruct (onHit _ _) as [t2 evs2]. cbn [fst snd].
    unfold mret, M_ret. by rewrite <- app_assoc.
  - reflexivity.
Qed.

Lemma collisionChecks_body_skip w this g t evs d :
  (is_partner (heap w) this g = false) →
  (this ≠ g → is_Some (heap w !! g)) →
  collisionChecks_body this d g (with_this this t evs w) =
    Ok d (with_this this t evs w).
Proof.
  intros Hp Hin. unfold collisionChecks_body, is_partner in *.
  destruct (decide (this = g)) as [<- | Hne].
  - erewrite bind_Ok; [|apply deref_Ok, lookup_with_this].
    rewrite bool_decide_eq_true_2 by done.
    by rewrite andb_false_r.
  - destruct (Hin Hne) as [o Ho].
    erewrite bind_Ok;
      [|apply deref_Ok; rewrite lookup_with_this_ne by done; exact Ho].
    rewrite bool_decide_eq_false_2 in * by done.
    rewrite Ho in Hp. cbn in Hp. by rewrite Hp.
Qed.

Lemma collisionChecks_loop w this objs : ∀ t d evs t' d' evs',
  Forall (λ g, is_Some (heap w !! g)) objs →
  scan (heap w) this objs t d = Some (t', d', evs') →
  forOfAcc objs (collisionChecks_body this) d (with_this this t evs w) =
    Ok d' (with_this this t' (evs ++ evs') w).
Proof.
  induction objs as [|g objs IH]; intros t d evs t' d' evs' Hin Hscan.
  - cbn in Hscan. injection Hscan as <- <- <-. cbn. by rewrite app_nil_r.
  - apply Forall_cons in Hin as [Hg Hin]. cbn [scan] in Hscan. cbn [forOfAcc].
    destruct (is_partner (heap w) this g) eqn:Hp.
    + destruct (collisionWith (heap w) t g) as [cd|] eqn:Hcd; [|done].
      unfold is_partner in Hp. apply andb_true_iff in Hp as [Hne Hc].
      apply negb_true_iff, bool_decide_eq_false in Hne.
      unfold collisionWith in Hcd.
      destruct (heap w !! g) as [o|] eqn:Ho; [|done].
      erewrite bind_Ok; [|by eapply collisionChecks_body_partner].
      destruct (visit cd t d) as [[t1 d1] evs1]. cbn [fst snd].
      destruct (scan (heap w) this objs t1 d1) as [[[t2 d2] evs2]|] eqn:Hs;
        [|done].
      injection Hscan as <- <- <-.
      rewrite (IH _ _ _ _ _ _ Hin Hs). by rewrite <- app_assoc.
    + erewrite bind_Ok; [|by apply collisionChecks_body_skip].
      by apply IH.
Qed.

(** [collisionChecks] is the scan of the registry, followed by the reset
    of the collision events when nothing was hit. *)
Lemma collisionChecks_Ok w this t t' d evs :
  heap w !! this = Some t →
  Forall (λ g, is_Some (heap w !! g)) (gameObjects w) →
  scan (heap w) this (gameObjects w) t false = Some (t', d, evs) →
  collisionChecks this w =
    Ok tt (with_this this
             (if d then t' else Obj.set_collisionEvents [] t') evs w).
Proof.
  intros Ht Hin Hscan. unfold collisionChecks.
  unfold mbind at 1, M_bind at 1, gets at 1.
  rewrite <- (with_this_id w this t Ht) at 2.
  erewrite bind_Ok; [|by eapply collisionChecks_loop].
  cbn [app]. destruct d; cbn [negb]; [reflexivity|].
  apply update_obj_with_this.
Qed.

(** ** What the collision pass leaves in the object *)

Lemma shape_set_collisionData v t : shape (Obj.set_collisionData v t) = shape t.
Proof. reflexivity. Qed.

Lemma shape_set_collisionEvents v t : shape (Obj.set_collisionEvents v t) = shape t.
Proof. reflexivity. Qed.

Lemma shape_set_movement v t : shape (Obj.set_movement v t) = shape t.
Proof. reflexivity. Qed.

Lemma shape_set_velocity v t : shape (Obj.set_velocity v t) = shape t.
Proof. reflexivity. Qed.

Lemma shape_fields t t' :
  shape t' = shape t →
  Obj.class t' = Obj.class t ∧ Obj.canvas t' = Obj.canvas t ∧
  Obj.hitbox t' = Obj.hitbox t ∧ Obj.spriteData t' = Obj.spriteData t ∧
  Obj.position t' = Obj.position t ∧ Obj.width t' = Obj.width t ∧
  Obj.height t' = Obj.height t.
Proof.
  intros H. destruct t, t'. cbn in H. injection H as -> -> -> -> -> -> ->.
  subst. done.
Qed.

Lemma handleCollisionState_on_spec tp t :
  shape (handleCollisionState_on tp t) = shape t ∧
  Obj.collisionData (handleCollisionState_on tp t) = Obj.collisionData t ∧
  Obj.collisionEvents (handleCollisionState_on tp t) = Obj.collisionEvents t ∧
  Obj.movement (handleCollisionState_on tp t) = flags_of tp.
Proof.
  unfold handleCollisionState_on, flags_of.
  destruct tp as [id greet [] [] [] []]; cbn -[Qltb Qgtb];
    repeat match goal with
           | |- context [if ?b then _ else _] => destruct b; cbn -[Qltb Qgtb]
           end; done.
Qed.

Lemma onHit_spec cd t :
  Obj.collisionData t = Some cd →
  shape (onHit cd t).1 = shape t ∧
  Obj.collisionData (onHit cd t).1 = Some cd ∧
  Obj.collisionEvents (onHit cd t).1 =
    record_id (Obj.collisionEvents t)
              (TouchPoint.id (TouchPoints.other (CollisionData.touchPoints cd))) ∧
  Obj.movement (onHit cd t).1 =
    flags_of (TouchPoints.this (CollisionData.touchPoints cd)) ∧
  Forall (λ e, ∃ msg, e = EvAlert msg) (onHit cd t).2.
Proof.
  intros Hcd. unfold onHit, record_id.
  destruct (includes _ _) eqn:Hin; cbn [negb fst snd].
  - rewrite bool_decide_eq_true_2.
    + destruct (handleCollisionState_on_spec
                  (TouchPoints.this (CollisionData.touchPoints cd)) t)
        as (-> & -> & -> & ->). done.
    + apply bool_decide_eq_true in Hin.
      destruct (Obj.collisionEvents t); [by apply elem_of_nil in Hin|cbn; lia].
  - rewrite bool_decide_eq_true_2.
    + destruct (handleCollisionState_on_spec
                  (TouchPoints.this (CollisionData.touchPoints cd))
                  (Obj.set_collisionEvents
                     (Obj.collisionEvents t ++
                      [TouchPoint.id (TouchPoints.other (CollisionData.touchPoints cd))]) t))
        as (-> & -> & -> & ->).
      repeat split; try done. repeat constructor. by eexists.
    + cbn. rewrite length_app. cbn. lia.
Qed.

Lemma collision_shape t t' o : shape t' = shape t → collision t' o = collision t o.
Proof.
  intros H. apply shape_fields in H as (_ & Hc & Hh & Hs & _).
  unfold collision, collideObjs. by rewrite Hc, Hh, Hs.
Qed.

Lemma collisionWith_shape h t t' g :
  shape t' = shape t → collisionWith h t' g = collisionWith h t g.
Proof.
  intros H. unfold collisionWith. destruct (h !! g); [|done].
  by apply collision_shape.
Qed.

Lemma hitsIn_shape h this t t' objs :
  shape t' = shape t → hitsIn h this t' objs = hitsIn h this t objs.
Proof.
  intros H. unfold hitsIn. apply filter_ext. intros g.
  unfold is_hit. by rewrite (collisionWith_shape h t t').
Qed.

Lemma collision_other_id t o cd :
  collision t o = Some cd →
  TouchPoint.id (TouchPoints.other (CollisionData.touchPoints cd)) =
    match Obj.canvas o with Some c => Canvas.id c | None => "" end.
Proof.
  unfold collision.
  destruct (Obj.canvas t), (Obj.canvas o), (Obj.spriteData t),
    (Obj.spriteData o); try done.
  by intros [= <-].
Qed.

Lemma visit_spec cd t d :
  shape (visit cd t d).1.1 = shape t ∧
  Obj.collisionData (visit cd t d).1.1 = Some cd ∧
  Obj.collisionEvents (visit cd t d).1.1 =
    (if CollisionData.hit cd
     then record_id (Obj.collisionEvents t)
            (TouchPoint.id (TouchPoints.other (CollisionData.touchPoints cd)))
     else Obj.collisionEvents t) ∧
  Obj.movement (visit cd t d).1.1 =
    (if CollisionData.hit cd
     then flags_of (TouchPoints.this (CollisionData.touchPoints cd))
     else Obj.movement t) ∧
  (visit cd t d).1.2 = CollisionData.hit cd || d ∧
  Forall (λ e, ∃ msg, e = EvAlert msg) (visit cd t d).2.
Proof.
  unfold visit. destruct (CollisionData.hit cd).
  - destruct (onHit_spec cd (Obj.set_collisionData (Some cd) t) eq_refl)
      as (Hs & Hc & He & Hm & Ha).
    destruct (onHit cd _) as [t2 evs]. cbn [fst snd] in *. done.
  - cbn. repeat split; try done.
Qed.

Lemma partnersIn_cons h this g objs :
  partnersIn h this (g :: objs) =
    if is_partner h this g then g :: partnersIn h this objs
    else partnersIn h this objs.
Proof. reflexivity. Qed.

Lemma hitsIn_cons h this t g objs :
  hitsIn h this t (g :: objs) =
    if is_partner h this g && is_hit h t g then g :: hitsIn h this t objs
    else hitsIn h this t objs.
Proof.
  unfold hitsIn. rewrite partnersIn_cons.
  destruct (is_partner h this g); [|done]. cbn.
  by destruct (is_hit h t g).
Qed.

Lemma collisionCalls_alerts evs :
  Forall (λ e, ∃ msg, e = EvAlert msg) evs → collisionCalls evs = [].
Proof. induction 1 as [|e l [msg ->] _ IHl]; done. Qed.

(** The state of the object after the scan, partner by partner. *)
Lemma scan_spec h this objs : ∀ t d t' d' evs,
  scan h this objs t d = Some (t', d', evs) →
  shape t' = shape t ∧
  collisionCalls evs = pair this <$> partnersIn h this objs ∧
  Obj.collisionData t' =
    match last (partnersIn h this objs) with
    | Some p => collisionWith h t p
    | None => Obj.collisionData t
    end ∧
  Obj.movement t' =
    match last (hitsIn h this t objs) with
    | Some p =>
        match collisionWith h t p with
        | Some cd => flags_of (TouchPoints.this (CollisionData.touchPoints cd))
        | None => Movement.all
        end
    | None => Obj.movement t
    end ∧
  Obj.collisionEvents t' =
    foldl record_id (Obj.collisionEvents t)
          (partner_id h <$> hitsIn h this t objs) ∧
  d' = match hitsIn h this t objs with [] => d | _ :: _ => true end.
Proof.
  induction objs as [|g objs IH]; intros t d t' d' evs Hscan.
  - cbn in Hscan. injection Hscan as <- <- <-. done.
  - cbn [scan] in Hscan. rewrite partnersIn_cons, hitsIn_cons.
    destruct (is_partner h this g) eqn:Hp; [|by apply IH].
    destruct (collisionWith h t g) as [cd|] eqn:Hcd; [|done].
    destruct (visit_spec cd t d) as (Hs1 & Hc1 & He1 & Hm1 & Hd1 & Ha1).
    destruct (visit cd t d) as [[t1 d1] evs1]. cbn [fst snd] in *.
    destruct (scan h this objs t1 d1) as [[[t2 d2] evs2]|] eqn:Hscan2; [|done].
    injection Hscan as <- <- <-.
    apply IH in Hscan2 as (Hs2 & Hcalls & Hc2 & Hm2 & He2 & Hd2).
    rewrite (hitsIn_shape h this t t1 objs Hs1) in Hm2, He2, Hd2.
    split; [congruence|]. split.
    { change (EvIsCollision this g :: evs1 ++ evs2)
        with ([EvIsCollision this g] ++ evs1 ++ evs2).
      unfold collisionCalls in *. rewrite !omap_app.
      fold (collisionCalls evs1). rewrite (collisionCalls_alerts evs1 Ha1).
      rewrite Hcalls. done. }
    split.
    { rewrite Hc2, last_cons.
      destruct (last (partnersIn h this objs)) as [p|].
      - by apply collisionWith_shape.
      - congruence. }
    assert (is_hit h t g = CollisionData.hit cd) as ->
      by (unfold is_hit; by rewrite Hcd).
    cbn [andb].
    destruct (CollisionData.hit cd) eqn:Hhit.
    + split.
      { rewrite Hm2, last_cons.
        destruct (last (hitsIn h this t objs)) as [p|].
        - by rewrite (collisionWith_shape h t t1).
        - by rewrite Hcd. }
      split.
      { rewrite He2, He1. cbn [fmap list_fmap foldl]. do 2 f_equal.
        unfold collisionWith in Hcd. unfold partner_id.
        destruct (h !! g) as [o|]; [|done].
        by apply collision_other_id in Hcd. }
      rewrite Hd2, Hd1. by destruct (hitsIn h this t objs).
    + split.
      { rewrite Hm2.
        destruct (last (hitsIn h this t objs)) as [p|]; [|done].
        by rewrite (collisionWith_shape h t t1). }
      split; [congruence|].
      rewrite Hd2, Hd1. done.
Qed.

Lemma scan_is_Some h this objs : ∀ t d,
  has_canvas t = true →
  is_Some (Obj.spriteData t) →
  forallb (λ g, match h !! g with
                | Some o => implb (has_canvas o)
                                  (bool_decide (is_Some (Obj.spriteData o)))
                | None => false
                end) objs = true →
  is_Some (scan h this objs t d).
Proof.
  induction objs as [|g objs IH]; intros t d Hc Hs Hall; [by eexists|].
  cbn [forallb] in Hall. apply andb_true_iff in Hall as [Hg Hall].
  cbn [scan]. destruct (is_partner h this g) eqn:Hp; [|by apply IH].
  unfold is_partner in Hp. apply andb_true_iff in Hp as [_ Hp].
  unfold collisionWith, collision.
  destruct (h !! g) as [o|]; [|done]. rewrite Hp in Hg. cbn in Hg.
  apply bool_decide_eq_true in Hg as [os Hos].
  destruct Hs as [ts Hts]. unfold has_canvas in Hc, Hp.
  destruct (Obj.canvas t) as [tc|] eqn:Htc; [|done].
  destruct (Obj.canvas o) as [oc|] eqn:Hoc; [|done].
  rewrite Hts, Hos.
  destruct (visit_spec (collideObjs t o tc oc ts os) t d) as (Hs1 & _).
  destruct (visit _ t d) as [[t1 d1] evs1]. cbn [fst snd] in Hs1.
  apply shape_fields in Hs1 as (_ & Hc1 & _ & Hsp1 & _).
  destruct (IH t1 d1) as [[[t2 d2] evs2] ->]; [| |done|by eexists].
  - unfold has_canvas. by rewrite Hc1, Htc.
  - rewrite Hsp1, Hts. by eexists.
Qed.

Lemma registry_ready_in_store w :
  registry_ready w = true →
  Forall (λ g, is_Some (heap w !! g)) (gameObjects w).
Proof.
  unfold registry_ready. rewrite forallb_forall, Forall_forall.
  intros H g Hg. apply list_elem_of_In in Hg. specialize (H g Hg).
  destruct (heap w !! g); [by eexists | done].
Qed.

(** ** Properties of the list of collision events *)

Lemma record_id_prefix l id : l `prefix_of` record_id l id.
Proof.
  unfold record_id. destruct (includes id l); [done|]. by apply prefix_app_r.
Qed.

Lemma record_id_NoDup l id : NoDup l → NoDup (record_id l id).
Proof.
  unfold record_id, includes. case_bool_decide as H; [done|].
  intros Hnd. apply NoDup_app. split; [done|]. split.
  - intros x Hx Hx'. apply list_elem_of_singleton in Hx'. by subst.
  - apply NoDup_singleton.
Qed.

Lemma record_id_elem l id : id ∈ record_id l id.
Proof.
  unfold record_id, includes. case_bool_decide as H; [done|].
  apply elem_of_app. right. by apply list_elem_of_singleton.
Qed.

Lemma foldl_record_id_prefix ids : ∀ l, l `prefix_of` foldl record_id l ids.
Proof.
  induction ids as [|id ids IH]; intros l; cbn; [done|].
  etrans; [apply (record_id_prefix l id) | apply IH].
Qed.

Lemma foldl_record_id_NoDup ids : ∀ l, NoDup l → NoDup (foldl record_id l ids).
Proof.
  induction ids as [|id ids IH]; intros l H; cbn; [done|].
  by apply IH, record_id_NoDup.
Qed.

Lemma foldl_record_id_elem ids : ∀ l id, id ∈ ids → id ∈ foldl record_id l ids.
Proof.
  induction ids as [|id' ids IH]; intros l id Hin; cbn.
  - by apply elem_of_nil in Hin.
  - apply elem_of_cons in Hin as [-> | Hin]; [|by apply IH].
    eapply elem_of_prefix; [apply record_id_elem | apply foldl_record_id_prefix].
Qed.

(** ** The collision pass as a whole *)

Lemma ready_inv w this t :
  heap w !! this = Some t →
  ready w this = true →
  has_canvas t = true ∧ is_Some (Obj.spriteData t) ∧
  is_Some (positions w !! Obj.position t).
Proof.
  intros Ht. unfold ready. rewrite Ht. rewrite !andb_true_iff.
  rewrite !bool_decide_eq_true. tauto.
Qed.

Lemma hits_at w this t :
  heap w !! this = Some t → hits w this = hitsIn (heap w) this t (gameObjects w).
Proof. intros Ht. unfold hits. by rewrite Ht. Qed.

Lemma collisionChecks_spec w this t :
  heap w !! this = Some t →
  ready w this = true →
  registry_ready w = true →
  ∃ t' evs,
    collisionChecks this w = Ok tt (with_this this t' evs w) ∧
    shape t' = shape t ∧
    collisionCalls evs = pair this <$> partners w this ∧
    Obj.collisionData t' =
      match last (partners w this) with
      | Some p => collisionWith (heap w) t p
      | None => Obj.collisionData t
      end ∧
    Obj.movement t' =
      match last (hits w this) with
      | Some p =>
          match collisionWith (heap w) t p with
          | Some cd => flags_of (TouchPoints.this (CollisionData.touchPoints cd))
          | None => Movement.all
          end
      | None => Obj.movement t
      end ∧
    Obj.collisionEvents t' =
      match hits w this with
      | [] => []
      | _ :: _ => foldl record_id (Obj.collisionEvents t)
                        (partner_id (heap w) <$> hits w this)
      end.
Proof.
  intros Ht Hready Hreg.
  destruct (ready_inv _ _ _ Ht Hready) as (Hc & Hs & _).
  destruct (scan_is_Some (heap w) this (gameObjects w) t false Hc Hs Hreg)
    as [[[t' d] evs] Hscan].
  pose proof (collisionChecks_Ok w this t t' d evs Ht
                (registry_ready_in_store w Hreg) Hscan) as Hrun.
  apply scan_spec in Hscan as (Hsh & Hcalls & Hcd & Hm & He & Hd).
  rewrite (hits_at w this t Ht). unfold partners.
  eexists _, evs. split; [exact Hrun|].
  destruct (hitsIn (heap w) this t (gameObjects w)) as [|g hs] eqn:Hhits.
  - subst d. cbn in Hm. done.
  - subst d. done.
Qed.

Lemma is_hit_inv h t g :
  is_hit h t g = true →
  ∃ cd, collisionWith h t g = Some cd ∧ CollisionData.hit cd = true.
Proof.
  unfold is_hit. destruct (collisionWith h t g) as [cd|]; [|done]. eauto.
Qed.

Lemma hitsIn_elem h this t objs g :
  g ∈ hitsIn h this t objs ↔
  g ∈ partnersIn h this objs ∧ is_hit h t g = true.
Proof.
  unfold hitsIn. rewrite !list_elem_of_In, filter_In. done.
Qed.

(** C10.  A pass of [collisionChecks] leaves the list of collision events
    empty exactly when no partner registered a hit.  When some partner
    did, the ids recorded before are all kept, in place, whether or not
    their partner still touches; the id of every partner that hit is in
    the list; and no id enters a list twice. *)
Theorem collisionChecks_events w this t :
  heap w !! this = Some t →
  ready w this = true →
  registry_ready w = true →
  ∃ w' t',
    collisionChecks this w = Ok tt w' ∧
    heap w' !! this = Some t' ∧
    (Obj.collisionEvents t' = [] ↔ hits w this = []) ∧
    (hits w this ≠ [] →
     Obj.collisionEvents t `prefix_of` Obj.collisionEvents t' ∧
     ∀ g, g ∈ hits w this → partner_id (heap w) g ∈ Obj.collisionEvents t') ∧
    (NoDup (Obj.collisionEvents t) → NoDup (Obj.collisionEvents t')).
Proof.
  intros Ht Hready Hreg.
  destruct (collisionChecks_spec w this t Ht Hready Hreg)
    as (t' & evs & Hrun & _ & _ & _ & _ & He).
  exists (with_this this t' evs w), t'.
  split; [exact Hrun|]. split; [apply lookup_with_this|].
  destruct (hits w this) as [|g hs] eqn:Hhits.
  - rewrite He. repeat split; try done. intros _. apply NoDup_nil_2.
  - rewrite He. split; [|split].
    + split; [|done]. intros Hnil.
      assert (partner_id (heap w) g ∈ @nil string) as Hin.
      { rewrite <- Hnil. apply foldl_record_id_elem. cbn. apply elem_of_cons.
        by left. }
      by apply elem_of_nil in Hin.
    + intros _. split; [apply foldl_record_id_prefix|].
      intros g' Hg'. apply foldl_record_id_elem.
      by apply list_elem_of_fmap_2.
    + apply foldl_record_id_NoDup.
Qed.

(** C4.  After a pass of [collisionChecks], the collision data of the
    object is the result for the last partner evaluated, and the movement
    flags are those the touch points of the last partner that hit leave:
    whatever earlier partners forbade is allowed again unless that last
    one forbids it too. *)
Theorem collisionChecks_last_wins w this t :
  heap w !! this = Some t →
  ready w this = true →
  registry_ready w = true →
  ∃ w' t',
    collisionChecks this w = Ok tt w' ∧
    heap w' !! this = Some t' ∧
    (∀ ps p, partners w this = ps ++ [p] →
       is_Some (collisionWith (heap w) t p) ∧
       Obj.collisionData t' = collisionWith (heap w) t p) ∧
    (∀ hs p, hits w this = hs ++ [p] →
       ∃ cd, collisionWith (heap w) t p = Some cd ∧
             CollisionData.hit cd = true ∧
             Obj.movement t' =
               flags_of (TouchPoints.this (CollisionData.touchPoints cd))).
Proof.
  intros Ht Hready Hreg.
  destruct (collisionChecks_spec w this t Ht Hready Hreg)
    as (t' & evs & Hrun & _ & _ & Hcd & Hm & _).
  exists (with_this this t' evs w), t'.
  split; [exact Hrun|]. split; [apply lookup_with_this|]. split.
  - intros ps p Hps. rewrite Hps, last_snoc in Hcd. split; [|done].
    rewrite <- Hcd.
    assert (p ∈ partners w this) as Hp
      by (rewrite Hps; apply elem_of_app; right; by apply list_elem_of_singleton).
    unfold partners, partnersIn in Hp.
    apply list_elem_of_In, filter_In in Hp as [Hin Hp].
    destruct (ready_inv _ _ _ Ht Hready) as (Hc & [ts Hts] & _).
    unfold registry_ready in Hreg. rewrite forallb_forall in Hreg.
    specialize (Hreg p Hin). unfold is_partner in Hp.
    apply andb_true_iff in Hp as [_ Hp].
    rewrite Hcd. unfold collisionWith, collision.
    destruct (heap w !! p) as [o|]; [|done].
    rewrite Hp in Hreg. cbn in Hreg.
    apply bool_decide_eq_true in Hreg as [os Hos].
    unfold has_canvas in Hc, Hp.
    destruct (Obj.canvas t), (Obj.canvas o); try done.
    rewrite Hts, Hos. by eexists.
  - intros hs p Hhs. rewrite Hhs, last_snoc in Hm.
    assert (p ∈ hits w this) as Hp
      by (rewrite Hhs; apply elem_of_app; right; by apply list_elem_of_singleton).
    rewrite (hits_at w this t Ht) in Hp.
    apply hitsIn_elem in Hp as [_ Hp].
    apply is_hit_inv in Hp as (cd & Hcd' & Hhit).
    exists cd. rewrite Hcd' in Hm. done.
Qed.

(** ** One update *)

Lemma drawable_inv t s :
  Obj.spriteData t = Some s →
  drawable t = true →
  is_Some (SpriteData.pixels s) ∧ is_Some (SpriteData.orientation s) ∧
  is_Some (SpriteData.row (Obj.direction t) s).
Proof.
  intros Hs. unfold drawable. rewrite Hs. intros H.
  apply andb_true_iff in H as [H H3]. apply andb_true_iff in H as [H1 H2].
  by rewrite !bool_decide_eq_true in H1, H2, H3.
Qed.

Lemma Character_draw_Ok w this t c p :
  heap w !! this = Some t →
  Obj.canvas t = Some c →
  positions w !! Obj.position t = Some p →
  is_Some (Obj.spriteData t) →
  drawable t = true →
  Character_draw this w =
    Ok tt (set_heap
             (<[this := Obj.set_canvas
                          (Some (Canvas.set_rect
                                   (Rect.mk (Vec.x p)
                                            (GameEnv.top (env w) + Vec.y p)%Q
                                            (Obj.width t) (Obj.height t)) c)) t]>
                (heap w)) w).
Proof.
  intros Ht Hc Hp [s Hs] Hd.
  destruct (drawable_inv t s Hs Hd) as ([px Hpx] & [ori Hori] & [row Hrow]).
  unfold Character_draw. mrun. reflexivity.
Qed.

(** A descriptor without the size or the grid of the sprite sheet, or
    without the row of the direction, makes [draw()] throw before it has
    written anything. *)
Lemma Character_draw_Throw w this t :
  heap w !! this = Some t →
  drawable t = false →
  ∃ msg, Character_draw this w = Throw (TypeError msg) w.
Proof.
  intros Ht Hd. unfold drawable in Hd.
  destruct (Obj.spriteData t) as [s|] eqn:Hs; [|done].
  unfold Character_draw. rewrite (bind_Ok _ _ _ _ _ (deref_Ok _ _ _ Ht)), Hs.
  destruct (SpriteData.pixels s) as [px|]; [|by eexists].
  destruct (SpriteData.orientation s) as [ori|]; [|by eexists].
  destruct (SpriteData.row (Obj.direction t) s) as [row|]; [|by eexists].
  by rewrite !bool_decide_eq_true_2 in Hd by done.
Qed.

(** The three ways [draw()] ends. *)
Lemma Character_draw_outcome w this :
  (∃ e, Character_draw this w = Throw e w) ∨
  Character_draw this w = Ok tt w ∨
  ∃ t c p,
    heap w !! this = Some t ∧ Obj.canvas t = Some c ∧
    positions w !! Obj.position t = Some p ∧
    Character_draw this w =
      Ok tt (set_heap
               (<[this := Obj.set_canvas
                            (Some (Canvas.set_rect
                                     (Rect.mk (Vec.x p)
                                              (GameEnv.top (env w) + Vec.y p)%Q
                                              (Obj.width t) (Obj.height t)) c)) t]>
                  (heap w)) w).
Proof.
  destruct (heap w !! this) as [t|] eqn:Ht;
    [|left; unfold Character_draw; mrun; by eexists].
  destruct (Obj.spriteData t) as [s|] eqn:Hs;
    [|right; left; unfold Character_draw;
      by rewrite (bind_Ok _ _ _ _ _ (deref_Ok _ _ _ Ht)), Hs].
  destruct (drawable t) eqn:Hd;
    [|left; destruct (Character_draw_Throw w this t Ht Hd) as [msg ->];
      by eexists].
  destruct (drawable_inv t s Hs Hd) as ([px Hpx] & [ori Hori] & [row Hrow]).
  destruct (Obj.canvas t) as [c|] eqn:Hc;
    [|left; unfold Character_draw; mrun; by eexists].
  destruct (positions w !! Obj.position t) as [p|] eqn:Hp;
    [|left; unfold Character_draw; mrun; by eexists].
  right; right. exists t, c, p.
  rewrite (Character_draw_Ok w this t c p Ht Hc Hp) by (by rewrite ?Hs).
  done.
Qed.

Lemma partnersIn_insert_this h this t0 objs :
  partnersIn (<[this := t0]> h) this objs = partnersIn h this objs.
Proof.
  unfold partnersIn. apply filter_ext. intros g. unfold is_partner.
  case_bool_decide as E; [done|]. by rewrite lookup_insert_ne.
Qed.

Lemma registry_ready_insert w this t0 :
  registry_ready w = true →
  is_Some (Obj.spriteData t0) →
  registry_ready (set_heap (<[this := t0]> (heap w)) w) = true.
Proof.
  unfold registry_ready. rewrite !forallb_forall. intros H Hs g Hg.
  specialize (H g Hg). cbn -[lookup insert].
  destruct (decide (this = g)) as [<- | Hne].
  - rewrite lookup_insert_eq. rewrite bool_decide_eq_true_2 by done.
    by destruct (has_canvas t0).
  - by rewrite lookup_insert_ne.
Qed.

Lemma collisionCalls_app a b :
  collisionCalls (a ++ b) = collisionCalls a ++ collisionCalls b.
Proof. apply omap_app. Qed.

Lemma Character_update_spec w this t p :
  heap w !! this = Some t →
  positions w !! Obj.position t = Some p →
  ready w this = true →
  registry_ready w = true →
  drawable t = true →
  ∃ w' t' v,
    Character_update this w = Ok tt w' ∧
    heap w' !! this = Some t' ∧
    Obj.position t' = Obj.position t ∧
    Obj.width t' = Obj.width t ∧
    Obj.height t' = Obj.height t ∧
    env w' = env w ∧
    positions w' !! Obj.position t =
      Some (integrate_and_clamp
              (GameEnv.innerWidth (env w)) (GameEnv.innerHeight (env w))
              (Obj.width t) (Obj.height t) p v).1 ∧
    collisionCalls (trace w') =
      collisionCalls (trace w) ++ (pair this <$> partners w this).
Proof.
  intros Ht Hp Hready Hreg Hdr.
  destruct (ready_inv _ _ _ Ht Hready) as (Hc & Hs & _).
  unfold has_canvas in Hc. destruct (Obj.canvas t) as [c|] eqn:Hcanvas; [|done].
  pose proof (Character_draw_Ok w this t c p Ht Hcanvas Hp Hs Hdr) as Hdraw.
  set (t0 := Obj.set_canvas _ t) in Hdraw.
  set (w0 := set_heap _ w) in Hdraw.
  assert (heap w0 !! this = Some t0) as Ht0
    by (subst w0; cbn -[lookup insert]; apply lookup_insert_eq).
  assert (ready w0 this = true) as Hready0.
  { unfold ready. rewrite Ht0. subst t0. cbn -[lookup insert].
    rewrite Hp. destruct Hs as [ts ->].
    rewrite !bool_decide_eq_true_2 by done. done. }
  assert (registry_ready w0 = true) as Hreg0
    by (by apply registry_ready_insert).
  destruct (collisionChecks_spec w0 this t0 Ht0 Hready0 Hreg0)
    as (t1 & evs & Hrun & Hsh & Hcalls & _).
  apply shape_fields in Hsh as (_ & _ & _ & _ & Hpos & Hw & Hh).
  set (pv := integrate_and_clamp
              (GameEnv.innerWidth (env w)) (GameEnv.innerHeight (env w))
              (Obj.width t) (Obj.height t) p (Obj.velocity t1)).
  exists (set_heap (<[this := Obj.set_velocity pv.2 t1]>
                      (heap (with_this this t1 evs w0)))
            (set_positions (<[Obj.position t := pv.1]> (positions w))
               (with_this this t1 evs w0))),
    (Obj.set_velocity pv.2 t1), (Obj.velocity t1).
  split; [|split; [|split; [|split; [|split; [|split; [|split]]]]]].
  - unfold Character_update.
    rewrite (bind_Ok _ _ _ _ _ Hdraw).
    rewrite (bind_Ok _ _ _ _ _ Hrun).
    rewrite (bind_Ok _ _ _ _ _ (deref_Ok _ _ _ (lookup_with_this _ _ _ _))).
    rewrite Hpos, Hw, Hh. subst t0. cbn [Obj.position Obj.set_canvas Obj.width Obj.height].
    erewrite bind_Ok; [|apply deref_pos_Ok; exact Hp].
    unfold gets at 1 2. unfold mbind at 1 2, M_bind at 1 2.
    change (env (with_this this t1 evs w0)) with (env w).
    fold pv. destruct pv as [p' v'].
    unfold store_pos, modify. unfold mbind at 1, M_bind at 1.
    erewrite update_obj_Ok; [reflexivity|].
    apply lookup_with_this.
  - cbn -[lookup insert]. apply lookup_insert_eq.
  - exact Hpos.
  - exact Hw.
  - exact Hh.
  - reflexivity.
  - cbn -[lookup insert]. apply lookup_insert_eq.
  - cbn -[lookup insert]. rewrite collisionCalls_app. f_equal.
    rewrite Hcalls. unfold partners. subst w0. cbn -[lookup insert].
    by rewrite partnersIn_insert_this.
Qed.

(** The position [integrate_and_clamp] leaves passes the tests of the
    left and of the top edge; it passes the test of the right edge (of
    the bottom edge) or is the value the clamp of that edge assigned, when
    the object is no wider (no taller) than the game area. *)
Lemma integrate_and_clamp_bounds W H width height p v :
  Qltb (Vec.x (integrate_and_clamp W H width height p v).1) 0 = false ∧
  Qltb (Vec.y (integrate_and_clamp W H width height p v).1) 0 = false ∧
  ((width <= W)%Q →
   Qgtb (Vec.x (integrate_and_clamp W H width height p v).1 + width) W = false ∨
   Vec.x (integrate_and_clamp W H width height p v).1 = (W - width)%Q) ∧
  ((height <= H)%Q →
   Qgtb (Vec.y (integrate_and_clamp W H width height p v).1 + height) H = false ∨
   Vec.y (integrate_and_clamp W H width height p v).1 = (H - height)%Q).
Proof.
  unfold integrate_and_clamp.
  destruct p as [x y], v as [vx vy]. cbn -[Qltb Qgtb].
  destruct (Qgtb (y + vy + height) H) eqn:E1; cbn -[Qltb Qgtb];
  [destruct (Qltb (H - height) 0) eqn:E2 | destruct (Qltb (y + vy) 0) eqn:E2];
  cbn -[Qltb Qgtb];
  (destruct (Qgtb (x + vx + width) W) eqn:E3; cbn -[Qltb Qgtb];
   [destruct (Qltb (W - width) 0) eqn:E4 | destruct (Qltb (x + vx) 0) eqn:E4]);
  cbn -[Qltb Qgtb];
  rewrite ?Qgtb_gt, ?Qgtb_le, ?Qltb_lt, ?Qltb_ge in *;
  repeat split; intros;
    first [lra | left; lra | right; reflexivity].
Qed.

Lemma update_dispatch w this t :
  heap w !! this = Some t →
  Obj.class t ≠ Background →
  Obj.class t = Npc ∨
  (Obj.class t = Character ∨ Obj.class t = Player) ∧
  update this w = Character_update this w.
Proof.
  intros Ht Hcls. unfold update.
  rewrite (bind_Ok _ _ _ _ _ (deref_Ok _ _ _ Ht)).
  destruct (Obj.class t); [done | right | right | left]; auto.
Qed.

(** C1, as the code has it.  For an object whose [update()] is that of
    [Character] (a character or a player) and whose descriptor has what
    [draw()] reads, [update()] in a viewport [W x H] with a width and a
    height completes and leaves a position that passes the tests of the
    left and of the top edge: [x < 0] and [y < 0] are false, which for
    numbers is [0 <= x] and [0 <= y].  When the object is no wider than
    the viewport, the position passes the test of the right edge as well,
    [x + width > W] is false, or [x] is the value [W - width] that the
    clamp of the right edge assigned; and the same for [y], the height and
    the bottom edge.  The [update()] of an [Npc] only redraws: the
    position object is as it was. *)
Theorem update_position_bounds w this t p :
  heap w !! this = Some t →
  positions w !! Obj.position t = Some p →
  ready w this = true →
  registry_ready w = true →
  drawable t = true →
  Obj.class t ≠ Background →
  ¬ (GameEnv.innerWidth (env w) == 0)%Q →
  ¬ (GameEnv.innerHeight (env w) == 0)%Q →
  ∃ w' t' p',
    update this w = Ok tt w' ∧
    heap w' !! this = Some t' ∧
    positions w' !! Obj.position t' = Some p' ∧
    Obj.width t' = Obj.width t ∧
    Obj.height t' = Obj.height t ∧
    env w' = env w ∧
    (Obj.class t = Npc → p' = p) ∧
    (Obj.class t ≠ Npc →
     Qltb (Vec.x p') 0 = false ∧ Qltb (Vec.y p') 0 = false ∧
     ((Obj.width t <= GameEnv.innerWidth (env w))%Q →
      Qgtb (Vec.x p' + Obj.width t) (GameEnv.innerWidth (env w)) = false ∨
      Vec.x p' = (GameEnv.innerWidth (env w) - Obj.width t)%Q) ∧
     ((Obj.height t <= GameEnv.innerHeight (env w))%Q →
      Qgtb (Vec.y p' + Obj.height t) (GameEnv.innerHeight (env w)) = false ∨
      Vec.y p' = (GameEnv.innerHeight (env w) - Obj.height t)%Q)).
Proof.
  intros Ht Hp Hready Hreg Hdr Hcls _ _.
  destruct (update_dispatch w this t Ht Hcls) as [HNpc | [Hcp Hupd]].
  - destruct (ready_inv _ _ _ Ht Hready) as (Hc & Hs & _).
    unfold has_canvas in Hc.
    destruct (Obj.canvas t) as [c|] eqn:Hcanvas; [|done].
    eexists _, _, p. split; [|split; [|split; [|split; [|split; [|split]]]]].
    + unfold update. rewrite (bind_Ok _ _ _ _ _ (deref_Ok _ _ _ Ht)).
      rewrite HNpc. unfold Npc_update.
      by apply (Character_draw_Ok w this t c p).
    + cbn -[lookup insert]. apply lookup_insert_eq.
    + exact Hp.
    + reflexivity.
    + reflexivity.
    + reflexivity.
    + split; [done|]. intros Hn. by destruct Hn.
  - destruct (Character_update_spec w this t p Ht Hp Hready Hreg Hdr)
      as (w' & t' & v & Hrun & Ht' & Hpos & Hw & Hh & Henv & Hp' & _).
    eexists w', t', _. rewrite Hupd, Hpos.
    split; [exact Hrun|]. split; [exact Ht'|]. split; [exact Hp'|].
    split; [exact Hw|]. split; [exact Hh|]. split; [exact Henv|].
    pose proof (integrate_and_clamp_bounds
                  (GameEnv.innerWidth (env w)) (GameEnv.innerHeight (env w))
                  (Obj.width t) (Obj.height t) p v) as Hb.
    split; [|intros _; exact Hb].
    intros HNpc. destruct Hcp as [Hcp | Hcp]; congruence.
Qed.

(** C3, as the code has it.  The [update()] of a character or a player
    calls [isCollision] once for each partner, the registry entries with a
    canvas other than itself, in registry order; the [update()] of an
    [Npc] calls it for nobody.  That is the [update()] of an object whose
    descriptor has what [draw()] reads; on any other, [update()] throws
    in [draw()], before any call. *)
Theorem update_collision_calls w this t :
  heap w !! this = Some t →
  ready w this = true →
  registry_ready w = true →
  Obj.class t ≠ Background →
  (drawable t = true →
   ∃ w',
     update this w = Ok tt w' ∧
     (Obj.class t = Npc → collisionCalls (trace w') = collisionCalls (trace w)) ∧
     (Obj.class t ≠ Npc →
      collisionCalls (trace w') =
        collisionCalls (trace w) ++ (pair this <$> partners w this))) ∧
  (drawable t = false →
   ∃ msg, update this w = Throw (TypeError msg) w).
Proof.
  intros Ht Hready Hreg Hcls.
  destruct (ready_inv _ _ _ Ht Hready) as (Hc & Hs & [p Hp]).
  split; intros Hdr.
  - destruct (update_dispatch w this t Ht Hcls) as [HNpc | [Hcp Hupd]].
    + unfold has_canvas in Hc.
      destruct (Obj.canvas t) as [c|] eqn:Hcanvas; [|done].
      eexists. split.
      * unfold update. rewrite (bind_Ok _ _ _ _ _ (deref_Ok _ _ _ Ht)).
        rewrite HNpc. unfold Npc_update.
        by apply (Character_draw_Ok w this t c p).
      * split; [done|]. intros Hn. by destruct Hn.
    + destruct (Character_update_spec w this t p Ht Hp Hready Hreg Hdr)
        as (w' & t' & v & Hrun & _ & _ & _ & _ & _ & _ & Hcalls).
      exists w'. rewrite Hupd. split; [exact Hrun|].
      split; [|intros _; exact Hcalls].
      intros HNpc. destruct Hcp as [Hcp | Hcp]; congruence.
  - destruct (Character_draw_Throw w this t Ht Hdr) as [msg Hthrow].
    exists msg. unfold update.
    rewrite (bind_Ok _ _ _ _ _ (deref_Ok _ _ _ Ht)).
    destruct (Obj.class t); [done| | |exact Hthrow];
      unfold Character_update; by rewrite (bind_Throw _ _ _ _ _ Hthrow).
Qed.

(** ** Steady computations *)

Lemma grows_refl w : grows w w.
Proof.
  unfold grows. repeat split; try done. exists [].
  rewrite app_nil_r. repeat split; [apply NoDup_nil_2 | constructor].
Qed.

Lemma grows_trans w1 w2 w3 : grows w1 w2 → grows w2 w3 → grows w1 w3.
Proof.
  intros (Hd1 & Hi1 & Hl1 & Hc1 & Hn1 & new1 & Hr1 & Hnd1 & Hf1)
         (Hd2 & Hi2 & Hl2 & Hc2 & Hn2 & new2 & Hr2 & Hnd2 & Hf2).
  unfold grows. repeat split; try congruence; try lia.
  exists (new1 ++ new2). split; [|split].
  - rewrite Hr2, Hr1. by rewrite app_assoc.
  - apply NoDup_app. repeat split; try done.
    intros r H1 H2. rewrite Forall_forall in Hf1, Hf2.
    apply Hf1 in H1. apply Hf2 in H2. lia.
  - apply Forall_app. split.
    + eapply Forall_impl; [exact Hf1|]. cbn. intros; lia.
    + eapply Forall_impl; [exact Hf2|]. cbn. intros; lia.
Qed.

Lemma steady_ret {A} (a : A) : steady (mret a).
Proof. intros w. apply grows_refl. Qed.

Lemma steady_throw {A} e : steady (@throw A e).
Proof. intros w. apply grows_refl. Qed.

Lemma steady_gets {A} (f : World → A) : steady (gets f).
Proof. intros w. apply grows_refl. Qed.

Lemma steady_require {A} (v : option A) msg : steady (require v msg).
Proof. destruct v; [apply steady_ret | apply steady_throw]. Qed.

Lemma steady_bind {A B} (m : M A) (f : A → M B) :
  steady m → (∀ a, steady (f a)) → steady (m ≫= f).
Proof.
  intros Hm Hf w. unfold mbind, M_bind. specialize (Hm w).
  destruct (m w) as [a w'| |]; [|done|done].
  specialize (Hf a w'). destruct (f a w'); [| |done];
    by eapply grows_trans.
Qed.

Lemma steady_modify (f : World → World) :
  (∀ w, grows w (f w)) → steady (modify f).
Proof. intros H w. apply H. Qed.

Lemma destroyed_app a b : destroyed (a ++ b) = destroyed a ++ destroyed b.
Proof. apply omap_app. Qed.


Ltac grows_field :=
  intros; unfold grows; cbn -[lookup insert];
  repeat split; try done; try lia;
  try (exists []; split; [by rewrite app_nil_r
                         | split; [apply NoDup_nil_2 | constructor]]).

Lemma steady_emit e : (∀ r, e ≠ EvDestroy r) → steady (emit e).
Proof.
  intros He. apply steady_modify. intros w. grows_field.
  rewrite destroyed_app. destruct e; cbn; try by rewrite app_nil_r.
  by destruct (He this).
Qed.

Lemma steady_alert msg : steady (alert msg).
Proof. by apply steady_emit. Qed.

Lemma steady_deref r : steady (deref r).
Proof.
  unfold deref. apply steady_bind; [apply steady_gets|].
  intros [o|]; [apply steady_ret | apply steady_throw].
Qed.

Lemma steady_deref_pos p : steady (deref_pos p).
Proof.
  unfold deref_pos. apply steady_bind; [apply steady_gets|].
  intros [o|]; [apply steady_ret | apply steady_throw].
Qed.

Lemma steady_update_obj r f : steady (update_obj r f).
Proof.
  unfold update_obj. apply steady_bind; [apply steady_deref|].
  intros o. apply steady_modify. grows_field.
Qed.

Lemma steady_store_pos p v : steady (store_pos p v).
Proof. apply steady_modify. grows_field. Qed.

Lemma steady_alloc_pos v : steady (alloc_pos v).
Proof.
  intros w. unfold alloc_pos. munfold. cbn -[lookup insert]. grows_field.
Qed.

Lemma steady_set_currentPass v : steady (set_currentPass v).
Proof. apply steady_modify. grows_field. Qed.

Lemma steady_forOf {A} (l : list A) (body : A → M unit) :
  (∀ a, steady (body a)) → steady (forOf l body).
Proof.
  intros H. induction l as [|a l IH]; cbn; [apply steady_ret|].
  apply steady_bind; [apply H|]. intros _. apply IH.
Qed.

Lemma steady_forOfAcc {A S} (l : list A) (body : S → A → M S) :
  (∀ s a, steady (body s a)) → ∀ s, steady (forOfAcc l body s).
Proof.
  intros H. induction l as [|a l IH]; intros s; cbn; [apply steady_ret|].
  apply steady_bind; [apply H|]. intros s'. apply IH.
Qed.

(** Allocating an object and pushing it on the registry. *)
Lemma steady_alloc_push {A} o (k : ref → M A) :
  (∀ r, steady (k r)) → steady (this ← alloc o; push this;; k this).
Proof.
  intros Hk w. unfold alloc, push, set_gameObjects. munfold.
  cbn -[lookup insert].
  specialize (Hk (next w)).
  match goal with |- match k _ ?w2 with _ => _ end =>
    specialize (Hk w2);
    assert (grows w w2) as Hg
  end.
  { unfold grows. cbn -[lookup insert]. repeat split; try done; try lia.
    exists [next w]. split; [done|]. split; [apply NoDup_singleton|].
    repeat constructor. }
  destruct (k _ _); [| |done]; by eapply grows_trans.
Qed.

Ltac steady_step :=
  first
    [ apply steady_ret | apply steady_throw | apply steady_gets
    | apply steady_require | apply steady_alert | apply steady_deref
    | apply steady_deref_pos | apply steady_update_obj | apply steady_store_pos
    | apply steady_alloc_pos | apply steady_set_currentPass
    | apply steady_emit; done
    | apply steady_alloc_push; intros
    | apply steady_forOf; intros
    | apply steady_forOfAcc; intros
    | apply steady_bind; [|intros]
    | match goal with
      | |- steady (if ?b then _ else _) => destruct b
      | |- steady (match ?x with _ => _ end) => destruct x
      end ].

Ltac steady_tac := repeat steady_step.

Lemma steady_isCollision this other : steady (isCollision this other).
Proof. unfold isCollision. steady_tac. Qed.

Lemma steady_handleCollisionState this : steady (handleCollisionState this).
Proof. unfold handleCollisionState. steady_tac. Qed.

Lemma steady_handleCollisionEvent this : steady (handleCollisionEvent this).
Proof.
  unfold handleCollisionEvent, handleCollisionReaction. steady_tac.
Qed.

Lemma steady_collisionChecks this : steady (collisionChecks this).
Proof.
  unfold collisionChecks, collisionChecks_body. steady_tac.
Qed.

Lemma steady_Character_draw this : steady (Character_draw this).
Proof. unfold Character_draw. steady_tac. Qed.

Lemma steady_Character_update this : steady (Character_update this).
Proof.
  unfold Character_update. steady_tac.
Qed.

Lemma steady_update this : steady (update this).
Proof.
  unfold update, Npc_update, Background_update. steady_tac.
Qed.

Lemma steady_Character_resize this : steady (Character_resize this).
Proof. unfold Character_resize. steady_tac. Qed.

Lemma steady_Character_constructor cls data :
  steady (Character_constructor cls data).
Proof.
  unfold Character_constructor. steady_tac.
Qed.

Lemma steady_shuffleLoop i : ∀ array, steady (shuffleLoop i array).
Proof.
  induction i as [|i IH]; intros array; cbn [shuffleLoop]; [apply steady_ret|].
  apply steady_bind; [|intros; apply IH].
  unfold Math_random. steady_tac. apply steady_modify. grows_field.
Qed.

Lemma steady_construct cls data : steady (construct cls data).
Proof.
  destruct cls; cbn [construct].
  - unfold Background_constructor. steady_tac.
  - apply steady_Character_constructor.
  - apply steady_Character_constructor.
  - unfold Npc_constructor, shuffleArray.
    apply steady_bind; [apply steady_Character_constructor|]. intros this.
    apply steady_bind; [apply steady_shuffleLoop|]. intros questions.
    steady_tac.
Qed.

Lemma steady_handleLevelStart : steady handleLevelStart.
Proof. unfold handleLevelStart. steady_tac. Qed.

(** The registry holds no reference twice, and none the allocator has
    not handed out: every steady computation keeps it so. *)
Lemma grows_registry w w' :
  grows w w' →
  NoDup (gameObjects w) →
  Forall (λ g, g < next w)%nat (gameObjects w) →
  NoDup (gameObjects w') ∧ Forall (λ g, g < next w')%nat (gameObjects w').
Proof.
  intros (_ & _ & _ & _ & Hn & new & -> & Hnd & Hf) Hnd0 Hlt. split.
  - apply NoDup_app. repeat split; try done.
    intros r H1 H2. rewrite Forall_forall in Hlt, Hf.
    apply Hlt in H1. apply Hf in H2. lia.
  - apply Forall_app. split.
    + eapply Forall_impl; [exact Hlt|]. cbn. intros; lia.
    + eapply Forall_impl; [exact Hf|]. cbn. intros; lia.
Qed.

(** ** The end of a level *)


Lemma forallb_destroyable_ext h h' l :
  (∀ g, g ∈ l → h' !! g = h !! g) →
  forallb (destroyable h) l = true → forallb (destroyable h') l = true.
Proof.
  rewrite !forallb_forall. intros Hext H g Hg.
  unfold destroyable. rewrite Hext by (by apply list_elem_of_In).
  by apply H.
Qed.







(** ** The prompt panel *)

Lemma bind_Ok_inv {A B} (m : M A) (f : A → M B) w b w' :
  (m ≫= f) w = Ok b w' → ∃ a w1, m w = Ok a w1 ∧ f a w1 = Ok b w'.
Proof.
  unfold mbind, M_bind. destruct (m w) as [a w1| |]; [eauto|done|done].
Qed.

Lemma appendChild_title node w w' :
  appendChild node w = Ok tt w' →
  Document.promptTitle (document w') = Document.promptTitle (document w).
Proof.
  unfold appendChild, set_promptDropDown. munfold.
  destruct (Document.promptDropDown (document w)); [|done].
  by intros [= <-].
Qed.

Lemma updatePromptTable_title w table w' :
  updatePromptTable w = Ok table w' → w' = w.
Proof.
  unfold updatePromptTable. munfold.
  destruct (Prompt.currentNpc (prompt w)) as [r|]; [|by intros [= _ <-]].
  destruct (heap w !! r); [|done]. by intros [= _ <-].
Qed.

Lemma backgroundDim_create_title w w' :
  backgroundDim_create w = Ok tt w' →
  Document.promptTitle (document w') = Document.promptTitle (document w).
Proof.
  unfold backgroundDim_create, set_dim, set_dimDiv. munfold.
  by intros [= <-].
Qed.

(** Whenever [openPromptPanel] returns, the title it shows is the
    default one. *)
Lemma openPromptPanel_title_default w npc w' :
  openPromptPanel npc w = Ok tt w' →
  ∃ el, Document.promptTitle (document w') = Some el ∧
        TitleElement.innerHTML el = "Questions".
Proof.
  intros H. unfold openPromptPanel in H.
  do 11 (apply bind_Ok_inv in H as (? & ? & _ & H)).
  apply bind_Ok_inv in H as (title & wt & Htitle & H).
  assert (title = None) as ->.
  { unfold title_of in Htitle. destruct (Obj.quiz _); [|done].
    by injection Htitle as <- _. }
  apply bind_Ok_inv in H as ([] & w1 & H1 & H).
  apply bind_Ok_inv in H as ([] & w2 & H2 & H).
  apply bind_Ok_inv in H as (table & w3 & H3 & H).
  apply bind_Ok_inv in H as ([] & w4 & H4 & H).
  apply backgroundDim_create_title in H. rewrite H.
  apply appendChild_title in H4. rewrite H4.
  apply updatePromptTable_title in H3. subst w3.
  apply appendChild_title in H2. rewrite H2.
  unfold set_promptTitle, modify in H1. injection H1 as <-.
  cbn. eauto.
Qed.

(** C8, evaluated.  Tux is built from a descriptor whose quiz is titled
    "Linux Command Quiz", and keeps that title in its field [quiz]; the
    panel [openPromptPanel] opens for Tux is titled "Questions".  The
    panel holds the title and one table, with one text input for each of
    the ten questions. *)
Theorem openPromptPanel_tux_title :
  quiz_title (Some (sprite_data_tux "" 1000 800)) = Some "Linux Command Quiz" ∧
  Obj.quiz (object_at landscape tux) = Some "Linux Command Quiz" ∧
  length (Obj.questions (object_at landscape tux)) = 10%nat ∧
  ∃ w' el table,
    openPromptPanel tux landscape = Ok tt w' ∧
    Document.promptTitle (document w') = Some el ∧
    TitleElement.innerHTML el = "Questions" ∧
    Document.promptDropDown (document w') = Some [NodeTitle; table] ∧
    inputs table = seq 0 10.
Proof.
  split; [reflexivity|]. split; [vm_compute; reflexivity|].
  split; [vm_compute; reflexivity|].
  eexists (world_of landscape (openPromptPanel tux landscape)), _, _.
  split; [vm_compute; reflexivity|].
  split; [vm_compute; reflexivity|].
  split; [reflexivity|].
  split; [vm_compute; reflexivity|].
  vm_compute; reflexivity.
Qed.

(** ** The statements at sample worlds *)

Lemma isCollision_hit_iff_overlap_witness :
  ∃ w' t' cd,
    isCollision crowded_P crowded_A crowded = Ok tt w' ∧
    heap w' !! crowded_P = Some t' ∧
    Obj.collisionData t' = Some cd ∧
    CollisionData.hit cd = true.
Proof.
  destruct (proj1 isCollision_hit_iff_overlap crowded crowded_P crowded_A
              (object_at crowded crowded_P) (object_at crowded crowded_A)
              (canvas_at crowded crowded_P) (canvas_at crowded crowded_A))
    as (w' & t' & cd & Hrun & Ht' & Hcd & Hiff).
  - vm_compute; reflexivity.
  - vm_compute; reflexivity.
  - vm_compute; reflexivity.
  - vm_compute; reflexivity.
  - vm_compute. eexists; reflexivity.
  - vm_compute. eexists; reflexivity.
  - exists w', t', cd. repeat split; try assumption.
    apply Hiff. vm_compute. repeat split; reflexivity.
Defined.

Lemma Character_resize_spec_witness :
  ∃ w' t',
    Character_resize chillguy landscape = Ok tt w' ∧
    heap w' !! chillguy = Some t' ∧
    (Obj.size t' == 160)%Q ∧ (Obj.yVelocity t' == 0.8)%Q.
Proof.
  destruct (Character_resize_spec landscape chillguy
              (object_at landscape chillguy) (position_at landscape chillguy))
    as (w' & t' & p' & Hrun & Ht' & _ & _ & _ & _ & _ & _ & _ & _ & Hs & Hv).
  - vm_compute; reflexivity.
  - vm_compute; reflexivity.
  - vm_compute; discriminate.
  - vm_compute; discriminate.
  - vm_compute; discriminate.
  - vm_compute; discriminate.
  - exists w', t'. repeat split; try assumption.
    + apply Hs; vm_compute; reflexivity.
    + apply Hv; vm_compute; reflexivity.
Defined.

Lemma constructor_requires_sprite_witness :
  ∃ e w',
    construct Npc (Some SpriteData.empty) landscape = Throw e w' ∧
    gameObjects w' = gameObjects landscape.
Proof.
  apply (constructor_requires_sprite Npc (Some SpriteData.empty) landscape).
  - discriminate.
  - right. exists SpriteData.empty. split; reflexivity.
Defined.

Lemma destroy_twice_witness :
  destroy tux (world_of landscape (destroy tux landscape)) =
    Ok tt (set_trace (trace (world_of landscape (destroy tux landscape))
                      ++ [EvDestroy tux])
                     (world_of landscape (destroy tux landscape))) ∧
  gameObjects (set_trace (trace (world_of landscape (destroy tux landscape))
                          ++ [EvDestroy tux])
                         (world_of landscape (destroy tux landscape))) =
    gameObjects (world_of landscape (destroy tux landscape)).
Proof.
  apply (destroy_twice landscape tux).
  - apply (bool_decide_unpack _). vm_compute. exact I.
  - vm_compute; reflexivity.
Defined.

Lemma collisionChecks_last_wins_witness :
  ∃ w' t',
    collisionChecks crowded_P crowded = Ok tt w' ∧
    heap w' !! crowded_P = Some t' ∧
    Obj.movement t' = Movement.mk false true true false.
Proof.
  destruct (collisionChecks_last_wins crowded crowded_P
              (object_at crowded crowded_P))
    as (w' & t' & Hrun & Ht' & _ & Hm).
  - vm_compute; reflexivity.
  - vm_compute; reflexivity.
  - vm_compute; reflexivity.
  - exists w', t'. repeat split; try assumption.
    destruct (Hm [crowded_A] crowded_B) as (cd & Hcd & _ & ->).
    + vm_compute; reflexivity.
    + vm_compute in Hcd. injection Hcd as <-. reflexivity.
Defined.

Lemma collisionChecks_events_witness :
  ∃ w' t',
    collisionChecks chillguy revisited = Ok tt w' ∧
    heap w' !! chillguy = Some t' ∧
    ["Tux"] `prefix_of` Obj.collisionEvents t' ∧
    "Robot" ∈ Obj.collisionEvents t' ∧
    NoDup (Obj.collisionEvents t').
Proof.
  destruct (collisionChecks_events revisited chillguy
              (object_at revisited chillguy))
    as (w' & t' & Hrun & Ht' & _ & Hkeep & Hnd).
  - vm_compute; reflexivity.
  - vm_compute; reflexivity.
  - vm_compute; reflexivity.
  - exists w', t'. split; [assumption|]. split; [assumption|].
    destruct Hkeep as [Hpre Hin]; [vm_compute; discriminate|].
    assert (Obj.collisionEvents (object_at revisited chillguy) = ["Tux"])
      as Hold by (vm_compute; reflexivity).
    assert (partner_id (heap revisited) robot = "Robot")
      as Hid by (vm_compute; reflexivity).
    rewrite Hold in Hpre, Hnd. split; [exact Hpre|]. split.
    + rewrite <- Hid. apply (Hin robot).
      apply (bool_decide_unpack _). vm_compute. exact I.
    + apply Hnd. apply (bool_decide_unpack _). vm_compute. exact I.
Defined.

Lemma update_position_bounds_witness :
  ∃ w' t' p',
    Vec_eq (Obj.velocity (object_at moving chillguy)) (Vec.mk 1 0.8) ∧
    Vec_eq (position_at moving chillguy) (Vec.mk 0 640) ∧
    update chillguy moving = Ok tt w' ∧
    heap w' !! chillguy = Some t' ∧
    positions w' !! Obj.position t' = Some p' ∧
    Vec_eq p' (Vec.mk 1 640) ∧
    (0 <= Vec.x p')%Q ∧ (0 <= Vec.y p')%Q ∧
    (Obj.width t' == 160)%Q ∧ (Obj.height t' == 160)%Q ∧
    ((Vec.x p' + Obj.width t' <= 1000)%Q ∨ (Vec.x p' == 1000 - Obj.width t')%Q) ∧
    ((Vec.y p' + Obj.height t' <= 800)%Q ∨ (Vec.y p' == 800 - Obj.height t')%Q).
Proof.
  destruct (update_position_bounds moving chillguy
              (object_at moving chillguy) (position_at moving chillguy))
    as (w' & t' & p' & Hrun & Ht' & Hp' & Hw & Hh & _ & _ & Hb).
  - vm_compute; reflexivity.
  - vm_compute; reflexivity.
  - vm_compute; reflexivity.
  - vm_compute; reflexivity.
  - vm_compute; reflexivity.
  - vm_compute; discriminate.
  - vm_compute; discriminate.
  - vm_compute; discriminate.
  - destruct Hb as (Hx & Hy & Hxw & Hyh); [vm_compute; discriminate|].
    rewrite <- Hw in Hxw. rewrite <- Hh in Hyh.
    apply Qltb_ge in Hx. apply Qltb_ge in Hy.
    assert (∃ w0, update chillguy moving = Ok tt w0 ∧
                  Vec_eq (position_at w0 chillguy) (Vec.mk 1 640))
      as (w0 & Hrun0 & Hval)
      by (eexists; split; [vm_compute; reflexivity|];
          split; vm_compute; reflexivity).
    rewrite Hrun in Hrun0. injection Hrun0 as <-.
    unfold position_at, object_at in Hval. rewrite Ht' in Hval.
    change (Vec_eq (default (Vec.mk 0 0) (positions w' !! Obj.position t'))
                   (Vec.mk 1 640)) in Hval.
    rewrite Hp' in Hval. change (Vec_eq p' (Vec.mk 1 640)) in Hval.
    exists w', t', p'.
    split; [split; vm_compute; reflexivity|].
    split; [split; vm_compute; reflexivity|].
    split; [exact Hrun|]. split; [exact Ht'|]. split; [exact Hp'|].
    split; [exact Hval|]. split; [exact Hx|]. split; [exact Hy|].
    split; [rewrite Hw; vm_compute; reflexivity|].
    split; [rewrite Hh; vm_compute; reflexivity|].
    split.
    + destruct Hxw as [H|H]; [rewrite Hw; vm_compute; discriminate | left | right].
      * apply Qgtb_le in H. exact H.
      * rewrite H. reflexivity.
    + destruct Hyh as [H|H]; [rewrite Hh; vm_compute; discriminate | left | right].
      * apply Qgtb_le in H. exact H.
      * rewrite H. reflexivity.
Defined.

Lemma update_collision_calls_witness :
  (∃ w',
     update chillguy landscape = Ok tt w' ∧
     collisionCalls (trace w') =
       collisionCalls (trace landscape) ++
       [(chillguy, tux); (chillguy, octocat); (chillguy, robot)]) ∧
  (∃ msg, update bare_player bare = Throw (TypeError msg) bare).
Proof.
  split.
  - destruct (update_collision_calls landscape chillguy
                (object_at landscape chillguy))
      as [Hdrawn _].
    + vm_compute; reflexivity.
    + vm_compute; reflexivity.
    + vm_compute; reflexivity.
    + vm_compute; discriminate.
    + destruct Hdrawn as (w' & Hrun & _ & Hcalls); [vm_compute; reflexivity|].
      exists w'. split; [assumption|]. rewrite Hcalls.
      * vm_compute; reflexivity.
      * vm_compute; discriminate.
  - destruct (update_collision_calls bare bare_player
                (object_at bare bare_player))
      as [_ Hbare].
    + vm_compute; reflexivity.
    + vm_compute; reflexivity.
    + vm_compute; reflexivity.
    + vm_compute; discriminate.
    + apply Hbare. vm_compute; reflexivity.
Defined.

(** ** Where the code departs from the wording *)

(** C1 as worded fails: in the portrait window the robot, a stationary
    object of the desert level, stands across the right border after its
    [update()]; and the player, wider than the window, has [x = 0] after
    its [update()], to the right of [W - width]. *)
Lemma update_keeps_inside_fails :
  ¬ update_keeps_inside ∧
  ∃ w' t' p',
    update chillguy portrait = Ok tt w' ∧
    heap w' !! chillguy = Some t' ∧
    positions w' !! Obj.position t' = Some p' ∧
    ¬ (Vec.x p' <= GameEnv.innerWidth (env w') - Obj.width t')%Q.
Proof.
  split.
  - intros H.
    destruct (H portrait robot (object_at portrait robot)
                (world_of portrait (update robot portrait))
                (object_at (world_of portrait (update robot portrait)) robot)
                (position_at (world_of portrait (update robot portrait)) robot))
      as (_ & Hx & _).
    + apply (bool_decide_unpack _). vm_compute. exact I.
    + vm_compute; reflexivity.
    + vm_compute; reflexivity.
    + vm_compute; reflexivity.
    + vm_compute; reflexivity.
    + vm_compute in Hx. by apply Hx.
  - exists (world_of portrait (update chillguy portrait)),
      (object_at (world_of portrait (update chillguy portrait)) chillguy),
      (position_at (world_of portrait (update chillguy portrait)) chillguy).
    split; [vm_compute; reflexivity|].
    split; [vm_compute; reflexivity|].
    split; [vm_compute; reflexivity|].
    vm_compute. intros H. by apply H.
Qed.

(** C3 as worded fails: the [update()] of Tux calls [isCollision] for
    nobody, and the [update()] of the player does not call it for the
    background, which has no canvas. *)
Lemma update_checks_everyone_fails :
  ¬ update_checks_everyone ∧
  ∃ w',
    update chillguy landscape = Ok tt w' ∧
    (chillguy, desert_background) ∉
      collisionCalls (drop (length (trace landscape)) (trace w')).
Proof.
  split.
  - intros H.
    assert ((tux, chillguy) ∈
              collisionCalls (drop (length (trace landscape))
                (trace (world_of landscape (update tux landscape))))) as Hin.
    { apply (H landscape tux (world_of landscape (update tux landscape))
               chillguy).
      - apply (bool_decide_unpack _). vm_compute. exact I.
      - apply (bool_decide_unpack _). vm_compute. exact I.
      - discriminate.
      - vm_compute; reflexivity. }
    apply (bool_decide_pack _) in Hin. vm_compute in Hin. exact Hin.
  - exists (world_of landscape (update chillguy landscape)).
    split; [vm_compute; reflexivity|].
    apply (bool_decide_unpack _). vm_compute. exact I.
Qed.

(** ** The detector from the other side *)

Lemma collide_mirror a b ha hb ida idb ga gb :
  collide b a hb ha idb ida gb ga = mirror (collide a b ha hb ida idb ga gb).
Proof.
  unfold collide, mirror.
  cbn [CollisionData.hit CollisionData.touchPoints TouchPoints.this TouchPoints.other].
  f_equal. unfold Qgtb.
  repeat match goal with |- context [Qltb ?x ?y] =>
    let b := fresh "b" in generalize (Qltb x y); intros b end.
  repeat match goal with b : bool |- _ => destruct b end; reflexivity.
Qed.

(** X1 (GameObject.isCollision).  The detector is symmetric: the
    collision data of [o] against [t] is that of [t] against [o] with the
    two sets of touch points exchanged; in particular both tests agree on
    [hit], whatever the hitboxes. *)
Theorem collision_mirror t o : collision o t = mirror <$> collision t o.
Proof.
  unfold collision.
  destruct (Obj.canvas t) as [tc|], (Obj.canvas o) as [oc|],
    (Obj.spriteData t) as [ts|], (Obj.spriteData o) as [os|]; try reflexivity.
  cbn [fmap option_fmap option_map]. f_equal. apply collide_mirror.
Qed.

(** ** Keys *)

Lemma Vec_eq_refl v : Vec_eq v v.
Proof. split; reflexivity. Qed.

Lemma Vec_eq_trans a b c : Vec_eq a b → Vec_eq b c → Vec_eq a c.
Proof. intros [? ?] [? ?]. split; etransitivity; eassumption. Qed.

Lemma Vec_add_proper a a' b b' :
  Vec_eq a a' → Vec_eq b b' → Vec_eq (Vec_add a b) (Vec_add a' b').
Proof.
  intros [Hx Hy] [Hx' Hy']. split; cbn; [rewrite Hx, Hx' | rewrite Hy, Hy']; reflexivity.
Qed.

Lemma Vec_add_assoc a b c :
  Vec_eq (Vec_add (Vec_add a b) c) (Vec_add a (Vec_add b c)).
Proof. split; cbn; ring. Qed.

Lemma set_velocity_same t : Obj.set_velocity (Obj.velocity t) t = t.
Proof. by destruct t. Qed.

Lemma set_heap_same w this t : heap w !! this = Some t → set_heap (<[this := t]> (heap w)) w = w.
Proof. intros H. rewrite insert_id by done. by destruct w. Qed.

Lemma set_heap_twice w this t1 t2 :
  set_heap (<[this := t2]> (heap (set_heap (<[this := t1]> (heap w)) w)))
           (set_heap (<[this := t1]> (heap w)) w)
  = set_heap (<[this := t2]> (heap w)) w.
Proof. unfold set_heap. cbn -[insert]. by rewrite insert_insert_eq. Qed.

Lemma set_direction_same t : Obj.set_direction (Obj.direction t) t = t.
Proof. by destruct t. Qed.

(** One [keydown] event on a player in the store. *)
Lemma Player_handleKeyDown_Ok keypress this keyCode w t :
  heap w !! this = Some t →
  ∃ v,
    Player_handleKeyDown keypress this keyCode w =
      Ok tt (set_heap
               (<[this := Obj.set_direction
                            (default (Obj.direction t)
                                     (key_direction keypress keyCode))
                            (Obj.set_velocity v t)]> (heap w)) w) ∧
    Vec_eq v (Vec_add (Obj.velocity t)
                (key_step keypress (Obj.xVelocity t) (Obj.yVelocity t) keyCode)).
Proof.
  intros Ht. unfold Player_handleKeyDown, key_step, key_direction.
  rewrite (bind_Ok _ _ _ _ _ (deref_Ok _ _ _ Ht)).
  repeat case_bool_decide;
    try (rewrite (update_obj_Ok _ _ _ _ Ht); eexists; split; [reflexivity|];
         split; cbn; unfold Qminus; ring).
  exists (Obj.velocity t). split.
  - cbn [default from_option id].
    by rewrite set_velocity_same, set_direction_same, set_heap_same.
  - split; cbn; ring.
Qed.

(** One [keyup] event on a player in the store. *)
Lemma Player_handleKeyUp_Ok keypress this keyCode w t :
  heap w !! this = Some t →
  Player_handleKeyUp keypress this keyCode w =
    Ok tt (set_heap
             (<[this := Obj.set_velocity
                          (match key_axis keypress keyCode with
                           | Some Vertical => Vec.set_y 0 (Obj.velocity t)
                           | Some Horizontal => Vec.set_x 0 (Obj.velocity t)
                           | None => Obj.velocity t
                           end) t]> (heap w)) w).
Proof.
  intros Ht. unfold Player_handleKeyUp, key_axis.
  rewrite (bind_Ok _ _ _ _ _ (deref_Ok _ _ _ Ht)).
  repeat case_bool_decide; try (by rewrite (update_obj_Ok _ _ _ _ Ht)).
  by rewrite set_velocity_same, set_heap_same.
Qed.

Lemma keysDown_Ok keypress this keyCodes : ∀ w t,
  heap w !! this = Some t →
  ∃ v,
    keysDown keypress this keyCodes w =
      Ok tt (set_heap
               (<[this := Obj.set_direction
                            (facing keypress (Obj.direction t) keyCodes)
                            (Obj.set_velocity v t)]> (heap w)) w) ∧
    Vec_eq v (Vec_add (Obj.velocity t)
                (Vec_sum (key_step keypress (Obj.xVelocity t) (Obj.yVelocity t)
                            <$> keyCodes))).
Proof.
  induction keyCodes as [|k ks IH]; intros w t Ht.
  - exists (Obj.velocity t). split.
    + cbn. by rewrite set_velocity_same, set_direction_same, set_heap_same.
    + split; cbn; ring.
  - destruct (Player_handleKeyDown_Ok keypress this k w t Ht) as (v1 & Hrun & Hv1).
    set (t1 := Obj.set_direction _ _) in Hrun.
    set (w1 := set_heap _ w) in Hrun.
    assert (heap w1 !! this = Some t1) as Ht1
      by (subst w1; cbn -[lookup insert]; apply lookup_insert_eq).
    destruct (IH w1 _ Ht1) as (v & Hrest & Hv).
    exists v. split.
    + unfold keysDown. cbn [forOf]. rewrite (bind_Ok _ _ _ _ _ Hrun).
      fold (keysDown keypress this ks). rewrite Hrest. subst w1.
      by rewrite set_heap_twice.
    + subst t1.
      cbn [Obj.xVelocity Obj.yVelocity Obj.velocity Obj.set_velocity
           Obj.set_direction] in Hv.
      eapply Vec_eq_trans; [exact Hv|].
      eapply Vec_eq_trans;
        [apply Vec_add_proper; [exact Hv1 | apply Vec_eq_refl]|].
      apply Vec_add_assoc.
Qed.

(** X2 (Player.handleKeyDown).  Every [keydown] event adds its step to
    the velocity and turns the player: after the events [keyCodes], in
    any order and with any repetition, the velocity is the starting one
    plus the sum of their steps, the direction is that of the last key
    that is bound to one, and nothing else of the player has changed. *)
Theorem keysDown_velocity keypress this keyCodes w t :
  heap w !! this = Some t →
  ∃ w' v,
    keysDown keypress this keyCodes w = Ok tt w' ∧
    heap w' !! this =
      Some (Obj.set_direction (facing keypress (Obj.direction t) keyCodes)
                              (Obj.set_velocity v t)) ∧
    Vec_eq v (Vec_add (Obj.velocity t)
                (Vec_sum (key_step keypress (Obj.xVelocity t) (Obj.yVelocity t)
                            <$> keyCodes))).
Proof.
  intros Ht. destruct (keysDown_Ok keypress this keyCodes w t Ht) as (v & Hrun & Hv).
  eexists _, v. split; [exact Hrun|]. split; [|exact Hv].
  cbn -[lookup insert]. apply lookup_insert_eq.
Qed.

Lemma Vec_sum_replicate n s :
  Vec_eq (Vec_sum (replicate n s))
         (Vec.mk (inject_Z (Z.of_nat n) * Vec.x s)%Q (inject_Z (Z.of_nat n) * Vec.y s)%Q).
Proof.
  induction n as [|n [IHx IHy]].
  - split; cbn; ring.
  - rewrite Nat2Z.inj_succ. unfold Z.succ. rewrite inject_Z_plus.
    split; cbn -[inject_Z Z.of_nat]; fold (Vec_sum (replicate n s));
      [rewrite IHx | rewrite IHy]; cbn -[inject_Z Z.of_nat]; ring.
Qed.

(** X3 (Player.handleKeyDown).  A key that is held down accelerates the
    player: the browser repeats the [keydown] event, and after [n] events
    for the key bound to [down] the vertical velocity has grown by [n]
    steps. *)
Theorem key_repeat_accelerates keypress this n w t :
  heap w !! this = Some t →
  Keypress.down keypress ≠ Keypress.up keypress →
  Keypress.down keypress ≠ Keypress.left keypress →
  ∃ w' t',
    keysDown keypress this (replicate n (Keypress.down keypress)) w = Ok tt w' ∧
    heap w' !! this = Some t' ∧
    (Vec.y (Obj.velocity t') ==
       Vec.y (Obj.velocity t) + inject_Z (Z.of_nat n) * Obj.yVelocity t)%Q ∧
    (Vec.x (Obj.velocity t') == Vec.x (Obj.velocity t))%Q.
Proof.
  intros Ht Hup Hleft.
  destruct (keysDown_Ok keypress this (replicate n (Keypress.down keypress)) w t Ht)
    as (v & Hrun & Hx & Hy).
  eexists _, _. split; [exact Hrun|]. split.
  { cbn -[lookup insert]. apply lookup_insert_eq. }
  rewrite fmap_replicate in Hx, Hy.
  destruct (Vec_sum_replicate n
              (key_step keypress (Obj.xVelocity t) (Obj.yVelocity t)
                        (Keypress.down keypress))) as [Sx Sy].
  cbn [Vec_add Vec.x Vec.y] in Hx, Hy. rewrite Sx in Hx. rewrite Sy in Hy.
  unfold key_step in Hx, Hy.
  rewrite !(bool_decide_eq_false_2 _ Hup), !(bool_decide_eq_false_2 _ Hleft),
    !bool_decide_eq_true_2 in Hx, Hy by done.
  cbn [Vec.x Vec.y Obj.velocity Obj.set_velocity] in *.
  split; [rewrite Hy; reflexivity | rewrite Hx; ring].
Qed.

(** X4 (Player.handleKeyUp).  Releasing a key stops its whole axis,
    whatever else is held: after any [keydown] events, the [keyup] of a
    vertical key leaves the vertical velocity at exactly [0] and the
    horizontal velocity at the sum of the horizontal steps, and the other
    way round for a horizontal key. *)
Theorem keyUp_stops_axis keypress this keyCodes keyCode axis w t :
  heap w !! this = Some t →
  key_axis keypress keyCode = Some axis →
  ∃ w' t',
    (keysDown keypress this keyCodes;;
     Player_handleKeyUp keypress this keyCode) w = Ok tt w' ∧
    heap w' !! this = Some t' ∧
    let pressed :=
      Vec_add (Obj.velocity t)
        (Vec_sum (key_step keypress (Obj.xVelocity t) (Obj.yVelocity t)
                    <$> keyCodes)) in
    match axis with
    | Vertical =>
        Vec.y (Obj.velocity t') = 0%Q ∧
        (Vec.x (Obj.velocity t') == Vec.x pressed)%Q
    | Horizontal =>
        Vec.x (Obj.velocity t') = 0%Q ∧
        (Vec.y (Obj.velocity t') == Vec.y pressed)%Q
    end.
Proof.
  intros Ht Haxis.
  destruct (keysDown_Ok keypress this keyCodes w t Ht) as (v & Hrun & Hx & Hy).
  set (t1 := Obj.set_direction _ _) in Hrun.
  set (w1 := set_heap _ w) in Hrun.
  assert (heap w1 !! this = Some t1) as Ht1
    by (subst w1; cbn -[lookup insert]; apply lookup_insert_eq).
  eexists _, _. split.
  { rewrite (bind_Ok _ _ _ _ _ Hrun).
    apply (Player_handleKeyUp_Ok keypress this keyCode w1 _ Ht1). }
  split.
  { cbn -[lookup insert]. apply lookup_insert_eq. }
  rewrite Haxis. destruct axis; cbn; split; done.
Qed.

(** ** The velocity through a collision pass *)

Lemma let_through_nil v : let_through [] v = v.
Proof. by destruct v. Qed.

Lemma let_through_cons tp touching v :
  let_through touching (let_through [tp] v) = let_through (tp :: touching) v.
Proof.
  destruct v as [x y]. unfold let_through.
  cbn [existsb Vec.x Vec.y]. rewrite !orb_false_r.
  f_equal.
  - destruct (TouchPoint.left tp), (TouchPoint.right tp),
      (existsb TouchPoint.left touching), (existsb TouchPoint.right touching),
      (Qgtb x 0) eqn:E1, (Qltb x 0) eqn:E2;
      cbn -[Qltb Qgtb]; rewrite ?E1, ?E2; reflexivity.
  - destruct (TouchPoint.top tp), (TouchPoint.bottom tp),
      (existsb TouchPoint.top touching), (existsb TouchPoint.bottom touching),
      (Qgtb y 0) eqn:E1, (Qltb y 0) eqn:E2;
      cbn -[Qltb Qgtb]; rewrite ?E1, ?E2; reflexivity.
Qed.

Lemma handleCollisionState_on_velocity tp t :
  Obj.velocity (handleCollisionState_on tp t) = let_through [tp] (Obj.velocity t).
Proof.
  unfold handleCollisionState_on, let_through.
  cbn [existsb]. rewrite !orb_false_r.
  destruct t as [? ? ? ? ? ? ? ? [x y] ? ? ? ? ? ? ? ? ? ?].
  destruct tp as [? ? top bottom left right].
  cbn -[Qltb Qgtb].
  assert (Qltb 0 0 = false) as Z1 by reflexivity.
  assert (Qgtb 0 0 = false) as Z2 by reflexivity.
  destruct top, bottom, left, right; cbn -[Qltb Qgtb];
    destruct (Qgtb y 0) eqn:E1, (Qltb y 0) eqn:E2,
             (Qltb x 0) eqn:E3, (Qgtb x 0) eqn:E4;
    repeat (cbn -[Qltb Qgtb]; rewrite ?E1, ?E2, ?E3, ?E4, ?Z1, ?Z2);
    reflexivity.
Qed.

Lemma onHit_velocity cd t :
  Obj.velocity (onHit cd t).1 =
    let_through [TouchPoints.this (CollisionData.touchPoints cd)] (Obj.velocity t).
Proof.
  unfold onHit.
  destruct (negb (includes _ (Obj.collisionEvents t))) eqn:E; cbn [fst].
  - rewrite bool_decide_eq_true_2.
    + by rewrite handleCollisionState_on_velocity.
    + cbn. rewrite length_app. cbn. lia.
  - apply negb_false_iff in E. unfold includes in E.
    apply bool_decide_eq_true in E.
    rewrite bool_decide_eq_true_2.
    + by rewrite handleCollisionState_on_velocity.
    + destruct (Obj.collisionEvents t); [by apply elem_of_nil in E | cbn; lia].
Qed.

Lemma visit_velocity cd t d :
  Obj.velocity (visit cd t d).1.1 =
    if CollisionData.hit cd
    then let_through [TouchPoints.this (CollisionData.touchPoints cd)]
                     (Obj.velocity t)
    else Obj.velocity t.
Proof.
  unfold visit. destruct (CollisionData.hit cd); [|done].
  pose proof (onHit_velocity cd (Obj.set_collisionData (Some cd) t)) as H.
  destruct (onHit cd _) as [t2 evs]. exact H.
Qed.

Lemma omap_ext_elem {A B} (f g : A → option B) (l : list A) :
  (∀ a, a ∈ l → f a = g a) → omap f l = omap g l.
Proof.
  induction l as [|a l IH]; intros H; [done|].
  cbn. rewrite (H a) by left. rewrite IH; [done|].
  intros b Hb. apply H. by right.
Qed.

Lemma touchPointsOf_shape h t t' gs :
  shape t' = shape t → touchPointsOf h t' gs = touchPointsOf h t gs.
Proof.
  intros Hs. unfold touchPointsOf. apply omap_ext_elem.
  intros g _. by rewrite (collisionWith_shape h t t' g Hs).
Qed.

Lemma scan_velocity h this objs : ∀ t d t' d' evs,
  scan h this objs t d = Some (t', d', evs) →
  Obj.velocity t' =
    let_through (touchPointsOf h t (hitsIn h this t objs)) (Obj.velocity t).
Proof.
  induction objs as [|g objs IH]; intros t d t' d' evs Hscan.
  - cbn in Hscan. injection Hscan as <- <- <-.
    by rewrite let_through_nil.
  - cbn [scan] in Hscan. rewrite hitsIn_cons.
    destruct (is_partner h this g) eqn:Hp; [|by apply IH in Hscan].
    destruct (collisionWith h t g) as [cd|] eqn:Hcd; [|done].
    destruct (visit_spec cd t d) as (Hs1 & _).
    pose proof (visit_velocity cd t d) as Hv1.
    destruct (visit cd t d) as [[t1 d1] evs1]. cbn [fst snd] in *.
    destruct (scan h this objs t1 d1) as [[[t2 d2] evs2]|] eqn:Hscan2; [|done].
    injection Hscan as <- <- <-.
    apply IH in Hscan2.
    rewrite (hitsIn_shape h this t t1 objs Hs1),
      (touchPointsOf_shape h t t1 _ Hs1) in Hscan2.
    assert (is_hit h t g = CollisionData.hit cd) as ->
      by (unfold is_hit; by rewrite Hcd).
    cbn [andb]. rewrite Hscan2, Hv1.
    destruct (CollisionData.hit cd); [|done].
    rewrite let_through_cons. unfold touchPointsOf at 2.
    cbn [omap list_omap]. by rewrite Hcd.
Qed.

(** The collision pass, with what it leaves of the velocity. *)
Lemma collisionChecks_run w this t :
  heap w !! this = Some t →
  ready w this = true →
  registry_ready w = true →
  ∃ t' evs,
    collisionChecks this w = Ok tt (with_this this t' evs w) ∧
    shape t' = shape t ∧
    Obj.velocity t' =
      let_through (touchPointsOf (heap w) t (hits w this)) (Obj.velocity t).
Proof.
  intros Ht Hready Hreg.
  destruct (ready_inv _ _ _ Ht Hready) as (Hc & Hs & _).
  destruct (scan_is_Some (heap w) this (gameObjects w) t false Hc Hs Hreg)
    as [[[t' d] evs] Hscan].
  pose proof (collisionChecks_Ok w this t t' d evs Ht
                (registry_ready_in_store w Hreg) Hscan) as Hrun.
  pose proof (scan_velocity _ _ _ _ _ _ _ _ Hscan) as Hv.
  apply scan_spec in Hscan as (Hsh & _).
  rewrite (hits_at w this t Ht).
  eexists _, evs. split; [exact Hrun|].
  destruct d; done.
Qed.

(** X5 (GameObject.collisionChecks, handleCollisionState).  Unlike the
    movement flags, the blocking of the velocity adds up over the pass: a
    velocity component is set to [0] as soon as one of the partners that
    hit touches on the side it points to, and is left alone otherwise. *)
Theorem collisionChecks_velocity w this t :
  heap w !! this = Some t →
  ready w this = true →
  registry_ready w = true →
  ∃ w' t',
    collisionChecks this w = Ok tt w' ∧
    heap w' !! this = Some t' ∧
    Obj.velocity t' =
      let_through (touchPointsOf (heap w) t (hits w this)) (Obj.velocity t).
Proof.
  intros Ht Hready Hreg.
  destruct (collisionChecks_run w this t Ht Hready Hreg) as (t' & evs & Hrun & _ & Hv).
  eexists _, t'. split; [exact Hrun|]. split; [apply lookup_with_this | exact Hv].
Qed.

(** ** A whole update of a moving character *)

Lemma is_partner_insert_this h this t0 g :
  is_partner (<[this := t0]> h) this g = is_partner h this g.
Proof.
  unfold is_partner. destruct (decide (this = g)) as [->|Hne].
  - by rewrite !bool_decide_eq_true_2.
  - by rewrite lookup_insert_ne.
Qed.

Lemma is_hit_insert_this h this t0 t g :
  is_partner h this g = true → is_hit (<[this := t0]> h) t g = is_hit h t g.
Proof.
  intros Hp. unfold is_partner in Hp. apply andb_true_iff in Hp as [Hne _].
  apply negb_true_iff, bool_decide_eq_false in Hne.
  unfold is_hit, collisionWith. by rewrite lookup_insert_ne.
Qed.

Lemma hitsIn_insert_this h this t0 t objs :
  hitsIn (<[this := t0]> h) this t objs = hitsIn h this t objs.
Proof.
  induction objs as [|g objs IH]; [done|].
  rewrite !hitsIn_cons, is_partner_insert_this, IH.
  destruct (is_partner h this g) eqn:Hp; [|done].
  by rewrite (is_hit_insert_this h this t0 t g Hp).
Qed.

Lemma hitsIn_not_this h this t objs : this ∉ hitsIn h this t objs.
Proof.
  intros Hin. apply hitsIn_elem in Hin as [Hin _].
  induction objs as [|g objs IH]; [by apply elem_of_nil in Hin|].
  rewrite partnersIn_cons in Hin.
  destruct (is_partner h this g) eqn:Hp; [|by apply IH].
  apply elem_of_cons in Hin as [->|Hin]; [|by apply IH].
  unfold is_partner in Hp. by rewrite bool_decide_eq_true_2 in Hp.
Qed.

Lemma touchPointsOf_insert_this h this t0 t gs :
  this ∉ gs → touchPointsOf (<[this := t0]> h) t gs = touchPointsOf h t gs.
Proof.
  intros Hnot. unfold touchPointsOf. apply omap_ext_elem.
  intros g Hg. unfold collisionWith. rewrite lookup_insert_ne; [done|].
  intros ->. done.
Qed.

Lemma Character_update_run w this t p :
  heap w !! this = Some t →
  positions w !! Obj.position t = Some p →
  ready w this = true →
  registry_ready w = true →
  drawable t = true →
  ∃ w' t',
    Character_update this w = Ok tt w' ∧
    heap w' !! this = Some t' ∧
    Obj.position t' = Obj.position t ∧
    env w' = env w ∧
    positions w' !! Obj.position t =
      Some (integrate_and_clamp
              (GameEnv.innerWidth (env w)) (GameEnv.innerHeight (env w))
              (Obj.width t) (Obj.height t) p (passing w this t)).1 ∧
    Obj.velocity t' =
      (integrate_and_clamp
         (GameEnv.innerWidth (env w)) (GameEnv.innerHeight (env w))
         (Obj.width t) (Obj.height t) p (passing w this t)).2.
Proof.
  intros Ht Hp Hready Hreg Hdr.
  destruct (ready_inv _ _ _ Ht Hready) as (Hc & Hs & _).
  unfold has_canvas in Hc. destruct (Obj.canvas t) as [c|] eqn:Hcanvas; [|done].
  pose proof (Character_draw_Ok w this t c p Ht Hcanvas Hp Hs Hdr) as Hdraw.
  assert (drawn w t = Obj.set_canvas
            (Some (Canvas.set_rect
                     (Rect.mk (Vec.x p) (GameEnv.top (env w) + Vec.y p)%Q
                              (Obj.width t) (Obj.height t)) c)) t) as Hdrawn
    by (unfold drawn; by rewrite Hcanvas, Hp).
  rewrite <- Hdrawn in Hdraw.
  set (t0 := drawn w t) in *.
  set (w0 := set_heap _ w) in Hdraw.
  assert (heap w0 !! this = Some t0) as Ht0
    by (subst w0; cbn -[lookup insert]; apply lookup_insert_eq).
  assert (Obj.position t0 = Obj.position t ∧ Obj.width t0 = Obj.width t ∧
          Obj.height t0 = Obj.height t ∧ Obj.velocity t0 = Obj.velocity t ∧
          Obj.spriteData t0 = Obj.spriteData t)
    as (Hpos0 & Hw0 & Hh0 & Hv0 & Hs0) by (by rewrite Hdrawn).
  assert (ready w0 this = true) as Hready0.
  { unfold ready. rewrite Ht0, Hpos0, Hs0. rewrite Hdrawn. cbn -[lookup insert].
    rewrite Hp. destruct Hs as [ts ->].
    rewrite !bool_decide_eq_true_2 by done. done. }
  assert (registry_ready w0 = true) as Hreg0.
  { apply registry_ready_insert; [done|]. by rewrite Hs0. }
  destruct (collisionChecks_run w0 this t0 Ht0 Hready0 Hreg0)
    as (t1 & evs & Hrun & Hsh & Hv1).
  apply shape_fields in Hsh as (_ & _ & _ & _ & Hpos & Hw & Hh).
  assert (Obj.velocity t1 = passing w this t) as Hpass.
  { rewrite Hv1, (hits_at w0 this t0 Ht0), Hv0. unfold passing. fold t0.
    subst w0. cbn -[lookup insert].
    rewrite hitsIn_insert_this, touchPointsOf_insert_this; [done|].
    apply hitsIn_not_this. }
  set (pv := integrate_and_clamp
              (GameEnv.innerWidth (env w)) (GameEnv.innerHeight (env w))
              (Obj.width t) (Obj.height t) p (passing w this t)).
  exists (set_heap (<[this := Obj.set_velocity pv.2 t1]>
                      (heap (with_this this t1 evs w0)))
            (set_positions (<[Obj.position t := pv.1]> (positions w))
               (with_this this t1 evs w0))),
    (Obj.set_velocity pv.2 t1).
  split; [|split; [|split; [|split; [|split]]]].
  - unfold Character_update.
    rewrite (bind_Ok _ _ _ _ _ Hdraw).
    rewrite (bind_Ok _ _ _ _ _ Hrun).
    rewrite (bind_Ok _ _ _ _ _ (deref_Ok _ _ _ (lookup_with_this _ _ _ _))).
    rewrite Hpos, Hw, Hh, Hpos0, Hw0, Hh0, Hpass.
    erewrite bind_Ok; [|apply deref_pos_Ok; exact Hp].
    unfold gets at 1 2. unfold mbind at 1 2, M_bind at 1 2.
    change (env (with_this this t1 evs w0)) with (env w).
    fold pv. destruct pv as [p' v'].
    unfold store_pos, modify. unfold mbind at 1, M_bind at 1.
    erewrite update_obj_Ok; [reflexivity|].
    apply lookup_with_this.
  - cbn -[lookup insert]. apply lookup_insert_eq.
  - cbn. congruence.
  - reflexivity.
  - cbn -[lookup insert]. apply lookup_insert_eq.
  - reflexivity.
Qed.

Lemma update_is_Character_update w this t :
  heap w !! this = Some t →
  Obj.class t = Character ∨ Obj.class t = Player →
  update this w = Character_update this w.
Proof.
  intros Ht Hcls. unfold update.
  rewrite (bind_Ok _ _ _ _ _ (deref_Ok _ _ _ Ht)).
  by destruct Hcls as [-> | ->].
Qed.

(** X6 (Character.update).  What one update does to a character or a
    player whose descriptor has what [draw()] reads: the velocity that
    gets past the partners hitting the freshly drawn object is added to
    the position, then position and velocity go through the four boundary
    tests. *)
Theorem update_blocks_integrates_clamps w this t p :
  heap w !! this = Some t →
  positions w !! Obj.position t = Some p →
  ready w this = true →
  registry_ready w = true →
  drawable t = true →
  Obj.class t = Character ∨ Obj.class t = Player →
  ∃ w' t',
    update this w = Ok tt w' ∧
    heap w' !! this = Some t' ∧
    Obj.position t' = Obj.position t ∧
    positions w' !! Obj.position t =
      Some (integrate_and_clamp
              (GameEnv.innerWidth (env w)) (GameEnv.innerHeight (env w))
              (Obj.width t) (Obj.height t) p (passing w this t)).1 ∧
    Obj.velocity t' =
      (integrate_and_clamp
         (GameEnv.innerWidth (env w)) (GameEnv.innerHeight (env w))
         (Obj.width t) (Obj.height t) p (passing w this t)).2.
Proof.
  intros Ht Hp Hready Hreg Hdr Hcls.
  destruct (Character_update_run w this t p Ht Hp Hready Hreg Hdr)
    as (w' & t' & Hrun & Ht' & Hpos & _ & Hp' & Hv').
  exists w', t'. rewrite (update_is_Character_update w this t Ht Hcls).
  done.
Qed.

Lemma integrate_and_clamp_step W H width height p v :
  (Vec.x (integrate_and_clamp W H width height p v).2 = 0%Q ∨
   Vec.x (integrate_and_clamp W H width height p v).2 = Vec.x v ∧
   Vec.x (integrate_and_clamp W H width height p v).1 = (Vec.x p + Vec.x v)%Q) ∧
  (Vec.y (integrate_and_clamp W H width height p v).2 = 0%Q ∨
   Vec.y (integrate_and_clamp W H width height p v).2 = Vec.y v ∧
   Vec.y (integrate_and_clamp W H width height p v).1 = (Vec.y p + Vec.y v)%Q).
Proof.
  unfold integrate_and_clamp.
  destruct p as [x y], v as [vx vy]. cbn -[Qltb Qgtb].
  destruct (Qgtb (y + vy + height) H) eqn:E1; cbn -[Qltb Qgtb];
  [destruct (Qltb (H - height) 0) eqn:E2 | destruct (Qltb (y + vy) 0) eqn:E2];
  cbn -[Qltb Qgtb];
  (destruct (Qgtb (x + vx + width) W) eqn:E3; cbn -[Qltb Qgtb];
   [destruct (Qltb (W - width) 0) eqn:E4 | destruct (Qltb (x + vx) 0) eqn:E4]);
  cbn -[Qltb Qgtb]; split; auto.
Qed.

Lemma let_through_component touching v :
  (Vec.x (let_through touching v) = 0%Q ∨
   Vec.x (let_through touching v) = Vec.x v) ∧
  (Vec.y (let_through touching v) = 0%Q ∨
   Vec.y (let_through touching v) = Vec.y v).
Proof.
  unfold let_through. cbn [Vec.x Vec.y].
  split; match goal with |- context [if ?b then _ else _] => destruct b end; auto.
Qed.

(** X7 (Character.update).  A velocity component that is not [0] after
    an update was neither blocked by a partner nor clamped at an edge: on
    that axis the object moved by exactly the velocity it had, and kept
    it.  So whenever a collision or an edge interferes, the component is
    [0] afterwards.  The object is one that [draw()] can draw. *)
Theorem update_full_step w this t p :
  heap w !! this = Some t →
  positions w !! Obj.position t = Some p →
  ready w this = true →
  registry_ready w = true →
  drawable t = true →
  Obj.class t = Character ∨ Obj.class t = Player →
  ∃ w' t' p',
    update this w = Ok tt w' ∧
    heap w' !! this = Some t' ∧
    positions w' !! Obj.position t' = Some p' ∧
    (¬ (Vec.x (Obj.velocity t') == 0)%Q →
     Vec.x (Obj.velocity t') = Vec.x (Obj.velocity t) ∧
     Vec.x p' = (Vec.x p + Vec.x (Obj.velocity t))%Q) ∧
    (¬ (Vec.y (Obj.velocity t') == 0)%Q →
     Vec.y (Obj.velocity t') = Vec.y (Obj.velocity t) ∧
     Vec.y p' = (Vec.y p + Vec.y (Obj.velocity t))%Q).
Proof.
  intros Ht Hp Hready Hreg Hdr Hcls.
  destruct (Character_update_run w this t p Ht Hp Hready Hreg Hdr)
    as (w' & t' & Hrun & Ht' & Hpos & _ & Hp' & Hv').
  rewrite <- (update_is_Character_update w this t Ht Hcls) in Hrun.
  eexists w', t', _. rewrite Hpos.
  split; [exact Hrun|]. split; [exact Ht'|]. split; [exact Hp'|].
  rewrite Hv'.
  destruct (integrate_and_clamp_step
              (GameEnv.innerWidth (env w)) (GameEnv.innerHeight (env w))
              (Obj.width t) (Obj.height t) p (passing w this t)) as [Hx Hy].
  destruct (let_through_component
              (touchPointsOf (heap w) (drawn w t)
                 (hitsIn (heap w) this (drawn w t) (gameObjects w)))
              (Obj.velocity t)) as [Lx Ly].
  fold (passing w this t) in Lx, Ly.
  split; intros Hnz.
  - destruct Hx as [Hx | [Hx1 Hx2]]; [by rewrite Hx in Hnz|].
    destruct Lx as [Lx | Lx]; [by rewrite Hx1, Lx in Hnz|].
    rewrite Hx1, Hx2, Lx. done.
  - destruct Hy as [Hy | [Hy1 Hy2]]; [by rewrite Hy in Hnz|].
    destruct Ly as [Ly | Ly]; [by rewrite Hy1, Ly in Hnz|].
    rewrite Hy1, Hy2, Ly. done.
Qed.

(** X30 (GameObject.collisionChecks).  The collision pass of an object
    writes to that object only: every other object, also one it hit, is
    as before, and so are the positions and the game environment; of the
    object itself the pass changes at most the collision data, the
    recorded events, the movement flags and the velocity.  A hit is
    therefore known to the other object only once its own update has
    run. *)
Theorem collisionChecks_only_this w this t :
  heap w !! this = Some t →
  ready w this = true →
  registry_ready w = true →
  ∃ w' t',
    collisionChecks this w = Ok tt w' ∧
    heap w' !! this = Some t' ∧
    shape t' = shape t ∧
    (∀ g, g ≠ this → heap w' !! g = heap w !! g) ∧
    positions w' = positions w ∧
    env w' = env w.
Proof.
  intros Ht Hready Hreg.
  destruct (collisionChecks_run w this t Ht Hready Hreg) as (t' & evs & Hrun & Hsh & _).
  eexists _, t'. split; [exact Hrun|]. split; [apply lookup_with_this|].
  split; [exact Hsh|]. split; [|done].
  intros g Hg. by apply lookup_with_this_ne.
Qed.

(** ** The quiz panel *)

Lemma omap_questionRows_index questions : ∀ k,
  omap (λ row, match row with
               | RowQuestion _ _ questionIndex => Some questionIndex
               | _ => None
               end)
       (imap (λ index question, RowQuestion (k + index + 1) question (k + index))
             questions)
  = seq k (length questions).
Proof.
  induction questions as [|q qs IH]; intros k; [done|].
  cbn [imap omap list_omap length seq]. rewrite Nat.add_0_r. f_equal.
  rewrite <- (IH (S k)). f_equal. apply imap_ext. intros i x _. cbn.
  f_equal; lia.
Qed.

Lemma omap_questionRows_question questions : ∀ k,
  omap (λ row, match row with
               | RowQuestion _ question _ => Some question
               | _ => None
               end)
       (imap (λ index question, RowQuestion (k + index + 1) question (k + index))
             questions)
  = questions.
Proof.
  induction questions as [|q qs IH]; intros k; [done|].
  cbn [imap omap list_omap]. f_equal.
  rewrite <- (IH (S k)) at 2. f_equal. apply imap_ext. intros i x _. cbn.
  f_equal; lia.
Qed.

Lemma inputs_tableOf questions : inputs (tableOf questions) = seq 0 (length questions).
Proof.
  unfold tableOf, inputs, createPromptDisplayTable, questionRows.
  cbn [app omap list_omap]. rewrite omap_app. cbn [omap list_omap].
  rewrite app_nil_r. apply (omap_questionRows_index questions 0).
Qed.

Lemma questionsShown_tableOf questions : questionsShown (tableOf questions) = questions.
Proof.
  unfold tableOf, questionsShown, createPromptDisplayTable, questionRows.
  cbn [app omap list_omap]. rewrite omap_app. cbn [omap list_omap].
  rewrite app_nil_r. apply (omap_questionRows_question questions 0).
Qed.

Lemma updatePromptTable_Ok w npc n :
  Prompt.currentNpc (prompt w) = Some npc →
  heap w !! npc = Some n →
  updatePromptTable w = Ok (tableOf (Obj.questions n)) w.
Proof. intros Hc Hn. unfold updatePromptTable. mrun. reflexivity. Qed.

(** [openPromptPanel] on a page that has the panel and its title element,
    for an NPC whose quiz has a title; an open prompt has its overlay. *)
Lemma openPromptPanel_Ok w npc n q children title :
  Document.promptDropDown (document w) = Some children →
  Document.promptTitle (document w) = Some title →
  heap w !! npc = Some n →
  Obj.quiz n = Some q →
  (Prompt.isOpen (prompt w) = true → (0 < Document.dimDiv (document w))%nat) →
  openPromptPanel npc w =
    Ok tt (set_document
             (Document.mk (Document.gameContainer (document w))
                          (Some [NodeTitle; tableOf (Obj.questions n)])
                          (Some (TitleElement.mk "block" "Questions"))
                          (if Prompt.isOpen (prompt w)
                           then Document.dimDiv (document w)
                           else S (Document.dimDiv (document w))))
             (set_prompt (Prompt.mk true true (Some npc)) w)).
Proof.
  destruct w as [h ps nx e ctl [io dm cn] [gc pd pt dd] hst rc tr].
  cbn -[lookup]. intros -> -> Hn Hq Hdim.
  unfold openPromptPanel, backgroundDim_remove, backgroundDim_create,
    appendChild, updatePromptTable, title_of, set_currentNpc, set_isOpen,
    set_dim, set_dimDiv, set_promptDropDown, set_promptTitle.
  destruct io.
  - destruct dd as [|dd]; [specialize (Hdim eq_refl); lia|].
    mrun; rewrite ?Hq; mrun; reflexivity.
  - mrun; rewrite ?Hq; mrun; reflexivity.
Qed.

(** X8 (Prompt.updatePromptTable).  The table of the current NPC has one
    text input per question, tagged [0], [1], ... in order, and shows the
    questions in the order the NPC holds them. *)
Theorem updatePromptTable_rows w npc n :
  Prompt.currentNpc (prompt w) = Some npc →
  heap w !! npc = Some n →
  ∃ table,
    updatePromptTable w = Ok table w ∧
    inputs table = seq 0 (length (Obj.questions n)) ∧
    questionsShown table = Obj.questions n.
Proof.
  intros Hc Hn. exists (tableOf (Obj.questions n)).
  split; [by apply (updatePromptTable_Ok w npc n)|].
  split; [apply inputs_tableOf | apply questionsShown_tableOf].
Qed.

(** X9 (Prompt.openPromptPanel).  Opening the panel for an NPC with a
    quiz title, on a page with the panel and its title element: the prompt
    is open on that NPC, the panel holds the title and the table of the
    NPC's questions and nothing of what it held before, and there is one
    overlay more than before if the prompt was closed and as many if it
    was open, the old overlay being removed first.  The objects are left
    alone. *)
Theorem openPromptPanel_opens w npc n q children title :
  Document.promptDropDown (document w) = Some children →
  Document.promptTitle (document w) = Some title →
  heap w !! npc = Some n →
  Obj.quiz n = Some q →
  (Prompt.isOpen (prompt w) = true → (0 < Document.dimDiv (document w))%nat) →
  ∃ w' table,
    openPromptPanel npc w = Ok tt w' ∧
    prompt w' = Prompt.mk true true (Some npc) ∧
    Document.promptDropDown (document w') = Some [NodeTitle; table] ∧
    questionsShown table = Obj.questions n ∧
    inputs table = seq 0 (length (Obj.questions n)) ∧
    Document.dimDiv (document w') =
      (if Prompt.isOpen (prompt w) then Document.dimDiv (document w)
       else S (Document.dimDiv (document w))) ∧
    heap w' = heap w ∧ env w' = env w.
Proof.
  intros Hpd Hpt Hn Hq Hdim.
  eexists _, (tableOf (Obj.questions n)).
  split; [exact (openPromptPanel_Ok w npc n q children title Hpd Hpt Hn Hq Hdim)|].
  cbn. repeat split; [apply questionsShown_tableOf | apply inputs_tableOf].
Qed.

(** X10 (Prompt.handleSubmit).  Opening the panel and submitting is a
    round trip for the prompt: it is closed again with the overlays it
    had, the title is hidden, one message is shown, and neither the
    objects nor the game environment have changed: the answers are kept
    nowhere. *)
Theorem open_then_submit w npc n q children title :
  Document.promptDropDown (document w) = Some children →
  Document.promptTitle (document w) = Some title →
  heap w !! npc = Some n →
  Obj.quiz n = Some q →
  Prompt.isOpen (prompt w) = false →
  ∃ w' el,
    (openPromptPanel npc;; handleSubmit) w = Ok tt w' ∧
    Prompt.isOpen (prompt w') = false ∧
    Prompt.dim (prompt w') = false ∧
    Document.dimDiv (document w') = Document.dimDiv (document w) ∧
    Document.promptTitle (document w') = Some el ∧
    TitleElement.display el = "none" ∧
    trace w' = trace w ++ [EvAlert (Some "Your answers have been submitted!")] ∧
    heap w' = heap w ∧ env w' = env w.
Proof.
  intros Hpd Hpt Hn Hq Hio.
  assert (Prompt.isOpen (prompt w) = true → (0 < Document.dimDiv (document w))%nat)
    as Hdim by (rewrite Hio; discriminate).
  rewrite (bind_Ok _ _ _ _ _
             (openPromptPanel_Ok w npc n q children title Hpd Hpt Hn Hq Hdim)).
  rewrite Hio.
  destruct w as [h ps nx e ctl [io dm cn] [gc pd pt dd] hst rc tr].
  unfold handleSubmit, backgroundDim_remove, set_isOpen, set_dim, set_dimDiv,
    set_promptTitle.
  mrun. eexists _, _. split; [reflexivity|]. cbn. done.
Qed.

(** X11 (Prompt.handleSubmit, backgroundDim.remove).  Submitting when no
    overlay is on the page, as a second click on the submit button of the
    panel does, throws after the message was shown; the prompt is left
    closed. *)
Theorem submit_without_overlay w :
  Document.dimDiv (document w) = 0%nat →
  ∃ msg w',
    handleSubmit w = Throw (TypeError msg) w' ∧
    Prompt.isOpen (prompt w') = false ∧
    trace w' = trace w ++ [EvAlert (Some "Your answers have been submitted!")].
Proof.
  destruct w as [h ps nx e ctl [io dm cn] [gc pd pt dd] hst rc tr].
  cbn. intros ->.
  unfold handleSubmit, backgroundDim_remove, set_isOpen, set_dim, set_dimDiv,
    set_promptTitle.
  mrun. eexists _, _. split; [reflexivity|]. done.
Qed.

(** X12 (Prompt.openPromptPanel).  For an NPC whose quiz has no title,
    the panel cannot be opened: the call throws once it reads the title,
    after it has marked the prompt open and emptied the panel.  No overlay
    is added, and the prompt stays marked open. *)
Theorem openPromptPanel_without_title w npc n children title :
  Document.promptDropDown (document w) = Some children →
  Document.promptTitle (document w) = Some title →
  heap w !! npc = Some n →
  Obj.quiz n = None →
  Prompt.isOpen (prompt w) = false →
  ∃ msg w',
    openPromptPanel npc w = Throw (TypeError msg) w' ∧
    Prompt.isOpen (prompt w') = true ∧
    Prompt.currentNpc (prompt w') = Some npc ∧
    Document.promptDropDown (document w') = Some [] ∧
    Document.dimDiv (document w') = Document.dimDiv (document w).
Proof.
  destruct w as [h ps nx e ctl [io dm cn] [gc pd pt dd] hst rc tr].
  cbn -[lookup]. intros -> -> Hn Hq ->.
  unfold openPromptPanel, backgroundDim_remove, backgroundDim_create,
    appendChild, updatePromptTable, title_of, set_currentNpc, set_isOpen,
    set_dim, set_dimDiv, set_promptDropDown, set_promptTitle.
  mrun; rewrite ?Hq; mrun. eexists _, _. split; [reflexivity|]. done.
Qed.

(** ** The interaction key *)

Lemma forOf_noop {A} (l : list A) (body : A → M unit) w :
  (∀ a, body a w = Ok tt w) → forOf l body w = Ok tt w.
Proof.
  intros H. induction l as [|a l IH]; [done|].
  cbn [forOf]. by rewrite (bind_Ok _ _ _ _ _ (H a)).
Qed.

Lemma handleKeyInteract_players w sprite objs : ∀ acc,
  Forall (λ g, is_Some (heap w !! g)) objs →
  forOfAcc objs
    (λ players obj,
       o ← deref obj;
       if match SpriteData.id sprite with
          | Some id => includes id (Obj.collisionEvents o)
          | None => false
          end
       then mret (players ++ [obj]) else mret players) acc w
  = Ok (acc ++ List.filter
                 (λ g, match heap w !! g, SpriteData.id sprite with
                       | Some o, Some id => includes id (Obj.collisionEvents o)
                       | _, _ => false
                       end) objs) w.
Proof.
  induction objs as [|g objs IH]; intros acc Hall.
  - cbn. by rewrite app_nil_r.
  - apply Forall_cons in Hall as [[o Ho] Hall].
    cbn [forOfAcc List.filter]. rewrite Ho.
    destruct (SpriteData.id sprite) as [id|].
    + destruct (includes id (Obj.collisionEvents o)) eqn:E.
      * erewrite bind_Ok;
          [|unfold deref, gets, mbind, M_bind, mret, M_ret; cbv beta; rewrite Ho; cbv beta iota; rewrite E; reflexivity].
        rewrite IH by done. by rewrite <- app_assoc.
      * erewrite bind_Ok;
          [|unfold deref, gets, mbind, M_bind, mret, M_ret; cbv beta; rewrite Ho; cbv beta iota; rewrite E; reflexivity].
        by rewrite IH.
    + erewrite bind_Ok;
        [|unfold deref, gets, mbind, M_bind, mret, M_ret; cbv beta; rewrite Ho; reflexivity].
      by rewrite IH.
Qed.

(** [handleKeyInteract] up to the test of [players] and [hasQuestions]. *)
Lemma handleKeyInteract_unfold w this t sprite :
  heap w !! this = Some t →
  Obj.spriteData t = Some sprite →
  Forall (λ g, is_Some (heap w !! g)) (gameObjects w) →
  handleKeyInteract this w =
    (if bool_decide (0 < length (touchedBy w sprite))%nat
        && bool_decide (0 < length (Obj.questions t))%nat
     then forOf (touchedBy w sprite)
            (λ player,
               isOpen ← gets (λ w, Prompt.isOpen (prompt w));
               if negb isOpen then
                 set_currentNpc (Some this);;
                 openPromptPanel this
               else mret tt)
     else mret tt) w.
Proof.
  intros Ht Hs Hall. unfold handleKeyInteract.
  rewrite (bind_Ok _ _ _ _ _ (deref_Ok _ _ _ Ht)). rewrite Hs.
  erewrite bind_Ok by reflexivity.
  erewrite bind_Ok by reflexivity. cbv beta.
  rewrite (bind_Ok _ _ _ _ _ (handleKeyInteract_players w sprite _ [] Hall)).
  reflexivity.
Qed.

(** X13 (Npc.handleKeyDown, handleKeyInteract).  A key press leaves
    everything as it is when the key is neither [e] nor [u], when the
    NPC has no questions, when no registry object has recorded a collision
    with this NPC, or when the prompt is open. *)
Theorem interaction_key_gates w this t sprite key :
  heap w !! this = Some t →
  Obj.spriteData t = Some sprite →
  Forall (λ g, is_Some (heap w !! g)) (gameObjects w) →
  (key ≠ "e" ∧ key ≠ "u") ∨
  Obj.questions t = [] ∨
  touchedBy w sprite = [] ∨
  Prompt.isOpen (prompt w) = true →
  Npc_handleKeyDown this key w = Ok tt w.
Proof.
  intros Ht Hs Hall Hgate. unfold Npc_handleKeyDown.
  destruct (bool_decide (key = "e") || bool_decide (key = "u")) eqn:Hkey; [|done].
  rewrite (handleKeyInteract_unfold w this t sprite Ht Hs Hall).
  destruct Hgate as [[He Hu] | [Hq | [Hp | Hopen]]].
  - by rewrite !bool_decide_eq_false_2 in Hkey.
  - rewrite Hq. cbn. by rewrite andb_false_r.
  - rewrite Hp. done.
  - destruct (_ && _); [|done].
    apply forOf_noop. intros _. unfold gets, mbind, M_bind. by rewrite Hopen.
Qed.

(** X14 (Npc.handleKeyDown, handleKeyInteract).  With the prompt closed,
    the key [e] or [u] does for an NPC that has questions and was touched
    what one call of [openPromptPanel] does, however many objects
    recorded the collision: the panel is opened once. *)
Theorem interaction_key_opens_once w this t sprite q children title key :
  heap w !! this = Some t →
  Obj.spriteData t = Some sprite →
  Forall (λ g, is_Some (heap w !! g)) (gameObjects w) →
  key = "e" ∨ key = "u" →
  Obj.questions t ≠ [] →
  touchedBy w sprite ≠ [] →
  Prompt.isOpen (prompt w) = false →
  Obj.quiz t = Some q →
  Document.promptDropDown (document w) = Some children →
  Document.promptTitle (document w) = Some title →
  ∃ w',
    Npc_handleKeyDown this key w = Ok tt w' ∧
    openPromptPanel this w = Ok tt w' ∧
    Prompt.isOpen (prompt w') = true ∧
    Document.dimDiv (document w') = S (Document.dimDiv (document w)).
Proof.
  intros Ht Hs Hall Hkey Hq Hp Hopen Hquiz Hpd Hpt.
  assert (Prompt.isOpen (prompt w) = true → (0 < Document.dimDiv (document w))%nat)
    as Hdim by (rewrite Hopen; discriminate).
  pose proof (openPromptPanel_Ok w this t q children title Hpd Hpt Ht Hquiz Hdim)
    as Hrun.
  rewrite Hopen in Hrun.
  eexists. split; [|split; [exact Hrun|done]].
  unfold Npc_handleKeyDown.
  replace (bool_decide (key = "e") || bool_decide (key = "u")) with true
    by (destruct Hkey as [-> | ->]; done).
  rewrite (handleKeyInteract_unfold w this t sprite Ht Hs Hall).
  destruct (touchedBy w sprite) as [|p ps]; [done|].
  assert (0 < length (Obj.questions t))%nat as Hlen
    by (destruct (Obj.questions t); [done | cbn; lia]).
  cbn [length]. rewrite !bool_decide_eq_true_2 by lia. cbn [andb forOf].
  set (w1 := set_prompt (Prompt.mk (Prompt.isOpen (prompt w))
                                   (Prompt.dim (prompt w)) (Some this)) w).
  assert (openPromptPanel this w1 =
            Ok tt (set_document
                     (Document.mk (Document.gameContainer (document w))
                        (Some [NodeTitle; tableOf (Obj.questions t)])
                        (Some (TitleElement.mk "block" "Questions"))
                        (S (Document.dimDiv (document w))))
                     (set_prompt (Prompt.mk true true (Some this)) w))) as Hrun1.
  { rewrite (openPromptPanel_Ok w1 this t q children title); subst w1; try done;
      cbn; rewrite ?Hopen; done. }
  eapply eq_trans.
  { eapply bind_Ok.
    erewrite bind_Ok by reflexivity. cbv beta. rewrite Hopen. cbn [negb].
    erewrite bind_Ok by reflexivity. exact Hrun1. }
  apply forOf_noop. intros _. reflexivity.
Qed.

(** ** What the methods keep *)

Lemma same_kind_refl o : same_kind o o.
Proof. by repeat split. Qed.

Lemma same_kind_trans o1 o2 o3 :
  same_kind o1 o2 → same_kind o2 o3 → same_kind o1 o3.
Proof. intros (?&?&?&?) (?&?&?&?). repeat split; congruence. Qed.

Lemma same_kind_shape o o' : shape o' = shape o → same_kind o o'.
Proof.
  intros H. apply shape_fields in H as (Hc & Hcv & _ & Hs & Hp & _).
  repeat split; congruence.
Qed.

Lemma keeps_refl w : keeps w w.
Proof.
  repeat split; try done. intros g o H. exists o.
  split; [done | apply same_kind_refl].
Qed.

Lemma keeps_trans w1 w2 w3 : keeps w1 w2 → keeps w2 w3 → keeps w1 w3.
Proof.
  intros (Hr1 & Hn1 & Hp1 & Hh1) (Hr2 & Hn2 & Hp2 & Hh2).
  split; [congruence|]. split; [congruence|]. split; [by auto|].
  intros g o Ho. destruct (Hh1 g o Ho) as (o1 & Ho1 & Hk1).
  destruct (Hh2 g o1 Ho1) as (o2 & Ho2 & Hk2).
  exists o2. split; [done|]. by eapply same_kind_trans.
Qed.

Lemma keeping_ret {A} (a : A) : keeping (mret a).
Proof. intros w. apply keeps_refl. Qed.

Lemma keeping_throw {A} e : keeping (@throw A e).
Proof. intros w. apply keeps_refl. Qed.

Lemma keeping_gets {A} (f : World → A) : keeping (gets f).
Proof. intros w. apply keeps_refl. Qed.

Lemma keeping_require {A} (v : option A) msg : keeping (require v msg).
Proof. destruct v; [apply keeping_ret | apply keeping_throw]. Qed.

Lemma keeping_bind {A B} (m : M A) (f : A → M B) :
  keeping m → (∀ a, keeping (f a)) → keeping (m ≫= f).
Proof.
  intros Hm Hf w. unfold mbind, M_bind. specialize (Hm w).
  destruct (m w) as [a w'| |]; [|done|done].
  specialize (Hf a w'). destruct (f a w'); [| |done];
    by eapply keeps_trans.
Qed.

Lemma keeping_modify (f : World → World) :
  (∀ w, keeps w (f w)) → keeping (modify f).
Proof. intros H w. apply H. Qed.

(** A change of the fields that [keeps] does not mention. *)
Ltac keeps_field :=
  intros; unfold keeps; cbn -[lookup insert];
  split; [done|]; split; [done|]; split; [by intros|];
  intros g o H; exists o; split; [done | apply same_kind_refl].

Lemma keeping_emit e : keeping (emit e).
Proof. apply keeping_modify. keeps_field. Qed.

Lemma keeping_alert msg : keeping (alert msg).
Proof. apply keeping_emit. Qed.

Lemma keeping_deref r : keeping (deref r).
Proof.
  unfold deref. apply keeping_bind; [apply keeping_gets|].
  intros [o|]; [apply keeping_ret | apply keeping_throw].
Qed.

Lemma keeping_deref_pos p : keeping (deref_pos p).
Proof.
  unfold deref_pos. apply keeping_bind; [apply keeping_gets|].
  intros [o|]; [apply keeping_ret | apply keeping_throw].
Qed.

Lemma keeps_set_heap w r o o' :
  heap w !! r = Some o →
  same_kind o o' →
  keeps w (set_heap (<[r := o']> (heap w)) w).
Proof.
  intros Ho Hk. unfold keeps. cbn -[lookup insert].
  split; [done|]. split; [done|]. split; [by intros|].
  intros g og Hg. destruct (decide (g = r)) as [->|Hne].
  - exists o'. rewrite lookup_insert_eq. split; [done|]. congruence.
  - exists og. rewrite lookup_insert_ne by done.
    split; [done | apply same_kind_refl].
Qed.

Lemma keeping_update_obj r f :
  (∀ o, same_kind o (f o)) → keeping (update_obj r f).
Proof.
  intros Hf w. unfold update_obj, deref. munfold.
  destruct (heap w !! r) as [o|] eqn:Ho; cbn -[lookup insert].
  - by apply (keeps_set_heap w r o).
  - apply keeps_refl.
Qed.

Lemma keeping_store_pos p v : keeping (store_pos p v).
Proof.
  apply keeping_modify. intros w. unfold keeps. cbn -[lookup insert].
  split; [done|]. split; [done|]. split.
  - intros p' Hp'. destruct (decide (p' = p)) as [->|Hne].
    + rewrite lookup_insert_eq. by eexists.
    + by rewrite lookup_insert_ne.
  - intros g o H. exists o. split; [done | apply same_kind_refl].
Qed.

Lemma keeping_forOf {A} (l : list A) (body : A → M unit) :
  (∀ a, keeping (body a)) → keeping (forOf l body).
Proof.
  intros H. induction l as [|a l IH]; cbn; [apply keeping_ret|].
  apply keeping_bind; [apply H|]. intros _. apply IH.
Qed.

Lemma keeping_forOfAcc {A S} (l : list A) (body : S → A → M S) :
  (∀ s a, keeping (body s a)) → ∀ s, keeping (forOfAcc l body s).
Proof.
  intros H. induction l as [|a l IH]; intros s; cbn; [apply keeping_ret|].
  apply keeping_bind; [apply H|]. intros s'. apply IH.
Qed.

Lemma same_kind_handleCollisionState_on tp o :
  same_kind o (handleCollisionState_on tp o).
Proof.
  apply same_kind_shape. by destruct (handleCollisionState_on_spec tp o).
Qed.

Create HintDb keeping.

Ltac keeping_step :=
  first
    [ solve [auto 1 with keeping nocore]
    | apply keeping_ret | apply keeping_throw | apply keeping_gets
    | apply keeping_require | apply keeping_alert | apply keeping_emit
    | apply keeping_deref | apply keeping_deref_pos | apply keeping_store_pos
    | apply keeping_update_obj; intros ?;
        first [ apply same_kind_handleCollisionState_on
              | by repeat split ]
    | apply keeping_modify; keeps_field
    | apply keeping_forOf; intros
    | apply keeping_forOfAcc; intros
    | apply keeping_bind; [|intros]
    | match goal with
      | |- keeping (if ?b then _ else _) => destruct b
      | |- keeping (match ?x with _ => _ end) => destruct x
      end ].

Ltac keeping_tac := repeat keeping_step.

Lemma keeping_isCollision this other : keeping (isCollision this other).
Proof. unfold isCollision. keeping_tac. Qed.
#[global] Hint Resolve keeping_isCollision : keeping.

Lemma keeping_handleCollisionState this : keeping (handleCollisionState this).
Proof. unfold handleCollisionState. keeping_tac. Qed.
#[global] Hint Resolve keeping_handleCollisionState : keeping.

Lemma keeping_handleCollisionEvent this : keeping (handleCollisionEvent this).
Proof.
  unfold handleCollisionEvent, handleCollisionReaction. keeping_tac.
Qed.
#[global] Hint Resolve keeping_handleCollisionEvent : keeping.

Lemma keeping_collisionChecks this : keeping (collisionChecks this).
Proof.
  unfold collisionChecks, collisionChecks_body. keeping_tac.
Qed.
#[global] Hint Resolve keeping_collisionChecks : keeping.

Lemma keeping_Character_draw this : keeping (Character_draw this).
Proof.
  intros w.
  destruct (Character_draw_outcome w this)
    as [[e ->] | [-> | (t & c & p & Ht & Hc & Hp & ->)]];
    [apply keeps_refl | apply keeps_refl |].
  apply (keeps_set_heap w this t); [done|].
  repeat split. cbn. by rewrite Hc.
Qed.
#[global] Hint Resolve keeping_Character_draw : keeping.

Lemma keeping_Character_update this : keeping (Character_update this).
Proof.
  unfold Character_update. keeping_tac.
Qed.
#[global] Hint Resolve keeping_Character_update : keeping.

Lemma keeping_update this : keeping (update this).
Proof.
  unfold update, Npc_update, Background_update. keeping_tac.
Qed.
#[global] Hint Resolve keeping_update : keeping.

Lemma keeping_Character_resize this : keeping (Character_resize this).
Proof. unfold Character_resize. keeping_tac. Qed.
#[global] Hint Resolve keeping_Character_resize : keeping.

Lemma keeping_resize this : keeping (resize this).
Proof.
  unfold resize, Background_resize. keeping_tac.
Qed.
#[global] Hint Resolve keeping_resize : keeping.

Lemma keeping_GameControl_resize window : keeping (GameControl_resize window).
Proof.
  unfold GameControl_resize, GameEnv_resize, GameEnv_create. keeping_tac.
Qed.
#[global] Hint Resolve keeping_GameControl_resize : keeping.

Lemma keeping_Player_handleKeyDown keypress this keyCode :
  keeping (Player_handleKeyDown keypress this keyCode).
Proof. unfold Player_handleKeyDown. keeping_tac. Qed.
#[global] Hint Resolve keeping_Player_handleKeyDown : keeping.

Lemma keeping_Player_handleKeyUp keypress this keyCode :
  keeping (Player_handleKeyUp keypress this keyCode).
Proof. unfold Player_handleKeyUp. keeping_tac. Qed.
#[global] Hint Resolve keeping_Player_handleKeyUp : keeping.

Lemma keeping_backgroundDim_remove : keeping backgroundDim_remove.
Proof.
  unfold backgroundDim_remove, set_dim, set_dimDiv, set_isOpen, set_promptTitle.
  keeping_tac.
Qed.
#[global] Hint Resolve keeping_backgroundDim_remove : keeping.

Lemma keeping_openPromptPanel npc : keeping (openPromptPanel npc).
Proof.
  unfold openPromptPanel, backgroundDim_create, appendChild, updatePromptTable,
    title_of, set_currentNpc, set_isOpen, set_dim, set_dimDiv,
    set_promptDropDown, set_promptTitle.
  keeping_tac.
Qed.
#[global] Hint Resolve keeping_openPromptPanel : keeping.

Lemma keeping_handleKeyInteract this : keeping (handleKeyInteract this).
Proof.
  unfold handleKeyInteract, set_currentNpc. keeping_tac.
Qed.
#[global] Hint Resolve keeping_handleKeyInteract : keeping.

Lemma keeping_Npc_handleKeyDown this key : keeping (Npc_handleKeyDown this key).
Proof.
  unfold Npc_handleKeyDown. keeping_tac.
Qed.
#[global] Hint Resolve keeping_Npc_handleKeyDown : keeping.

Lemma keeping_exitKeyListener key : keeping (exitKeyListener key).
Proof. unfold exitKeyListener, set_continueLevel. keeping_tac. Qed.
#[global] Hint Resolve keeping_exitKeyListener : keeping.

Lemma keeping_handleSubmit : keeping handleSubmit.
Proof.
  unfold handleSubmit, set_isOpen. keeping_tac.
Qed.
#[global] Hint Resolve keeping_handleSubmit : keeping.

Lemma keeping_handleLevelStart : keeping handleLevelStart.
Proof. unfold handleLevelStart, set_currentPass. keeping_tac. Qed.
#[global] Hint Resolve keeping_handleLevelStart : keeping.

Lemma keeping_stopTimer : keeping stopTimer.
Proof. unfold stopTimer. keeping_tac. Qed.
#[global] Hint Resolve keeping_stopTimer : keeping.

Lemma keeping_shuffleLoop i : ∀ array, keeping (shuffleLoop i array).
Proof.
  induction i as [|i IH]; intros array; cbn [shuffleLoop]; [apply keeping_ret|].
  unfold Math_random. keeping_tac.
Qed.

(** ** The registry stays consistent *)

Lemma keeps_has_canvas o o' : same_kind o o' → has_canvas o' = has_canvas o.
Proof.
  intros (_ & _ & _ & H). unfold has_canvas.
  by destruct (Obj.canvas o), (Obj.canvas o').
Qed.

Lemma keeps_object_at w w' g o :
  keeps w w' → heap w !! g = Some o →
  ∃ o', heap w' !! g = Some o' ∧ same_kind o o' ∧
        object_at w g = o ∧ object_at w' g = o'.
Proof.
  intros (_ & _ & _ & Hh) Ho. destruct (Hh g o Ho) as (o' & Ho' & Hk).
  exists o'. unfold object_at. rewrite Ho, Ho'. done.
Qed.

Lemma consistent_keeps w w' : keeps w w' → consistent w → consistent w'.
Proof.
  intros Hk ((Hnd & Hlt & Hd) & Hrr & Hrd & Hinit).
  pose proof Hk as (Hr & Hn & Hp & Hh).
  unfold consistent, registry_wf, registry_ready. rewrite Hr, Hn.
  split; [split; [done|split; [done|]]|split; [|split]].
  - rewrite forallb_forall in Hd |- *. intros g Hg. specialize (Hd g Hg).
    unfold destroyable in Hd |- *.
    destruct (heap w !! g) as [o|] eqn:Ho; [|done].
    destruct (Hh g o Ho) as (o' & -> & Hc & _ & _ & Hcv).
    rewrite Hc. destruct (Obj.class o); [done| | |];
      destruct (Obj.canvas o), (Obj.canvas o'); cbn in Hcv; congruence.
  - unfold registry_ready in Hrr.
    rewrite forallb_forall in Hrr |- *. intros g Hg. specialize (Hrr g Hg).
    destruct (heap w !! g) as [o|] eqn:Ho; [|done].
    destruct (Hh g o Ho) as (o' & -> & Hko).
    rewrite (keeps_has_canvas o o' Hko).
    destruct Hko as (_ & -> & _). done.
  - rewrite Forall_forall in Hrd |- *. intros g Hg Hcls.
    unfold registry_ready in Hrr. rewrite forallb_forall in Hrr.
    apply list_elem_of_In in Hg as Hg'. specialize (Hrr g Hg').
    destruct (heap w !! g) as [o|] eqn:Ho; [|done].
    destruct (keeps_object_at w w' g o Hk Ho) as (o' & Ho' & Hko & Hat & Hat').
    rewrite Hat' in Hcls.
    assert (ready w g = true) as Hready.
    { apply Hrd; [done|]. rewrite Hat. destruct Hko as (<- & _). done. }
    unfold ready in Hready |- *. rewrite Ho in Hready. rewrite Ho'.
    rewrite (keeps_has_canvas o o' Hko).
    destruct Hko as (_ & -> & -> & _).
    apply andb_true_iff in Hready as [Hready Hpos].
    rewrite Hready. cbn [andb].
    apply bool_decide_eq_true in Hpos. apply bool_decide_eq_true. by apply Hp.
  - by apply Hp.
Qed.

(** ** The constructors *)

(** The world the constructor of a character leaves. *)
Lemma Character_constructor_Ok cls d w p :
  truthy_str (SpriteData.src d) = true →
  Document.gameContainer (document w) = true →
  positions w !! INIT_POSITION = Some p →
  ∃ w',
    Character_constructor cls (Some d) w = Ok (built_ref d w) w' ∧
    heap w' = <[built_ref d w := built cls d w]> (heap w) ∧
    next w' = S (built_ref d w) ∧
    gameObjects w' = gameObjects w ++ [built_ref d w] ∧
    (∀ q, is_Some (positions w !! q) → is_Some (positions w' !! q)) ∧
    positions w' !! built_position d w =
      Some (let p0 := default p (SpriteData.INIT_POSITION d) in
            Vec.mk (Vec.x p0 / GameEnv.innerWidth (env w)
                    * GameEnv.innerWidth (env w))%Q
                   (Vec.y p0 / GameEnv.innerHeight (env w)
                    * GameEnv.innerHeight (env w))%Q) ∧
    GameEnv.set_gameObjects (gameObjects w) (env w') = env w ∧
    control w' = control w ∧ prompt w' = prompt w ∧
    document w' = document w ∧ trace w' = trace w ∧
    randomCalls w' = randomCalls w ∧ host w' = host w.
Proof.
  intros Hsrc Hgc Hp.
  unfold Character_constructor, built_ref, built, built_position.
  cbn [require]. mrun.
  destruct (SpriteData.INIT_POSITION d) as [p0|] eqn:Hinit.
  - unfold alloc_pos, alloc, push, set_gameObjects, Character_resize.
    repeat (mstep || rewrite lookup_insert_eq).
    eexists. split; [reflexivity|]. cbn -[lookup insert].
    rewrite !insert_insert_eq.
    split; [done|]. split; [done|]. split; [done|]. split.
    { intros q Hq. destruct (decide (q = next w)) as [->|Hne].
      - rewrite lookup_insert_eq. by eexists.
      - by rewrite lookup_insert_ne. }
    rewrite lookup_insert_eq. repeat split; try done.
    by destruct (env w).
  - unfold alloc, push, set_gameObjects, Character_resize.
    repeat (mstep || rewrite lookup_insert_eq).
    eexists. split; [reflexivity|]. cbn -[lookup insert].
    rewrite !insert_insert_eq.
    split; [done|]. split; [done|]. split; [done|]. split.
    { intros q Hq. destruct (decide (q = INIT_POSITION)) as [->|Hne].
      - rewrite lookup_insert_eq. by eexists.
      - by rewrite lookup_insert_ne. }
    rewrite lookup_insert_eq. repeat split; try done.
    by destruct (env w).
Qed.

Lemma Character_constructor_Throw cls data w :
  cls ≠ Background →
  accepted cls data = false ∨ Document.gameContainer (document w) = false →
  ∃ e, Character_constructor cls data w = Throw e w.
Proof.
  intros Hcls H. unfold Character_constructor.
  destruct data as [d|]; cbn [require]; [|by eexists].
  mrun. destruct (Document.gameContainer (document w)) eqn:Hgc; mrun;
    [|by eexists].
  destruct H as [H|H]; [|done].
  assert (truthy_str (SpriteData.src d) = false) as ->
    by (by destruct cls).
  by eexists.
Qed.

Lemma Background_constructor_Ok data w :
  Background_constructor data w =
    Ok (next w)
       (set_env (GameEnv.set_gameObjects (gameObjects w ++ [next w]) (env w))
          (set_next (S (next w))
             (set_heap
                (<[next w := Obj.mk Background None Hitbox.empty None []
                               Movement.all data INIT_POSITION (Vec.mk 0 0)
                               (Vec.mk 0 0) 0 0 0 0 0 0 0 None []
                               Direction.down]> (heap w))
                w))).
Proof. reflexivity. Qed.

(** ** Prompt.shuffleArray *)

Lemma insert_head_perm {A} (l : list A) j a b :
  l !! j = Some b → b :: <[j := a]> l ≡ₚ a :: l.
Proof.
  revert j. induction l as [|x l IH]; intros [|j] Hj; try done.
  - cbn in Hj. injection Hj as ->. cbn. apply perm_swap.
  - cbn in Hj. cbn. rewrite (perm_swap x b), (IH j Hj). apply perm_swap.
Qed.

Lemma swap_perm i j array : swap i j array ≡ₚ array.
Proof.
  unfold swap.
  destruct (array !! i) as [a|] eqn:Hi; [|done].
  destruct (array !! j) as [b|] eqn:Hj; [|done].
  revert i j Hi Hj. induction array as [|x l IH]; intros [|i] [|j] Hi Hj;
    try done; cbn in Hi, Hj; cbn.
  - by simplify_eq.
  - injection Hi as ->. by apply insert_head_perm.
  - injection Hj as ->. by apply insert_head_perm.
  - f_equiv. by apply IH.
Qed.

Lemma set_randomCalls_same w : set_randomCalls (randomCalls w) w = w.
Proof. by destruct w. Qed.

Lemma shuffleLoop_Ok i : ∀ array w,
  ∃ array',
    shuffleLoop i array w = Ok array' (set_randomCalls (randomCalls w + i) w) ∧
    array' ≡ₚ array.
Proof.
  induction i as [|i IH]; intros array w.
  - exists array. rewrite Nat.add_0_r, set_randomCalls_same. done.
  - cbn [shuffleLoop]. unfold Math_random. mrun.
    match goal with |- context [shuffleLoop i ?a ?w1] =>
      destruct (IH a w1) as (array' & Hrun & Hperm) end.
    exists array'. rewrite Hrun. cbn.
    split; [by rewrite Nat.add_succ_r|].
    rewrite Hperm. apply swap_perm.
Qed.

Lemma shuffleArray_perm_run array w :
  ∃ array',
    shuffleArray array w =
      Ok array' (set_randomCalls (randomCalls w + (length array - 1)) w) ∧
    array' ≡ₚ array.
Proof. apply shuffleLoop_Ok. Qed.

(** X15 (Prompt.shuffleArray).  The shuffle returns the questions it was
    given, each as often as before, in some order; it draws one random
    number for every element but the first and changes nothing else. *)
Theorem shuffleArray_permutation array w :
  ∃ array',
    shuffleArray array w =
      Ok array' (set_randomCalls (randomCalls w + (length array - 1)) w) ∧
    array' ≡ₚ array.
Proof. apply shuffleLoop_Ok. Qed.

Lemma Npc_constructor_Ok d w p :
  truthy_str (SpriteData.src d) = true →
  Document.gameContainer (document w) = true →
  positions w !! INIT_POSITION = Some p →
  ∃ w' questions,
    Npc_constructor (Some d) w = Ok (built_ref d w) w' ∧
    questions ≡ₚ quiz_questions (Some d) ∧
    heap w' = <[built_ref d w :=
                  Obj.set_quiz (quiz_title (Some d)) questions (built Npc d w)]>
                (heap w) ∧
    next w' = S (built_ref d w) ∧
    gameObjects w' = gameObjects w ++ [built_ref d w] ∧
    (∀ q, is_Some (positions w !! q) → is_Some (positions w' !! q)) ∧
    positions w' !! built_position d w =
      Some (let p0 := default p (SpriteData.INIT_POSITION d) in
            Vec.mk (Vec.x p0 / GameEnv.innerWidth (env w)
                    * GameEnv.innerWidth (env w))%Q
                   (Vec.y p0 / GameEnv.innerHeight (env w)
                    * GameEnv.innerHeight (env w))%Q) ∧
    GameEnv.set_gameObjects (gameObjects w) (env w') = env w ∧
    control w' = control w ∧ document w' = document w ∧ trace w' = trace w.
Proof.
  intros Hsrc Hgc Hp.
  destruct (Character_constructor_Ok Npc d w p Hsrc Hgc Hp)
    as (w1 & Hrun & Hheap & Hnext & Hreg & Hpos & Hposn & Henv & Hctl & _ & Hdoc
          & Htr & _).
  destruct (shuffleArray_perm_run (quiz_questions (Some d)) w1)
    as (questions & Hsh & Hperm).
  eexists _, questions. split.
  { unfold Npc_constructor. rewrite (bind_Ok _ _ _ _ _ Hrun).
    rewrite (bind_Ok _ _ _ _ _ Hsh).
    erewrite bind_Ok; [reflexivity|].
    apply update_obj_Ok. cbn -[lookup insert]. rewrite Hheap.
    apply lookup_insert_eq. }
  split; [exact Hperm|]. cbn -[lookup insert].
  rewrite Hheap, insert_insert_eq. done.
Qed.

(** The constructors of the classes with a canvas, on a descriptor they
    accept. *)
Lemma construct_Ok cls d w p :
  cls ≠ Background →
  truthy_str (SpriteData.src d) = true →
  Document.gameContainer (document w) = true →
  positions w !! INIT_POSITION = Some p →
  ∃ w' o,
    construct cls (Some d) w = Ok (built_ref d w) w' ∧
    heap w' = <[built_ref d w := o]> (heap w) ∧
    Obj.set_quiz None [] o = built cls d w ∧
    next w' = S (built_ref d w) ∧
    gameObjects w' = gameObjects w ++ [built_ref d w] ∧
    (∀ q, is_Some (positions w !! q) → is_Some (positions w' !! q)) ∧
    positions w' !! built_position d w =
      Some (let p0 := default p (SpriteData.INIT_POSITION d) in
            Vec.mk (Vec.x p0 / GameEnv.innerWidth (env w)
                    * GameEnv.innerWidth (env w))%Q
                   (Vec.y p0 / GameEnv.innerHeight (env w)
                    * GameEnv.innerHeight (env w))%Q) ∧
    GameEnv.set_gameObjects (gameObjects w) (env w') = env w ∧
    control w' = control w ∧ document w' = document w ∧ trace w' = trace w.
Proof.
  intros Hcls Hsrc Hgc Hp. destruct cls; [done| | |].
  - destruct (Character_constructor_Ok Character d w p Hsrc Hgc Hp)
      as (w' & Hrun & Hheap & Hnext & Hreg & Hpos & Hposn & Henv & Hctl & _ & Hdoc
            & Htr & _).
    exists w', (built Character d w). done.
  - destruct (Character_constructor_Ok Player d w p Hsrc Hgc Hp)
      as (w' & Hrun & Hheap & Hnext & Hreg & Hpos & Hposn & Henv & Hctl & _ & Hdoc
            & Htr & _).
    exists w', (built Player d w). done.
  - destruct (Npc_constructor_Ok d w p Hsrc Hgc Hp)
      as (w' & qs & Hrun & _ & Hheap & Hnext & Hreg & Hpos & Hposn & Henv & Hctl
            & Hdoc & Htr).
    exists w', (Obj.set_quiz (quiz_title (Some d)) qs (built Npc d w)). done.
Qed.

(** X16 (Npc constructor).  An NPC built from a descriptor with a source
    holds the title of the descriptor's quiz and all of its questions,
    each as often as the descriptor lists it, in the order the shuffle
    left; it has no question when the descriptor has no quiz. *)
Theorem Npc_constructor_questions d w p :
  truthy_str (SpriteData.src d) = true →
  Document.gameContainer (document w) = true →
  positions w !! INIT_POSITION = Some p →
  ∃ this w' n,
    construct Npc (Some d) w = Ok this w' ∧
    heap w' !! this = Some n ∧
    Obj.class n = Npc ∧
    Obj.quiz n = quiz_title (Some d) ∧
    Obj.questions n ≡ₚ quiz_questions (Some d).
Proof.
  intros Hsrc Hgc Hp.
  destruct (Npc_constructor_Ok d w p Hsrc Hgc Hp)
    as (w' & qs & Hrun & Hperm & Hheap & _).
  eexists _, w', _. split; [exact Hrun|]. split.
  { rewrite Hheap. apply lookup_insert_eq. }
  done.
Qed.

(** X17 (Character constructor).  The constructor of a character, a
    player or an NPC, given a descriptor with a source on a page with the
    game container, returns a new object: it is the last entry of the
    registry, the objects that were there are untouched, its canvas hangs
    in the document under the id of the descriptor or [default], it stands
    still, its scale and step factors are those of the descriptor or 25
    and 100, and its size is the height of the game area divided by the
    scale factor. *)
Theorem constructor_registers cls d w p :
  cls ≠ Background →
  truthy_str (SpriteData.src d) = true →
  Document.gameContainer (document w) = true →
  positions w !! INIT_POSITION = Some p →
  ∃ this w' o c,
    construct cls (Some d) w = Ok this w' ∧
    gameObjects w' = gameObjects w ++ [this] ∧
    (next w ≤ this < next w')%nat ∧
    heap w' !! this = Some o ∧
    (∀ g, g ≠ this → heap w' !! g = heap w !! g) ∧
    Obj.class o = cls ∧
    Obj.canvas o = Some c ∧
    Canvas.parentNode c = true ∧
    Canvas.id c = str_or (SpriteData.id d) "default" ∧
    Obj.spriteData o = Some d ∧
    Obj.velocity o = Vec.mk 0 0 ∧
    Obj.scaleFactor o = num_or (SpriteData.SCALE_FACTOR d) 25 ∧
    Obj.stepFactor o = num_or (SpriteData.STEP_FACTOR d) 100 ∧
    Obj.size o = (GameEnv.innerHeight (env w) / Obj.scaleFactor o)%Q ∧
    Obj.width o = Obj.size o ∧ Obj.height o = Obj.size o ∧
    Obj.xVelocity o = (GameEnv.innerWidth (env w) / Obj.stepFactor o)%Q ∧
    Obj.yVelocity o = (GameEnv.innerHeight (env w) / Obj.stepFactor o)%Q.
Proof.
  intros Hcls Hsrc Hgc Hp.
  destruct (construct_Ok cls d w p Hcls Hsrc Hgc Hp)
    as (w' & o & Hrun & Hheap & Ho & Hnext & Hreg & _).
  exists (built_ref d w), w', o, (Canvas.mk (str_or (SpriteData.id d) "default")
                                     true (Host.layout (host w))).
  split; [exact Hrun|]. split; [exact Hreg|]. split.
  { rewrite Hnext. unfold built_ref. destruct (SpriteData.INIT_POSITION d); lia. }
  split; [rewrite Hheap; apply lookup_insert_eq|]. split.
  { intros g Hg. rewrite Hheap. by apply lookup_insert_ne. }
  assert (∀ {A} (f : Obj.t → A),
            (∀ x, f (Obj.set_quiz None [] x) = f x) →
            f o = f (built cls d w)) as Hfield
    by (intros A f Hf; by rewrite <- Ho, Hf).
  rewrite (Hfield _ Obj.class), (Hfield _ Obj.canvas), (Hfield _ Obj.spriteData),
    (Hfield _ Obj.velocity), (Hfield _ Obj.scaleFactor), (Hfield _ Obj.stepFactor),
    (Hfield _ Obj.size), (Hfield _ Obj.width), (Hfield _ Obj.height),
    (Hfield _ Obj.xVelocity), (Hfield _ Obj.yVelocity) by done.
  done.
Qed.

(** X18 (Character constructor, resize).  The constructor does not
    copy the starting position of the descriptor: its call of [resize]
    rescales it, from the game area, which the constructor has just
    taken as the scale of the object, to the same game area.  The
    position of the new object is the quotient by the width (the height)
    of the game area times that width (that height), in a game area that
    has both. *)
Theorem constructor_rescales_position cls d w p p0 :
  cls ≠ Background →
  truthy_str (SpriteData.src d) = true →
  Document.gameContainer (document w) = true →
  positions w !! INIT_POSITION = Some p →
  SpriteData.INIT_POSITION d = Some p0 →
  ¬ (GameEnv.innerWidth (env w) == 0)%Q →
  ¬ (GameEnv.innerHeight (env w) == 0)%Q →
  ∃ this w',
    construct cls (Some d) w = Ok this w' ∧
    Obj.scale (object_at w' this) =
      Vec.mk (GameEnv.innerWidth (env w)) (GameEnv.innerHeight (env w)) ∧
    position_at w' this =
      Vec.mk (Vec.x p0 / GameEnv.innerWidth (env w)
              * GameEnv.innerWidth (env w))%Q
             (Vec.y p0 / GameEnv.innerHeight (env w)
              * GameEnv.innerHeight (env w))%Q.
Proof.
  intros Hcls Hsrc Hgc Hp Hinit _ _.
  destruct (construct_Ok cls d w p Hcls Hsrc Hgc Hp)
    as (w' & o & Hrun & Hheap & Ho & _ & _ & _ & Hpos & _).
  exists (built_ref d w), w'. split; [exact Hrun|].
  unfold position_at, object_at. rewrite Hheap, lookup_insert_eq.
  change (default _ (Some o)) with o.
  assert (Obj.position o = built_position d w) as ->
    by (change (Obj.position (Obj.set_quiz None [] o) = built_position d w);
        by rewrite Ho).
  assert (Obj.scale o = Obj.scale (built cls d w)) as ->
    by (change (Obj.scale (Obj.set_quiz None [] o) = Obj.scale (built cls d w));
        by rewrite Ho).
  split; [reflexivity|].
  rewrite Hpos, Hinit. reflexivity.
Qed.

(** X19 (Character constructor).  Two objects built from descriptors
    without [INIT_POSITION] share one position object, the module
    constant: whatever the methods do afterwards, the two are at the same
    place. *)
Theorem default_position_shared cls1 cls2 d1 d2 w p :
  cls1 ≠ Background →
  cls2 ≠ Background →
  truthy_str (SpriteData.src d1) = true →
  truthy_str (SpriteData.src d2) = true →
  Document.gameContainer (document w) = true →
  positions w !! INIT_POSITION = Some p →
  SpriteData.INIT_POSITION d1 = None →
  SpriteData.INIT_POSITION d2 = None →
  ∃ a w1 b w2,
    construct cls1 (Some d1) w = Ok a w1 ∧
    construct cls2 (Some d2) w1 = Ok b w2 ∧
    a ≠ b ∧
    ∀ w', keeps w2 w' →
      Obj.position (object_at w' a) = Obj.position (object_at w' b) ∧
      position_at w' a = position_at w' b.
Proof.
  intros Hcls1 Hcls2 Hsrc1 Hsrc2 Hgc Hp Hinit1 Hinit2.
  destruct (construct_Ok cls1 d1 w p Hcls1 Hsrc1 Hgc Hp)
    as (w1 & o1 & Hrun1 & Hheap1 & Ho1 & Hnext1 & _ & _ & Hpos1 & _ & _ & Hdoc1 & _).
  unfold built_position in Hpos1. rewrite Hinit1 in Hpos1.
  rewrite <- Hdoc1 in Hgc.
  destruct (construct_Ok cls2 d2 w1 _ Hcls2 Hsrc2 Hgc Hpos1)
    as (w2 & o2 & Hrun2 & Hheap2 & Ho2 & _).
  exists (built_ref d1 w), w1, (built_ref d2 w1), w2.
  split; [exact Hrun1|]. split; [exact Hrun2|].
  assert (built_ref d1 w ≠ built_ref d2 w1) as Hne.
  { unfold built_ref. rewrite Hinit1, Hinit2, Hnext1.
    unfold built_ref. rewrite Hinit1. lia. }
  split; [exact Hne|].
  assert (heap w2 !! built_ref d1 w = Some o1) as Ha.
  { rewrite Hheap2, lookup_insert_ne by done. rewrite Hheap1.
    apply lookup_insert_eq. }
  assert (heap w2 !! built_ref d2 w1 = Some o2) as Hb
    by (rewrite Hheap2; apply lookup_insert_eq).
  assert (Obj.position o1 = INIT_POSITION) as Hp1.
  { change (Obj.position (Obj.set_quiz None [] o1) = INIT_POSITION).
    rewrite Ho1. cbn. unfold built_position. by rewrite Hinit1. }
  assert (Obj.position o2 = INIT_POSITION) as Hp2.
  { change (Obj.position (Obj.set_quiz None [] o2) = INIT_POSITION).
    rewrite Ho2. cbn. unfold built_position. by rewrite Hinit2. }
  intros w' Hk.
  destruct (keeps_object_at w2 w' _ o1 Hk Ha) as (o1' & _ & (_ & _ & Hk1 & _) & _ & Hat1).
  destruct (keeps_object_at w2 w' _ o2 Hk Hb) as (o2' & _ & (_ & _ & Hk2 & _) & _ & Hat2).
  unfold position_at. rewrite Hat1, Hat2, Hk1, Hk2, Hp1, Hp2. done.
Qed.

(** ** Runs keep the registry consistent *)

Lemma hoare_ret {A} (a : A) P : hoare P (mret a) P.
Proof. intros w H. exact H. Qed.

Lemma hoare_weaken {A} (m : M A) (P P' Q Q' : World → Prop) :
  (∀ w, P' w → P w) → (∀ w, Q w → Q' w) → hoare P m Q → hoare P' m Q'.
Proof.
  intros HP HQ H w Hw. specialize (H w (HP w Hw)).
  destruct (m w); auto.
Qed.

Lemma hoare_bind {A B} (m : M A) (f : A → M B) (P Q R : World → Prop) :
  hoare P m Q → (∀ w, Q w → R w) → (∀ a, hoare Q (f a) R) →
  hoare P (m ≫= f) R.
Proof.
  intros Hm HQR Hf w Hw. unfold mbind, M_bind. specialize (Hm w Hw).
  destruct (m w) as [a w'| |]; [|auto|done].
  exact (Hf a w' Hm).
Qed.

Lemma hoare_seq {A B} (m : M A) (f : A → M B) (P : World → Prop) :
  hoare P m P → (∀ a, hoare P (f a) P) → hoare P (m ≫= f) P.
Proof. intros Hm Hf. by apply (hoare_bind m f P P P). Qed.

Lemma hoare_forOf {A} (l : list A) (body : A → M unit) (P : World → Prop) :
  (∀ a, hoare P (body a) P) → hoare P (forOf l body) P.
Proof.
  intros H. induction l as [|a l IH]; cbn [forOf]; [apply hoare_ret|].
  apply hoare_seq; [apply H | intros _; apply IH].
Qed.

Lemma hoare_keeping {A} (m : M A) : keeping m → hoare consistent m consistent.
Proof.
  intros Hk w Hw. specialize (Hk w).
  destruct (m w); [| |done]; by eapply consistent_keeps.
Qed.

(** The level goes on: an invariant holds and the flag is up. *)
Lemma hoare_running {A} (m : M A) (P : World → Prop) :
  steady m →
  hoare P m P →
  hoare (λ w, P w ∧ GameEnv.continueLevel (env w) = true) m
        (λ w, P w ∧ GameEnv.continueLevel (env w) = true).
Proof.
  intros Hs Hc w [Hw Hflag]. specialize (Hs w). specialize (Hc w Hw).
  destruct (m w); [| |done]; (split; [done|]);
    destruct Hs as (_ & _ & _ & -> & _); done.
Qed.

Lemma consistent_empty w w' :
  consistent w →
  gameObjects w' = [] →
  positions w' = positions w →
  consistent w'.
Proof.
  intros (_ & _ & _ & Hinit) Hr Hp.
  unfold consistent, registry_wf, registry_ready. rewrite Hr, Hp.
  split; [split; [apply NoDup_nil_2 | split; [constructor | done]]|].
  split; [done|]. split; [constructor | done].
Qed.

Lemma consistent_in_store w g :
  consistent w → g ∈ gameObjects w → is_Some (heap w !! g).
Proof.
  intros (_ & Hrr & _) Hg. apply registry_ready_in_store in Hrr.
  rewrite Forall_forall in Hrr. by apply Hrr.
Qed.

Lemma consistent_extend w w' (this : ref) o :
  consistent w →
  (next w ≤ this < next w')%nat →
  gameObjects w' = gameObjects w ++ [this] →
  heap w' = <[this := o]> (heap w) →
  (∀ q, is_Some (positions w !! q) → is_Some (positions w' !! q)) →
  (Obj.class o = Background ∧ Obj.canvas o = None ∨
   (∃ c, Obj.canvas o = Some c ∧ Canvas.parentNode c = true) ∧
   is_Some (Obj.spriteData o) ∧
   is_Some (positions w' !! Obj.position o)) →
  consistent w'.
Proof.
  intros ((Hnd & Hlt & Hd) & Hrr & Hrd & Hinit) Hthis Hr Hh Hp Ho.
  assert (∀ g : ref, g ∈ gameObjects w →
                     g ≠ this ∧ heap w' !! g = heap w !! g) as Hold.
  { intros g Hg. rewrite Forall_forall in Hlt. specialize (Hlt g Hg).
    assert (g ≠ this) by lia. split; [done|].
    rewrite Hh. by apply lookup_insert_ne. }
  assert (heap w' !! this = Some o) as Hnew
    by (rewrite Hh; apply lookup_insert_eq).
  unfold consistent, registry_wf, registry_ready. rewrite Hr.
  split; [split; [|split]|split; [|split]].
  - apply NoDup_app. split; [done|]. split; [|apply NoDup_singleton].
    intros g Hg Hg'. apply list_elem_of_singleton in Hg'.
    by destruct (Hold g Hg).
  - apply Forall_app. split.
    + eapply Forall_impl; [exact Hlt|]. cbn. intros; lia.
    + repeat constructor. lia.
  - rewrite forallb_app. apply andb_true_iff. split.
    + eapply forallb_destroyable_ext; [|exact Hd].
      intros g Hg. by destruct (Hold g Hg).
    + cbn [forallb]. rewrite andb_true_r. unfold destroyable. rewrite Hnew.
      destruct Ho as [[-> _] | ((c & -> & ->) & _)]; [done|].
      by destruct (Obj.class o).
  - rewrite forallb_app. apply andb_true_iff. split.
    + unfold registry_ready in Hrr. rewrite forallb_forall in Hrr |- *.
      intros g Hg. apply list_elem_of_In in Hg as Hg'.
      destruct (Hold g Hg') as [_ ->]. by apply Hrr.
    + cbn [forallb]. rewrite andb_true_r, Hnew. unfold has_canvas.
      destruct Ho as [[_ ->] | ((c & -> & _) & Hs & _)]; [done|].
      by apply bool_decide_eq_true.
  - apply Forall_app. split.
    + rewrite Forall_forall in Hrd |- *. intros g Hg Hcls.
      destruct (Hold g Hg) as [_ Heq].
      unfold object_at in Hcls. rewrite Heq in Hcls.
      specialize (Hrd g Hg Hcls).
      unfold ready in Hrd |- *. rewrite Heq.
      destruct (heap w !! g) as [og|]; [|done].
      apply andb_true_iff in Hrd as [Hrd Hpos]. rewrite Hrd. cbn [andb].
      apply bool_decide_eq_true in Hpos. apply bool_decide_eq_true. by apply Hp.
    + repeat constructor. intros Hcls. unfold object_at in Hcls.
      rewrite Hnew in Hcls. cbn in Hcls.
      destruct Ho as [[Hb _] | ((c & Hc & _) & Hs & Hpos)]; [done|].
      unfold ready. rewrite Hnew. unfold has_canvas. rewrite Hc.
      rewrite !bool_decide_eq_true_2 by done. done.
  - by apply Hp.
Qed.

(** A constructor on a descriptor it accepts, in a consistent world. *)
Lemma construct_accepted cls data w :
  consistent w →
  accepted cls data = true →
  (cls ≠ Background → Document.gameContainer (document w) = true) →
  ∃ this w',
    construct cls data w = Ok this w' ∧
    consistent w' ∧
    gameObjects w' = gameObjects w ++ [this] ∧
    Obj.class (object_at w' this) = cls ∧
    (∀ g, g ∈ gameObjects w → object_at w' g = object_at w g) ∧
    GameEnv.continueLevel (env w') = GameEnv.continueLevel (env w) ∧
    GameEnv.innerWidth (env w') = GameEnv.innerWidth (env w) ∧
    GameEnv.innerHeight (env w') = GameEnv.innerHeight (env w) ∧
    control w' = control w ∧ document w' = document w ∧ trace w' = trace w.
Proof.
  intros Hw Hacc Hgc. pose proof Hw as ((_ & Hlt & _) & _ & _ & [p Hp]).
  destruct (decide (cls = Background)) as [->|Hcls].
  - eexists _, _. cbn [construct].
    split; [apply Background_constructor_Ok|].
    split; [|split; [done|split; [|split; [|done]]]].
    + eapply (consistent_extend w _ (next w)); try done.
      * cbn. lia.
      * by left.
    + unfold object_at. cbn -[lookup insert]. by rewrite lookup_insert_eq.
    + intros g Hg. unfold object_at. cbn -[lookup insert].
      rewrite Forall_forall in Hlt. specialize (Hlt g Hg).
      rewrite lookup_insert_ne by lia. done.
  - specialize (Hgc Hcls).
    destruct data as [d|]; [|by destruct cls].
    assert (truthy_str (SpriteData.src d) = true) as Hsrc by (by destruct cls).
    destruct (construct_Ok cls d w p Hcls Hsrc Hgc Hp)
      as (w' & o & Hrun & Hheap & Ho & Hnext & Hreg & Hpos & Hposn & Henv
            & Hctl & Hdoc & Htr).
    assert (∀ {A} (f : Obj.t → A),
              (∀ x, f (Obj.set_quiz None [] x) = f x) →
              f o = f (built cls d w)) as Hfield
      by (intros A f Hf; by rewrite <- Ho, Hf).
    exists (built_ref d w), w'. split; [exact Hrun|].
    assert (next w ≤ built_ref d w)%nat as Hfresh
      by (unfold built_ref; destruct (SpriteData.INIT_POSITION d); lia).
    split; [|split; [done|split; [|split; [|split; [|split; [|split; [|done]]]]]]].
    + eapply (consistent_extend w w' (built_ref d w) o); try done; [lia|].
      right. rewrite (Hfield _ Obj.canvas), (Hfield _ Obj.spriteData),
        (Hfield _ Obj.position) by done.
      cbn. split; [by eexists|]. split; [by eexists|].
      rewrite Hposn. by eexists.
    + unfold object_at. rewrite Hheap, lookup_insert_eq. cbn.
      by rewrite (Hfield _ Obj.class).
    + intros g Hg. unfold object_at. rewrite Hheap.
      rewrite Forall_forall in Hlt. specialize (Hlt g Hg).
      rewrite lookup_insert_ne by lia. done.
    + apply (f_equal GameEnv.continueLevel) in Henv. exact Henv.
    + apply (f_equal GameEnv.innerWidth) in Henv. exact Henv.
    + apply (f_equal GameEnv.innerHeight) in Henv. exact Henv.
Qed.

(** A constructor on a descriptor it rejects, or on a page without the
    game container. *)
Lemma construct_rejected cls data w :
  cls ≠ Background →
  accepted cls data = false ∨ Document.gameContainer (document w) = false →
  ∃ e, construct cls data w = Throw e w.
Proof.
  intros Hcls H.
  destruct (Character_constructor_Throw cls data w Hcls H) as [e He].
  exists e. destruct cls; [done|exact He|exact He|].
  cbn [construct]. unfold Npc_constructor. by rewrite (bind_Throw _ _ _ _ _ He).
Qed.

(** A new character has the descriptor as its sprite data and faces
    down. *)
Lemma construct_look cls d w this w' :
  is_Some (positions w !! INIT_POSITION) →
  construct cls (Some d) w = Ok this w' →
  cls ≠ Background →
  Obj.spriteData (object_at w' this) = Some d ∧
  Obj.direction (object_at w' this) = Direction.down.
Proof.
  intros [p Hp] Hrun Hcls.
  destruct (accepted cls (Some d)) eqn:Hacc;
    [|destruct (construct_rejected cls (Some d) w Hcls (or_introl Hacc))
        as [e He]; by rewrite He in Hrun].
  destruct (Document.gameContainer (document w)) eqn:Hgc;
    [|destruct (construct_rejected cls (Some d) w Hcls (or_intror Hgc))
        as [e He]; by rewrite He in Hrun].
  assert (truthy_str (SpriteData.src d) = true) as Hsrc by (by destruct cls).
  destruct (construct_Ok cls d w p Hcls Hsrc Hgc Hp)
    as (w1 & o & Hrun1 & Hheap & Ho & _).
  rewrite Hrun in Hrun1. injection Hrun1 as -> ->.
  unfold object_at. rewrite Hheap, lookup_insert_eq.
  change (default _ (Some o)) with o.
  change (Obj.spriteData (Obj.set_quiz None [] o) = Some d ∧
          Obj.direction (Obj.set_quiz None [] o) = Direction.down).
  by rewrite Ho.
Qed.

Lemma hoare_construct cls data :
  hoare consistent (construct cls data) consistent.
Proof.
  intros w Hw.
  destruct (decide (cls = Background)) as [Hb|Hcls].
  - destruct (construct_accepted cls data w Hw) as (this & w' & -> & Hw' & _);
      [by subst|done|done].
  - destruct (accepted cls data) eqn:Hacc;
      [destruct (Document.gameContainer (document w)) eqn:Hgc|].
    + destruct (construct_accepted cls data w Hw Hacc) as (this & w' & -> & Hw' & _);
        done.
    + by destruct (construct_rejected cls data w Hcls (or_intror Hgc)) as [e ->].
    + by destruct (construct_rejected cls data w Hcls (or_introl Hacc)) as [e ->].
Qed.

Lemma consistent_remove w w' (this : ref) i :
  consistent w →
  indexOf this (gameObjects w) = Some i →
  gameObjects w' = delete i (gameObjects w) →
  next w' = next w →
  positions w' = positions w →
  (∀ g, g ≠ this → heap w' !! g = heap w !! g) →
  consistent w'.
Proof.
  intros ((Hnd & Hlt & Hd) & Hrr & Hrd & Hinit) Hi Hr Hn Hp Hh.
  assert (∀ g : ref, g ∈ gameObjects w' →
            g ∈ gameObjects w ∧ heap w' !! g = heap w !! g) as Hold.
  { intros g Hg. rewrite Hr in Hg.
    assert (g ≠ this) as Hne.
    { intros ->. pose proof (indexOf_delete _ _ _ Hnd Hi) as Hdel.
      by apply indexOf_None in Hdel. }
    split; [|by apply Hh].
    eapply elem_of_sublist; [exact Hg | apply sublist_delete]. }
  unfold consistent, registry_wf, registry_ready. rewrite Hn, Hp.
  split; [split; [|split]|split; [|split; [|done]]].
  - rewrite Hr. apply (sublist_NoDup _ _ Hnd), sublist_delete.
  - rewrite Forall_forall in Hlt |- *. intros g Hg.
    apply Hlt. by destruct (Hold g Hg).
  - rewrite forallb_forall in Hd |- *. intros g Hg.
    apply list_elem_of_In in Hg. destruct (Hold g Hg) as [Hin Heq].
    unfold destroyable. rewrite Heq. apply Hd. by apply list_elem_of_In.
  - unfold registry_ready in Hrr. rewrite forallb_forall in Hrr |- *.
    intros g Hg. apply list_elem_of_In in Hg. destruct (Hold g Hg) as [Hin Heq].
    rewrite Heq. apply Hrr. by apply list_elem_of_In.
  - rewrite Forall_forall in Hrd |- *. intros g Hg Hcls.
    destruct (Hold g Hg) as [Hin Heq].
    unfold object_at in Hcls. rewrite Heq in Hcls.
    specialize (Hrd g Hin Hcls). unfold ready in Hrd |- *.
    by rewrite Heq, Hp.
Qed.

Lemma hoare_Character_destroy this :
  hoare consistent (Character_destroy this) consistent.
Proof.
  intros w Hw. unfold Character_destroy. mrun.
  destruct (indexOf this (gameObjects w)) as [i|] eqn:Hi; [|exact Hw].
  destruct (heap w !! this) as [t|] eqn:Ht; mrun; [|exact Hw].
  destruct (Obj.canvas t) as [c|] eqn:Hc; mrun; [|exact Hw].
  destruct (Canvas.parentNode c) eqn:Hpn; mrun; [|exact Hw].
  unfold set_gameObjects. mrun.
  eapply (consistent_remove w _ this i); try done.
  intros g Hg. cbn -[lookup insert]. by rewrite lookup_insert_ne.
Qed.

Lemma hoare_Background_destroy this :
  hoare consistent (Background_destroy this) consistent.
Proof.
  intros w Hw. unfold Background_destroy, set_gameObjects. mrun.
  destruct (indexOf this (gameObjects w)) as [i|] eqn:Hi; [|exact Hw].
  mrun. by eapply (consistent_remove w _ this i).
Qed.

Lemma hoare_destroy this : hoare consistent (destroy this) consistent.
Proof.
  unfold destroy.
  apply hoare_seq; [apply hoare_keeping, keeping_emit|]. intros _.
  apply hoare_seq; [apply hoare_keeping, keeping_deref|]. intros t.
  destruct (Obj.class t);
    [apply hoare_Background_destroy | apply hoare_Character_destroy..].
Qed.

Lemma hoare_destroyLoop n : hoare consistent (destroyLoop n) consistent.
Proof.
  induction n as [|n IH]; cbn [destroyLoop]; [apply hoare_ret|].
  apply hoare_seq; [apply hoare_keeping, keeping_gets|]. intros objs.
  apply hoare_seq; [apply hoare_keeping, keeping_require|]. intros obj.
  apply hoare_seq; [apply hoare_destroy|]. intros _. exact IH.
Qed.

(** X20 (Character.destroy).  Destroying a registered object whose
    canvas hangs in the document removes that object and no other: the
    other entries keep their order and their state, the canvas of the
    object is detached, and the object is no longer in the registry. *)
Theorem destroy_removes_only_this w this o :
  NoDup (gameObjects w) →
  this ∈ gameObjects w →
  heap w !! this = Some o →
  destroyable (heap w) this = true →
  ∃ w' o',
    destroy this w = Ok tt w' ∧
    gameObjects w' = List.filter (λ g, negb (bool_decide (g = this)))
                                 (gameObjects w) ∧
    (this ∉ gameObjects w') ∧
    (∀ g, g ≠ this → heap w' !! g = heap w !! g) ∧
    heap w' !! this = Some o' ∧
    (Obj.class o ≠ Background →
     (Canvas.parentNode <$> Obj.canvas o') = Some false) ∧
    positions w' = positions w.
Proof.
  intros Hnd Hin Ho Hd.
  destruct (indexOf this (gameObjects w)) as [i|] eqn:Hi;
    [|by apply indexOf_None in Hi].
  assert (delete i (gameObjects w) =
            List.filter (λ g, negb (bool_decide (g = this))) (gameObjects w))
    as Hdel.
  { clear Hin Hd. revert i Hi Hnd.
    induction (gameObjects w) as [|x l IH]; intros i Hi Hnd; [done|].
    apply NoDup_cons in Hnd as [Hx Hnd]. cbn [indexOf] in Hi.
    cbn [List.filter]. case_bool_decide as Hxt.
    - subst x. injection Hi as <-. cbn [negb].
      rewrite bool_decide_eq_true_2 by done. cbn.
      symmetry. apply forallb_filter_id.
      rewrite forallb_forall. intros g Hg. apply list_elem_of_In in Hg.
      rewrite bool_decide_eq_false_2; [done|]. by intros ->.
    - destruct (indexOf this l) as [j|] eqn:Hj; [|done].
      injection Hi as <-. rewrite bool_decide_eq_false_2 by (by intros ->).
      cbn. f_equal. by apply IH. }
  unfold destroyable in Hd. rewrite Ho in Hd.
  unfold destroy. mrun.
  destruct (decide (Obj.class o = Background)) as [Hcls|Hcls].
  - rewrite Hcls. unfold Background_destroy, set_gameObjects. mrun.
    eexists _, o. split; [reflexivity|]. cbn -[lookup insert].
    rewrite <- Hdel. split; [done|]. split.
    { apply indexOf_None. by apply indexOf_delete. }
    done.
  - assert (match Obj.class o with
            | Background => Background_destroy this
            | _ => Character_destroy this
            end = Character_destroy this) as ->
      by (by destruct (Obj.class o)).
    destruct (Obj.canvas o) as [c|] eqn:Hc; [|by destruct (Obj.class o)].
    assert (Canvas.parentNode c = true) as Hpn by (by destruct (Obj.class o)).
    unfold Character_destroy, set_gameObjects. mrun.
    eexists _, _. split; [reflexivity|]. cbn -[lookup insert].
    rewrite <- Hdel. split; [done|]. split.
    { apply indexOf_None. by apply indexOf_delete. }
    split; [intros g Hg; by rewrite lookup_insert_ne|].
    split; [apply lookup_insert_eq|]. done.
Qed.

(** ** What an update leaves alone *)

Lemma quiet_refl w : quiet w w.
Proof. by repeat split. Qed.

Lemma quiet_trans w1 w2 w3 : quiet w1 w2 → quiet w2 w3 → quiet w1 w3.
Proof.
  intros (?&?&?&?&?&?&?&?) (?&?&?&?&?&?&?&?). repeat split; congruence.
Qed.

Lemma quietly_ret {A} (a : A) : quietly (mret a).
Proof. intros w. apply quiet_refl. Qed.

Lemma quietly_throw {A} e : quietly (@throw A e).
Proof. intros w. apply quiet_refl. Qed.

Lemma quietly_gets {A} (f : World → A) : quietly (gets f).
Proof. intros w. apply quiet_refl. Qed.

Lemma quietly_require {A} (v : option A) msg : quietly (require v msg).
Proof. destruct v; [apply quietly_ret | apply quietly_throw]. Qed.

Lemma quietly_bind {A B} (m : M A) (f : A → M B) :
  quietly m → (∀ a, quietly (f a)) → quietly (m ≫= f).
Proof.
  intros Hm Hf w. unfold mbind, M_bind. specialize (Hm w).
  destruct (m w) as [a w'| |]; [|done|done].
  specialize (Hf a w'). destruct (f a w'); [| |done];
    by eapply quiet_trans.
Qed.

Lemma animationFrames_app a b :
  animationFrames (a ++ b) = (animationFrames a + animationFrames b)%nat.
Proof. unfold animationFrames. by rewrite List.filter_app, length_app. Qed.

Lemma quietly_emit e :
  e ≠ EvRequestAnimationFrame → (∀ r, e ≠ EvDestroy r) → quietly (emit e).
Proof.
  intros Hf Hd w. unfold emit, modify, quiet. cbn -[animationFrames destroyed].
  rewrite animationFrames_app, destroyed_app.
  repeat split.
  - unfold animationFrames. cbn. rewrite bool_decide_eq_false_2 by done.
    cbn. lia.
  - destruct e; cbn; try by rewrite app_nil_r. by destruct (Hd this).
Qed.

Lemma quietly_deref r : quietly (deref r).
Proof.
  unfold deref. apply quietly_bind; [apply quietly_gets|].
  intros [o|]; [apply quietly_ret | apply quietly_throw].
Qed.

Lemma quietly_deref_pos p : quietly (deref_pos p).
Proof.
  unfold deref_pos. apply quietly_bind; [apply quietly_gets|].
  intros [o|]; [apply quietly_ret | apply quietly_throw].
Qed.

Lemma quietly_update_obj r f : quietly (update_obj r f).
Proof.
  unfold update_obj. apply quietly_bind; [apply quietly_deref|].
  intros o w. by repeat split.
Qed.

Lemma quietly_store_pos p v : quietly (store_pos p v).
Proof. intros w. by repeat split. Qed.

Lemma quietly_forOfAcc {A S} (l : list A) (body : S → A → M S) :
  (∀ s a, quietly (body s a)) → ∀ s, quietly (forOfAcc l body s).
Proof.
  intros H. induction l as [|a l IH]; intros s; cbn; [apply quietly_ret|].
  apply quietly_bind; [apply H|]. intros s'. apply IH.
Qed.

Create HintDb quietly.

Ltac quietly_step :=
  first
    [ solve [auto 1 with quietly nocore]
    | apply quietly_ret | apply quietly_throw | apply quietly_gets
    | apply quietly_require | apply quietly_deref | apply quietly_deref_pos
    | apply quietly_update_obj | apply quietly_store_pos
    | apply quietly_emit; [done | done]
    | apply quietly_forOfAcc; intros
    | apply quietly_bind; [|intros]
    | match goal with
      | |- quietly (if ?b then _ else _) => destruct b
      | |- quietly (match ?x with _ => _ end) => destruct x
      end ].

Ltac quietly_tac := repeat quietly_step.

Lemma quietly_collisionChecks this : quietly (collisionChecks this).
Proof.
  unfold collisionChecks, collisionChecks_body, isCollision,
    handleCollisionEvent, handleCollisionReaction, handleCollisionState, alert.
  quietly_tac.
Qed.
#[global] Hint Resolve quietly_collisionChecks : quietly.

Lemma quietly_Character_draw this : quietly (Character_draw this).
Proof. unfold Character_draw. quietly_tac. Qed.
#[global] Hint Resolve quietly_Character_draw : quietly.

Lemma quietly_update this : quietly (update this).
Proof.
  unfold update, Background_update, Npc_update, Character_update. quietly_tac.
Qed.

(** X21 (Character.update, Npc.update).  An update changes objects and
    positions only: the game environment with the registry, the
    controller, the prompt, the page and the allocator are as before, and
    the update neither requests a frame nor destroys anything, also when
    it throws. *)
Theorem update_is_quiet this w :
  ∃ w', final (update this w) = Some w' ∧ quiet w w'.
Proof.
  pose proof (quietly_update this w) as H.
  destruct (update this w) as [a w'|e w'|]; [| |done]; by exists w'.
Qed.
(** Computations that end in a world related to the starting one. *)
Section Framed.
Variable R : World → World → Prop.
Hypothesis R_refl : ∀ w, R w w.
Hypothesis R_trans : ∀ w1 w2 w3, R w1 w2 → R w2 w3 → R w1 w3.

Lemma framed_ret {A} (a : A) : framed R (mret a).
Proof. intros w. apply R_refl. Qed.

Lemma framed_throw {A} e : framed R (@throw A e).
Proof. intros w. apply R_refl. Qed.

Lemma framed_gets {A} (f : World → A) : framed R (gets f).
Proof. intros w. apply R_refl. Qed.

Lemma framed_require {A} (v : option A) msg : framed R (require v msg).
Proof. destruct v; [apply framed_ret | apply framed_throw]. Qed.

Lemma framed_bind {A B} (m : M A) (f : A → M B) :
  framed R m → (∀ a, framed R (f a)) → framed R (m ≫= f).
Proof.
  intros Hm Hf w. unfold mbind, M_bind. specialize (Hm w).
  destruct (m w) as [a w'| |]; [|done|done].
  specialize (Hf a w'). destruct (f a w'); [| |done];
    by eapply R_trans.
Qed.

Lemma framed_modify (f : World → World) :
  (∀ w, R w (f w)) → framed R (modify f).
Proof. intros H w. apply H. Qed.

Lemma framed_deref r : framed R (deref r).
Proof.
  unfold deref. apply framed_bind; [apply framed_gets|].
  intros [o|]; [apply framed_ret | apply framed_throw].
Qed.
End Framed.

(** ** What an update leaves of the looks *)

Lemma same_look_refl o : same_look o o.
Proof. by repeat split. Qed.

Lemma same_look_trans o1 o2 o3 :
  same_look o1 o2 → same_look o2 o3 → same_look o1 o3.
Proof. intros (?&?&?) (?&?&?). repeat split; congruence. Qed.

Lemma same_look_shape o o' : shape o' = shape o → same_look o o'.
Proof.
  intros H.
  assert (∀ {A} (f : Obj.t → A), (∀ x, f (shape x) = f x) → f o' = f o) as Hf
    by (intros A f Hf; by rewrite <- (Hf o'), <- (Hf o), H).
  repeat split; by apply Hf.
Qed.

Lemma same_look_handleCollisionState_on tp o :
  same_look o (handleCollisionState_on tp o).
Proof.
  apply same_look_shape. by destruct (handleCollisionState_on_spec tp o).
Qed.

Lemma unturned_refl w : unturned w w.
Proof.
  intros g. destruct (heap w !! g) as [o|]; [|done].
  exists o. split; [done | apply same_look_refl].
Qed.

Lemma unturned_trans w1 w2 w3 :
  unturned w1 w2 → unturned w2 w3 → unturned w1 w3.
Proof.
  intros H1 H2 g. specialize (H1 g). specialize (H2 g).
  destruct (heap w1 !! g) as [o1|].
  - destruct H1 as (o2 & Ho2 & Hk1). rewrite Ho2 in H2.
    destruct H2 as (o3 & Ho3 & Hk2).
    exists o3. split; [done|]. by eapply same_look_trans.
  - by rewrite H1 in H2.
Qed.

(** A change of the fields that [unturned] does not mention. *)
Ltac unturned_field :=
  intros; unfold unturned; cbn -[lookup insert];
  let g := fresh "g" in
  intros g;
  match goal with
  | |- match ?h !! g with _ => _ end =>
      destruct (h !! g) as [?o|]; [|done];
      eexists; split; [done | apply same_look_refl]
  end.

Lemma unturned_emit e : framed unturned (emit e).
Proof. apply framed_modify. unturned_field. Qed.

Lemma unturned_deref_pos p : framed unturned (deref_pos p).
Proof.
  unfold deref_pos.
  apply (framed_bind unturned unturned_trans);
    [apply (framed_gets unturned unturned_refl)|].
  intros [o|]; [apply (framed_ret unturned unturned_refl)
               | apply (framed_throw unturned unturned_refl)].
Qed.

Lemma unturned_update_obj r f :
  (∀ o, same_look o (f o)) → framed unturned (update_obj r f).
Proof.
  intros Hf w. unfold update_obj, deref. munfold.
  destruct (heap w !! r) as [o|] eqn:Ho; cbn -[lookup insert];
    [|apply unturned_refl].
  intros g. cbn -[lookup insert]. destruct (decide (g = r)) as [->|Hne].
  - rewrite Ho, lookup_insert_eq. by eexists.
  - rewrite lookup_insert_ne by done.
    destruct (heap w !! g) as [og|]; [|done].
    exists og. split; [done | apply same_look_refl].
Qed.

Lemma unturned_store_pos p v : framed unturned (store_pos p v).
Proof. apply framed_modify. unturned_field. Qed.

Lemma unturned_forOf {A} (l : list A) (body : A → M unit) :
  (∀ a, framed unturned (body a)) → framed unturned (forOf l body).
Proof.
  intros H. induction l as [|a l IH]; cbn;
    [apply (framed_ret unturned unturned_refl)|].
  apply (framed_bind unturned unturned_trans); [apply H|]. intros _. apply IH.
Qed.

Lemma unturned_forOfAcc {A S} (l : list A) (body : S → A → M S) :
  (∀ s a, framed unturned (body s a)) →
  ∀ s, framed unturned (forOfAcc l body s).
Proof.
  intros H. induction l as [|a l IH]; intros s; cbn;
    [apply (framed_ret unturned unturned_refl)|].
  apply (framed_bind unturned unturned_trans); [apply H|]. intros s'. apply IH.
Qed.

Ltac unturned_step :=
  first
    [ apply (framed_ret unturned unturned_refl)
    | apply (framed_throw unturned unturned_refl)
    | apply (framed_gets unturned unturned_refl)
    | apply (framed_require unturned unturned_refl)
    | apply unturned_emit
    | apply (framed_deref unturned unturned_refl unturned_trans)
    | apply unturned_deref_pos | apply unturned_store_pos
    | apply unturned_update_obj; intros ?;
        first [ apply same_look_handleCollisionState_on
              | by repeat split ]
    | apply (framed_modify unturned); unturned_field
    | apply unturned_forOf; intros
    | apply unturned_forOfAcc; intros
    | apply (framed_bind unturned unturned_trans); [|intros]
    | match goal with
      | |- framed unturned (if ?b then _ else _) => destruct b
      | |- framed unturned (match ?x with _ => _ end) => destruct x
      end ].

Lemma unturned_update this : framed unturned (update this).
Proof.
  unfold update, Npc_update, Background_update, Character_update,
    Character_draw, collisionChecks, collisionChecks_body, isCollision,
    handleCollisionEvent, handleCollisionReaction, handleCollisionState, alert.
  repeat unturned_step.
Qed.

Lemma unturned_nominalFrame : framed unturned nominalFrame.
Proof.
  unfold nominalFrame.
  apply (framed_bind unturned unturned_trans);
    [apply (framed_gets unturned unturned_refl)|]. intros objs.
  apply (framed_bind unturned unturned_trans);
    [apply unturned_forOf, unturned_update|]. intros _.
  unfold handleLevelStart, set_currentPass, alert. repeat unturned_step.
Qed.

Lemma all_drawable_unturned w w' :
  gameObjects w' = gameObjects w → unturned w w' →
  all_drawable w → all_drawable w'.
Proof.
  intros Hr Hu Ha g Hg Hcls. rewrite Hr in Hg.
  specialize (Hu g). specialize (Ha g Hg).
  unfold object_at in Ha, Hcls |- *.
  destruct (heap w !! g) as [o|].
  - destruct Hu as (o' & Ho' & Hc & Hs & Hd).
    rewrite Ho' in Hcls |- *.
    change (Obj.class o' ≠ Background) in Hcls.
    change (Obj.class o ≠ Background → drawable o = true) in Ha.
    change (drawable o' = true).
    rewrite Hc in Hcls. specialize (Ha Hcls).
    unfold drawable in Ha |- *. by rewrite Hs, Hd.
  - by rewrite Hu in Hcls.
Qed.


(** ** Frames *)

Lemma gameLoop_nominal fuel w :
  GameEnv.continueLevel (env w) = true →
  gameLoop (S fuel) w = nominalFrame w.
Proof.
  intros Hc. cbn [gameLoop]. unfold gameLoop_body, nominalFrame. munfold.
  by rewrite Hc.
Qed.

Lemma keeping_nominalFrame : keeping nominalFrame.
Proof. unfold nominalFrame. keeping_tac. Qed.

Lemma steady_nominalFrame : steady nominalFrame.
Proof.
  unfold nominalFrame.
  apply steady_bind; [apply steady_gets|]. intros objs.
  apply steady_bind; [apply steady_forOf, steady_update|]. intros _.
  apply steady_bind; [apply steady_handleLevelStart|]. intros _.
  by apply steady_emit.
Qed.

Lemma forallb_same {A} (f g : A → bool) l :
  (∀ a, f a = g a) → forallb f l = forallb g l.
Proof. intros H. induction l as [|a l IH]; [done|]. cbn. by rewrite H, IH. Qed.

Lemma can_update_unturned w w' g :
  unturned w w' → can_update w' g = can_update w g.
Proof.
  intros Hu. specialize (Hu g). unfold can_update, object_at.
  destruct (heap w !! g) as [o|].
  - destruct Hu as (o' & -> & Hc & Hs & Hd).
    change (default _ (Some o')) with o'. change (default _ (Some o)) with o.
    unfold drawable. by rewrite Hc, Hs, Hd.
  - by rewrite Hu.
Qed.

Lemma all_drawable_check w :
  forallb (can_update w) (gameObjects w) = true ↔ all_drawable w.
Proof.
  rewrite forallb_forall. unfold all_drawable, can_update. split.
  - intros H g Hg Hcls. apply list_elem_of_In in Hg. specialize (H g Hg).
    by destruct (Obj.class (object_at w g)).
  - intros H g Hg. apply list_elem_of_In in Hg. specialize (H g Hg).
    destruct (Obj.class (object_at w g)); [done|by apply H..].
Qed.

(** An update of a registry entry of a consistent world returns, if the
    entry can be drawn. *)
Lemma update_Ok w g :
  consistent w →
  g ∈ gameObjects w →
  can_update w g = true →
  ∃ w', update g w = Ok tt w' ∧ keeps w w' ∧ quiet w w' ∧ unturned w w'.
Proof.
  intros Hw Hg Hall.
  assert (∃ w', update g w = Ok tt w') as [w' Hrun].
  { destruct (consistent_in_store w g Hw Hg) as [o Ho].
    pose proof Hw as (_ & Hrr & Hrd & _).
    rewrite Forall_forall in Hrd. specialize (Hrd g Hg).
    unfold can_update in Hall.
    unfold object_at in Hrd, Hall. rewrite Ho in Hrd, Hall.
    change (match Obj.class o with
            | Background => true
            | _ => drawable o
            end = true) in Hall.
    cbn in Hrd.
    destruct (decide (Obj.class o = Background)) as [Hb|Hnb].
    - exists w. unfold update. rewrite (bind_Ok _ _ _ _ _ (deref_Ok _ _ _ Ho)).
      by rewrite Hb.
    - specialize (Hrd Hnb).
      assert (drawable o = true) as Hdr by (by destruct (Obj.class o)).
      destruct (ready_inv w g o Ho Hrd) as (Hc & Hs & [p Hp]).
      destruct (decide (Obj.class o = Npc)) as [Hn|Hnn].
      + unfold has_canvas in Hc.
        destruct (Obj.canvas o) as [c|] eqn:Hcv; [|done].
        eexists. unfold update.
        rewrite (bind_Ok _ _ _ _ _ (deref_Ok _ _ _ Ho)). rewrite Hn.
        apply (Character_draw_Ok w g o c p Ho Hcv Hp Hs Hdr).
      + destruct (Character_update_run w g o p Ho Hp Hrd Hrr Hdr)
          as (w' & t' & Hrun & _).
        exists w'. rewrite (update_is_Character_update w g o Ho); [done|].
        destruct (Obj.class o); auto; done. }
  exists w'. split; [done|].
  pose proof (keeping_update g w) as Hk. pose proof (quietly_update g w) as Hq.
  pose proof (unturned_update g w) as Hu.
  rewrite Hrun in Hk, Hq, Hu. done.
Qed.


Lemma updates_Ok l : ∀ w,
  consistent w →
  (∀ g, g ∈ l → g ∈ gameObjects w) →
  forallb (can_update w) l = true →
  ∃ w', forOf l update w = Ok tt w' ∧ keeps w w' ∧ quiet w w' ∧ unturned w w'.
Proof.
  induction l as [|g l IH]; intros w Hw Hl Hall.
  - exists w. split; [done|].
    split; [apply keeps_refl | split; [apply quiet_refl | apply unturned_refl]].
  - cbn [forallb] in Hall. apply andb_true_iff in Hall as [Hg Hall].
    destruct (update_Ok w g Hw) as (w1 & Hrun & Hk1 & Hq1 & Hu1);
      [apply Hl; by left | exact Hg |].
    destruct (IH w1) as (w' & Hrest & Hk & Hq & Hu).
    { by eapply consistent_keeps. }
    { intros g' Hg'. destruct Hk1 as (-> & _). apply Hl. by right. }
    { rewrite <- Hall. apply forallb_same. intros g'.
      by apply can_update_unturned. }
    exists w'. cbn [forOf]. rewrite (bind_Ok _ _ _ _ _ Hrun).
    split; [done|]. split; [by eapply keeps_trans|].
    split; [by eapply quiet_trans | by eapply unturned_trans].
Qed.


Lemma nominalFrame_Ok w :
  consistent w →
  all_drawable w →
  ∃ w',
    nominalFrame w = Ok tt w' ∧
    keeps w w' ∧
    env w' = env w ∧
    control w' =
      GameControl.set_currentPass (S (GameControl.currentPass (control w)))
                                  (control w) ∧
    document w' = document w ∧ prompt w' = prompt w ∧
    animationFrames (trace w') = S (animationFrames (trace w)) ∧
    destroyed (trace w') = destroyed (trace w).
Proof.
  intros Hw Hall. apply all_drawable_check in Hall.
  destruct (updates_Ok (gameObjects w) w Hw) as (w1 & Hrun & Hk & Hq & _);
    [done|exact Hall|].
  destruct Hq as (Henv & Hctl & Hpr & Hdoc & _ & _ & Hfr & Hds).
  pose proof (keeping_nominalFrame w) as Hkeep.
  unfold nominalFrame in *.
  unfold gets at 1 in Hkeep. unfold gets at 1.
  unfold mbind at 1, M_bind at 1 in Hkeep. unfold mbind at 1, M_bind at 1.
  rewrite (bind_Ok _ _ _ _ _ Hrun) in Hkeep. rewrite (bind_Ok _ _ _ _ _ Hrun).
  unfold handleLevelStart, set_currentPass, alert, emit in *.
  destruct w1 as [h1 ps1 nx1 e1 ctl1 pr1 doc1 hst1 rc1 tr1].
  cbn -[lookup insert animationFrames destroyed] in *. subst.
  revert Hkeep. munfold. cbn -[lookup insert animationFrames destroyed].
  destruct (bool_decide (GameControl.currentLevelIndex (control w) = 0%nat)
            && bool_decide (GameControl.currentPass (control w) = 10%nat));
    cbn -[lookup insert animationFrames destroyed]; intros Hkeep;
    (eexists; split; [reflexivity|]);
    cbn -[lookup insert animationFrames destroyed];
    rewrite ?animationFrames_app, ?destroyed_app, Hfr, Hds, Nat.add_1_r;
    cbn; rewrite ?app_nil_r, ?Nat.add_0_r, ?Nat.add_1_r; done.
Qed.



(** ** Loading a level *)

Lemma classesOf_keeps w w' :
  consistent w → keeps w w' → classesOf w' = classesOf w.
Proof.
  intros Hw Hk. unfold classesOf. pose proof Hk as (-> & _).
  apply list_fmap_ext. intros i g Hg.
  apply list_elem_of_lookup_2 in Hg.
  destruct (consistent_in_store w g Hw Hg) as [o Ho].
  destruct (keeps_object_at w w' g o Hk Ho) as (o' & _ & (Hc & _) & -> & ->).
  done.
Qed.

Lemma constructAll_Ok objects : ∀ w,
  consistent w →
  Document.gameContainer (document w) = true →
  acceptedAll objects = true →
  ∃ w',
    constructAll objects w = Ok tt w' ∧
    consistent w' ∧
    (sheetsAll objects = true → all_drawable w → all_drawable w') ∧
    classesOf w' = classesOf w ++ (LevelObject.class <$> objects) ∧
    GameEnv.continueLevel (env w') = GameEnv.continueLevel (env w) ∧
    control w' = control w ∧ document w' = document w ∧ trace w' = trace w.
Proof.
  induction objects as [|object objects IH]; intros w Hw Hgc Hacc.
  - exists w. rewrite app_nil_r. done.
  - cbn [acceptedAll forallb] in Hacc. apply andb_true_iff in Hacc as [Hacc Hall].
    destruct (construct_accepted _ _ w Hw Hacc (λ _, Hgc))
      as (this & w1 & Hrun & Hw1 & Hreg & Hcls & Hold & Hflag & _ & _ & Hctl & Hdoc
            & Htr).
    destruct (IH w1 Hw1)
      as (w' & Hrest & Hw' & Hdr' & Hclasses & Hflag' & Hctl' & Hdoc' & Htr');
      [by rewrite Hdoc | exact Hall |].
    exists w'. split.
    { unfold constructAll. cbn [forOf].
      erewrite bind_Ok; [exact Hrest|].
      cbv beta zeta. erewrite bind_Ok; [reflexivity | exact Hrun]. }
    split; [done|]. split.
    { intros Hsheets Hdr. cbn [sheetsAll forallb] in Hsheets.
      apply andb_true_iff in Hsheets as [Hsheet Hsheets].
      apply Hdr'; [exact Hsheets|].
      intros g Hg Hc. rewrite Hreg in Hg. apply elem_of_app in Hg as [Hg|Hg].
      - rewrite Hold in Hc |- * by done. by apply Hdr.
      - apply list_elem_of_singleton in Hg as ->.
        rewrite Hcls in Hc.
        pose proof Hw as (_ & _ & _ & Hinit).
        destruct (construct_look _ _ w this w1 Hinit Hrun Hc) as (Hs & Hd).
        unfold drawable. rewrite Hs, Hd.
        destruct (LevelObject.class object); [done|exact Hsheet..]. }
    split; [|repeat split; congruence].
    rewrite Hclasses. unfold classesOf at 1. rewrite Hreg, fmap_app.
    cbn [fmap list_fmap]. rewrite Hcls, <- app_assoc. f_equal.
    apply list_fmap_ext. intros i g Hg. rewrite Hold; [done|].
    by apply list_elem_of_lookup_2 in Hg.
Qed.

Lemma loadLevel_unfold self w (L : Level) :
  GameControl.levelClasses (control w)
    !! GameControl.currentLevelIndex (control w) = Some L →
  loadLevel self w =
    (constructAll (L (GameControl.path (control w))
                     (GameEnv.innerWidth (env w)) (GameEnv.innerHeight (env w)));;
     self)
      (set_control (GameControl.set_currentPass 0 (control w))
         (set_env (GameEnv.set_gameObjects []
                     (GameEnv.set_continueLevel true (env w))) w)).
Proof.
  destruct w as [h ps nx e [pass idx lcs path] pr doc hst rc tr].
  cbn -[lookup]. intros HL.
  unfold loadLevel, loadLevelObjects, constructAll,
    set_continueLevel, set_gameObjects, set_currentPass.
  munfold. cbn -[lookup].
  rewrite bool_decide_eq_false_2
    by (apply Nat.lt_nge; exact (lookup_lt_Some _ _ _ HL)).
  cbn -[lookup]. rewrite HL. reflexivity.
Qed.

Lemma loadLevel_Ok fuel w (L : Level) :
  is_Some (positions w !! INIT_POSITION) →
  GameControl.levelClasses (control w)
    !! GameControl.currentLevelIndex (control w) = Some L →
  Document.gameContainer (document w) = true →
  acceptedAll (L (GameControl.path (control w))
                 (GameEnv.innerWidth (env w)) (GameEnv.innerHeight (env w)))
    = true →
  sheetsAll (L (GameControl.path (control w))
               (GameEnv.innerWidth (env w)) (GameEnv.innerHeight (env w)))
    = true →
  ∃ w',
    loadLevel (gameLoop (S fuel)) w = Ok tt w' ∧
    consistent w' ∧
    all_drawable w' ∧
    classesOf w' =
      LevelObject.class <$> L (GameControl.path (control w))
                              (GameEnv.innerWidth (env w))
                              (GameEnv.innerHeight (env w)) ∧
    GameEnv.continueLevel (env w') = true ∧
    GameControl.currentPass (control w') = 1%nat ∧
    GameControl.currentLevelIndex (control w') =
      GameControl.currentLevelIndex (control w) ∧
    animationFrames (trace w') = S (animationFrames (trace w)) ∧
    destroyed (trace w') = destroyed (trace w).
Proof.
  intros Hinit HL Hgc Hacc Hsheets. rewrite (loadLevel_unfold _ w L HL).
  set (w0 := set_control _ _).
  assert (consistent w0) as Hw0.
  { unfold consistent, registry_wf, registry_ready. subst w0. cbn -[lookup].
    split; [split; [apply NoDup_nil_2 | split; [constructor | done]]|].
    split; [done|]. split; [constructor | done]. }
  assert (all_drawable w0) as Hdr0
    by (intros g Hg; by apply elem_of_nil in Hg).
  destruct (constructAll_Ok _ w0 Hw0 Hgc Hacc)
    as (w1 & Hrun & Hw1 & Hdr1 & Hclasses & Hflag & Hctl & Hdoc & Htr).
  specialize (Hdr1 Hsheets Hdr0).
  rewrite (bind_Ok _ _ _ _ _ Hrun).
  assert (GameEnv.continueLevel (env w1) = true) as Hflag1 by (by rewrite Hflag).
  rewrite (gameLoop_nominal fuel w1 Hflag1).
  destruct (nominalFrame_Ok w1 Hw1 Hdr1)
    as (w' & Hframe & Hk & Henv' & Hctl' & _ & _ & Hfr & Hds).
  pose proof (unturned_nominalFrame w1) as Hu. rewrite Hframe in Hu.
  exists w'. split; [exact Hframe|].
  split; [by eapply consistent_keeps|].
  split; [eapply all_drawable_unturned; [|exact Hu|exact Hdr1]; by destruct Hk|].
  split; [by rewrite (classesOf_keeps w1 w' Hw1 Hk), Hclasses|].
  rewrite Henv', Hctl', Hctl, Hfr, Hds, Htr. done.
Qed.

(** X23 (GameControl.loadLevel, loadLevelObjects).  Loading a level
    whose entries the constructors accept and whose descriptors have
    what [draw()] reads (the size and the grid of the sprite sheet and the
    row [down]), on a page with the game container, returns normally: the
    registry holds one object per entry of the level, of the class of the
    entry and in the order of the entries, and nothing else; the level
    runs, and its first frame has been drawn and has requested the next
    one. *)
Theorem loadLevel_registers fuel w (L : Level) :
  is_Some (positions w !! INIT_POSITION) →
  GameControl.levelClasses (control w)
    !! GameControl.currentLevelIndex (control w) = Some L →
  Document.gameContainer (document w) = true →
  acceptedAll (L (GameControl.path (control w))
                 (GameEnv.innerWidth (env w)) (GameEnv.innerHeight (env w)))
    = true →
  sheetsAll (L (GameControl.path (control w))
               (GameEnv.innerWidth (env w)) (GameEnv.innerHeight (env w)))
    = true →
  ∃ w',
    loadLevel (gameLoop (S fuel)) w = Ok tt w' ∧
    classesOf w' =
      LevelObject.class <$> L (GameControl.path (control w))
                              (GameEnv.innerWidth (env w))
                              (GameEnv.innerHeight (env w)) ∧
    GameEnv.continueLevel (env w') = true ∧
    GameControl.currentPass (control w') = 1%nat ∧
    animationFrames (trace w') = S (animationFrames (trace w)).
Proof.
  intros Hinit HL Hgc Hacc Hsheets.
  destruct (loadLevel_Ok fuel w L Hinit HL Hgc Hacc Hsheets)
    as (w' & Hrun & _ & _ & Hclasses & Hflag & Hpass & _ & Hfr & _).
  by exists w'.
Qed.

(** ** The end of a level, and of the game *)











(** ** The level end, as a whole *)



(** ** Resizing *)

Lemma Character_resize_Ok w this t p :
  heap w !! this = Some t →
  positions w !! Obj.position t = Some p →
  Character_resize this w =
    Ok tt
       (set_heap
          (<[this := Obj.set_geometry
                       (Vec.mk (GameEnv.innerWidth (env w))
                               (GameEnv.innerHeight (env w)))
                       (GameEnv.innerHeight (env w) / Obj.scaleFactor t)%Q
                       (GameEnv.innerWidth (env w) / Obj.stepFactor t)%Q
                       (GameEnv.innerHeight (env w) / Obj.stepFactor t)%Q t]>
             (heap w))
          (set_positions
             (<[Obj.position t :=
                  Vec.mk (Vec.x p / Vec.x (Obj.scale t)
                          * GameEnv.innerWidth (env w))%Q
                         (Vec.y p / Vec.y (Obj.scale t)
                          * GameEnv.innerHeight (env w))%Q]>
                (positions w)) w)).
Proof. intros Ht Hp. unfold Character_resize. mrun. reflexivity. Qed.


Lemma resize_step w this :
  consistent w →
  this ∈ gameObjects w →
  ∃ w',
    resize this w = Ok tt w' ∧
    keeps w w' ∧
    env w' = env w ∧
    (∀ g, g ≠ this → heap w' !! g = heap w !! g) ∧
    (Obj.class (object_at w this) ≠ Background → sized w' (object_at w' this)).
Proof.
  intros Hw Hin.
  destruct (consistent_in_store w this Hw Hin) as [t Ht].
  pose proof Hw as (_ & _ & Hrd & _).
  rewrite Forall_forall in Hrd. specialize (Hrd this Hin).
  assert (object_at w this = t) as Hat by (unfold object_at; by rewrite Ht).
  rewrite Hat in Hrd |- *.
  pose proof (keeping_resize this w) as Hk.
  unfold resize in Hk |- *.
  rewrite (bind_Ok _ _ _ _ _ (deref_Ok _ _ _ Ht)) in Hk |- *.
  destruct (decide (Obj.class t = Background)) as [Hb|Hnb].
  - rewrite Hb in Hk |- *. exists w. split; [done|].
    split; [apply keeps_refl|]. by repeat split.
  - assert (match Obj.class t with
            | Background => Background_resize this
            | _ => Character_resize this
            end = Character_resize this) as Heq
      by (by destruct (Obj.class t)).
    rewrite Heq in Hk |- *.
    destruct (ready_inv w this t Ht (Hrd Hnb)) as (_ & _ & [p Hp]).
    rewrite (Character_resize_Ok w this t p Ht Hp) in Hk |- *.
    eexists. split; [reflexivity|]. split; [exact Hk|]. split; [done|]. split.
    + intros g Hg. cbn -[lookup insert]. by rewrite lookup_insert_ne.
    + intros _. unfold object_at. cbn -[lookup insert].
      rewrite lookup_insert_eq. cbn. by repeat split.
Qed.

Lemma resizes_Ok l : ∀ w,
  consistent w →
  NoDup l →
  (∀ g, g ∈ l → g ∈ gameObjects w) →
  ∃ w',
    forOf l resize w = Ok tt w' ∧
    keeps w w' ∧
    env w' = env w ∧
    (∀ g, g ∉ l → heap w' !! g = heap w !! g) ∧
    (∀ g, g ∈ l → Obj.class (object_at w g) ≠ Background →
          sized w' (object_at w' g)).
Proof.
  induction l as [|x l IH]; intros w Hw Hnd Hl.
  - exists w. split; [done|]. split; [apply keeps_refl|]. split; [done|].
    split; [done|]. intros g Hg. by apply elem_of_nil in Hg.
  - apply NoDup_cons in Hnd as [Hx Hnd].
    destruct (resize_step w x Hw) as (w1 & Hrun & Hk1 & Henv1 & Hh1 & Hs1);
      [apply Hl; by left|].
    assert (consistent w1) as Hw1 by (by eapply consistent_keeps).
    destruct (IH w1 Hw1 Hnd) as (w' & Hrest & Hk & Henv & Hh & Hs).
    { intros g Hg. destruct Hk1 as (-> & _). apply Hl. by right. }
    exists w'. cbn [forOf]. rewrite (bind_Ok _ _ _ _ _ Hrun).
    split; [exact Hrest|]. split; [by eapply keeps_trans|].
    split; [congruence|]. split.
    + intros g Hg. apply not_elem_of_cons in Hg as [Hgx Hgl].
      rewrite Hh by done. by apply Hh1.
    + intros g Hg Hcls. apply elem_of_cons in Hg as [->|Hg].
      * assert (object_at w' x = object_at w1 x) as ->
          by (unfold object_at; by rewrite Hh).
        unfold sized. rewrite Henv. by apply Hs1.
      * apply Hs; [done|].
        destruct (consistent_in_store w g Hw) as [o Ho];
          [apply Hl; by right|].
        destruct (keeps_object_at w w1 g o Hk1 Ho)
          as (o1 & _ & (Hc & _) & Hat & Hat1).
        rewrite Hat1, Hc. by rewrite Hat in Hcls.
Qed.

Lemma GameControl_resize_Ok window w :
  consistent w →
  ∃ w',
    GameControl_resize window w = Ok tt w' ∧
    gameObjects w' = gameObjects w ∧
    GameEnv.innerWidth (env w') = Window.innerWidth window ∧
    GameEnv.innerHeight (env w') =
      (Window.innerHeight window - default 0 (Window.header window)
       - default 0 (Window.footer window))%Q ∧
    GameEnv.top (env w') = default 0%Q (Window.header window) ∧
    ∀ g, g ∈ gameObjects w →
         Obj.class (object_at w g) ≠ Background →
         sized w' (object_at w' g).
Proof.
  intros Hw. unfold GameControl_resize, GameEnv_resize, GameEnv_create.
  erewrite bind_Ok by reflexivity.
  set (w0 := set_env _ w).
  erewrite bind_Ok by reflexivity. cbv beta.
  assert (keeps w w0) as Hk0 by (subst w0; keeps_field).
  assert (consistent w0) as Hw0 by (by eapply consistent_keeps).
  pose proof Hw0 as ((Hnd & _) & _).
  destruct (resizes_Ok (gameObjects w0) w0 Hw0 Hnd) as (w' & Hrun & Hk & Henv & _ & Hs);
    [done|].
  exists w'. split; [exact Hrun|].
  destruct Hk as (Hreg & _). rewrite Hreg, Henv.
  split; [done|]. split; [done|]. split; [done|]. split; [done|].
  intros g Hg Hcls. apply Hs; [done|].
  assert (object_at w0 g = object_at w g) as -> by reflexivity. exact Hcls.
Qed.

(** X29 (GameControl.resize, GameEnv.create).  A resize of the window
    returns normally on a consistent registry: the game area takes the
    width of the window and its height less the header and the footer,
    and every registry object with a canvas is given the scale, the size
    and the steps of the new game area, so that no size is left over from
    the old one. *)
Theorem GameControl_resize_sizes window w :
  consistent w →
  ∃ w',
    GameControl_resize window w = Ok tt w' ∧
    gameObjects w' = gameObjects w ∧
    GameEnv.innerWidth (env w') = Window.innerWidth window ∧
    GameEnv.innerHeight (env w') =
      (Window.innerHeight window - default 0 (Window.header window)
       - default 0 (Window.footer window))%Q ∧
    GameEnv.top (env w') = default 0%Q (Window.header window) ∧
    ∀ g, g ∈ gameObjects w →
         Obj.class (object_at w g) ≠ Background →
         sized w' (object_at w' g).
Proof. apply GameControl_resize_Ok. Qed.
(** ** Sizes follow the game area *)

Lemma same_size_refl o : same_size o o.
Proof. by repeat split. Qed.

Lemma same_size_trans o1 o2 o3 :
  same_size o1 o2 → same_size o2 o3 → same_size o1 o3.
Proof.
  intros (?&?&?&?&?&?&?&?&?) (?&?&?&?&?&?&?&?&?). repeat split; congruence.
Qed.

Lemma same_size_shape o o' : shape o' = shape o → same_size o o'.
Proof.
  intros H.
  assert (∀ {A} (f : Obj.t → A), (∀ x, f (shape x) = f x) → f o' = f o) as Hf
    by (intros A f Hf; by rewrite <- (Hf o'), <- (Hf o), H).
  repeat split; by apply Hf.
Qed.

Lemma same_size_handleCollisionState_on tp o :
  same_size o (handleCollisionState_on tp o).
Proof.
  apply same_size_shape. by destruct (handleCollisionState_on_spec tp o).
Qed.

Lemma settled_refl w : settled w w.
Proof.
  split; [done|]. split; [done|]. split; [done|].
  intros g. destruct (heap w !! g) as [o|]; [|done].
  exists o. split; [done | apply same_size_refl].
Qed.

Lemma settled_trans w1 w2 w3 : settled w1 w2 → settled w2 w3 → settled w1 w3.
Proof.
  intros (Hw1 & Hh1 & Hr1 & Hs1) (Hw2 & Hh2 & Hr2 & Hs2).
  split; [congruence|]. split; [congruence|]. split; [by auto|].
  intros g. specialize (Hs1 g). specialize (Hs2 g).
  destruct (heap w1 !! g) as [o1|].
  - destruct Hs1 as (o2 & Ho2 & Hk1). rewrite Ho2 in Hs2.
    destruct Hs2 as (o3 & Ho3 & Hk2).
    exists o3. split; [done|]. by eapply same_size_trans.
  - by rewrite Hs1 in Hs2.
Qed.

(** A change of the fields that [settled] does not mention. *)
Ltac settled_field :=
  intros; unfold settled; cbn -[lookup insert];
  split; [done|]; split; [done|]; split; [by intros|];
  let g := fresh "g" in
  intros g;
  match goal with
  | |- match ?h !! g with _ => _ end =>
      destruct (h !! g) as [?o|]; [|done];
      eexists; split; [done | apply same_size_refl]
  end.

Lemma settled_emit e : framed settled (emit e).
Proof. apply framed_modify. settled_field. Qed.

Lemma settled_deref_pos p : framed settled (deref_pos p).
Proof.
  unfold deref_pos.
  apply (framed_bind settled settled_trans);
    [apply (framed_gets settled settled_refl)|].
  intros [o|]; [apply (framed_ret settled settled_refl)
               | apply (framed_throw settled settled_refl)].
Qed.

Lemma settled_update_obj r f :
  (∀ o, same_size o (f o)) → framed settled (update_obj r f).
Proof.
  intros Hf w. unfold update_obj, deref. munfold.
  destruct (heap w !! r) as [o|] eqn:Ho; cbn -[lookup insert];
    [|apply settled_refl].
  split; [done|]. split; [done|]. split; [done|].
  intros g. cbn -[lookup insert]. destruct (decide (g = r)) as [->|Hne].
  - rewrite Ho, lookup_insert_eq. by eexists.
  - rewrite lookup_insert_ne by done.
    destruct (heap w !! g) as [og|]; [|done].
    exists og. split; [done | apply same_size_refl].
Qed.

Lemma settled_store_pos p v : framed settled (store_pos p v).
Proof. apply framed_modify. settled_field. Qed.

Lemma settled_forOf {A} (l : list A) (body : A → M unit) :
  (∀ a, framed settled (body a)) → framed settled (forOf l body).
Proof.
  intros H. induction l as [|a l IH]; cbn;
    [apply (framed_ret settled settled_refl)|].
  apply (framed_bind settled settled_trans); [apply H|]. intros _. apply IH.
Qed.

Lemma settled_forOfAcc {A S} (l : list A) (body : S → A → M S) :
  (∀ s a, framed settled (body s a)) → ∀ s, framed settled (forOfAcc l body s).
Proof.
  intros H. induction l as [|a l IH]; intros s; cbn;
    [apply (framed_ret settled settled_refl)|].
  apply (framed_bind settled settled_trans); [apply H|]. intros s'. apply IH.
Qed.

Create HintDb settled.

Ltac settled_step :=
  first
    [ solve [auto 1 with settled nocore]
    | apply (framed_ret settled settled_refl)
    | apply (framed_throw settled settled_refl)
    | apply (framed_gets settled settled_refl)
    | apply (framed_require settled settled_refl)
    | apply settled_emit
    | apply (framed_deref settled settled_refl settled_trans)
    | apply settled_deref_pos | apply settled_store_pos
    | apply settled_update_obj; intros ?;
        first [ apply same_size_handleCollisionState_on
              | by repeat split ]
    | apply (framed_modify settled); settled_field
    | apply settled_forOf; intros
    | apply settled_forOfAcc; intros
    | apply (framed_bind settled settled_trans); [|intros]
    | match goal with
      | |- framed settled (if ?b then _ else _) => destruct b
      | |- framed settled (match ?x with _ => _ end) => destruct x
      end ].

Ltac settled_tac := repeat settled_step.

Lemma settled_collisionChecks this : framed settled (collisionChecks this).
Proof.
  unfold collisionChecks, collisionChecks_body, isCollision,
    handleCollisionEvent, handleCollisionReaction, handleCollisionState, alert.
  settled_tac.
Qed.
#[global] Hint Resolve settled_collisionChecks : settled.

Lemma settled_Character_draw this : framed settled (Character_draw this).
Proof. unfold Character_draw. settled_tac. Qed.
#[global] Hint Resolve settled_Character_draw : settled.

Lemma settled_update this : framed settled (update this).
Proof.
  unfold update, Npc_update, Background_update, Character_update.
  settled_tac.
Qed.
#[global] Hint Resolve settled_update : settled.

Lemma settled_Player_handleKeyDown keypress this keyCode :
  framed settled (Player_handleKeyDown keypress this keyCode).
Proof. unfold Player_handleKeyDown. settled_tac. Qed.

Lemma settled_Player_handleKeyUp keypress this keyCode :
  framed settled (Player_handleKeyUp keypress this keyCode).
Proof. unfold Player_handleKeyUp. settled_tac. Qed.

Lemma settled_backgroundDim_remove : framed settled backgroundDim_remove.
Proof.
  unfold backgroundDim_remove, set_dim, set_dimDiv, set_isOpen, set_promptTitle,
    alert.
  settled_tac.
Qed.
#[global] Hint Resolve settled_backgroundDim_remove : settled.

Lemma settled_openPromptPanel npc : framed settled (openPromptPanel npc).
Proof.
  unfold openPromptPanel, backgroundDim_create, appendChild, updatePromptTable,
    title_of, set_currentNpc, set_isOpen, set_dim, set_dimDiv,
    set_promptDropDown, set_promptTitle, alert.
  settled_tac.
Qed.
#[global] Hint Resolve settled_openPromptPanel : settled.

Lemma settled_Npc_handleKeyDown this key :
  framed settled (Npc_handleKeyDown this key).
Proof.
  unfold Npc_handleKeyDown, handleKeyInteract, set_currentNpc, alert.
  settled_tac.
Qed.

Lemma settled_exitKeyListener key : framed settled (exitKeyListener key).
Proof. unfold exitKeyListener, set_continueLevel. settled_tac. Qed.

Lemma settled_handleSubmit : framed settled handleSubmit.
Proof. unfold handleSubmit, set_isOpen, alert. settled_tac. Qed.

Lemma settled_handleLevelStart : framed settled handleLevelStart.
Proof. unfold handleLevelStart, set_currentPass, alert. settled_tac. Qed.
#[global] Hint Resolve settled_handleLevelStart : settled.

Lemma settled_stopTimer : framed settled stopTimer.
Proof. unfold stopTimer. settled_tac. Qed.

Lemma settled_nominalFrame : framed settled nominalFrame.
Proof. unfold nominalFrame. settled_tac. Qed.

Lemma settled_set_gameObjects_nil : framed settled (set_gameObjects []).
Proof.
  apply framed_modify. intros w. unfold settled. cbn -[lookup insert].
  split; [done|]. split; [done|]. split.
  - intros g Hg. by apply elem_of_nil in Hg.
  - intros g. destruct (heap w !! g) as [o|]; [|done].
    exists o. split; [done | apply same_size_refl].
Qed.

Lemma settled_removed w w' i :
  env w' = GameEnv.set_gameObjects (delete i (gameObjects w)) (env w) →
  (∀ g, match heap w !! g with
        | Some o => ∃ o', heap w' !! g = Some o' ∧ same_size o o'
        | None => heap w' !! g = None
        end) →
  settled w w'.
Proof.
  intros Henv Hh. unfold settled, gameObjects. rewrite Henv. cbn.
  split; [done|]. split; [done|]. split; [|exact Hh].
  intros g Hg. eapply elem_of_sublist; [exact Hg | apply sublist_delete].
Qed.

Lemma settled_Character_destroy this : framed settled (Character_destroy this).
Proof.
  intros w. unfold Character_destroy. mrun.
  destruct (indexOf this (gameObjects w)) as [i|] eqn:Hi; [|apply settled_refl].
  destruct (heap w !! this) as [t|] eqn:Ht; mrun; [|apply settled_refl].
  destruct (Obj.canvas t) as [c|] eqn:Hc; mrun; [|apply settled_refl].
  destruct (Canvas.parentNode c) eqn:Hpn; mrun; [|apply settled_refl].
  unfold set_gameObjects. mrun.
  apply (settled_removed w _ i); [done|].
  intros g. cbn -[lookup insert]. destruct (decide (g = this)) as [->|Hne].
  - rewrite Ht, lookup_insert_eq. by eexists.
  - rewrite lookup_insert_ne by done.
    destruct (heap w !! g) as [o|]; [|done].
    exists o. split; [done | apply same_size_refl].
Qed.

Lemma settled_Background_destroy this :
  framed settled (Background_destroy this).
Proof.
  intros w. unfold Background_destroy, set_gameObjects. mrun.
  destruct (indexOf this (gameObjects w)) as [i|] eqn:Hi; [|apply settled_refl].
  mrun. apply (settled_removed w _ i); [done|].
  intros g. cbn. destruct (heap w !! g) as [o|]; [|done].
  exists o. split; [done | apply same_size_refl].
Qed.

Lemma settled_destroy this : framed settled (destroy this).
Proof.
  unfold destroy.
  apply (framed_bind settled settled_trans); [apply settled_emit|]. intros _.
  apply (framed_bind settled settled_trans);
    [apply (framed_deref settled settled_refl settled_trans)|].
  intros t. destruct (Obj.class t);
    [apply settled_Background_destroy | apply settled_Character_destroy..].
Qed.

Lemma all_sized_settled w w' : settled w w' → all_sized w → all_sized w'.
Proof.
  intros (HW & HH & Hr & Hs) Ha g Hg Hcls.
  specialize (Hs g). specialize (Ha g (Hr g Hg)).
  unfold object_at in Ha, Hcls |- *.
  destruct (heap w !! g) as [o|].
  - destruct Hs as (o' & Ho' & Hc & H1 & H2 & H3 & H4 & H5 & H6 & H7 & H8).
    rewrite Ho' in Hcls |- *.
    change (Obj.class o' ≠ Background) in Hcls.
    change (Obj.class o ≠ Background → sized w o) in Ha.
    change (sized w' o').
    rewrite Hc in Hcls. specialize (Ha Hcls).
    unfold sized in Ha |- *. by rewrite HW, HH, H1, H2, H3, H4, H5, H6, H7, H8.
  - by rewrite Hs in Hcls.
Qed.

(** ** Every tick keeps the registry consistent and its objects sized *)

Lemma hoare_settled {A} (m : M A) :
  hoare consistent m consistent → framed settled m → hoare sound m sound.
Proof.
  intros Hc Hs w [Hw Ha]. specialize (Hc w Hw). specialize (Hs w).
  destruct (m w); [| |done]; (split; [done|]); by eapply all_sized_settled.
Qed.

Lemma construct_sized cls d w p :
  cls ≠ Background →
  truthy_str (SpriteData.src d) = true →
  Document.gameContainer (document w) = true →
  positions w !! INIT_POSITION = Some p →
  ∃ w',
    construct cls (Some d) w = Ok (built_ref d w) w' ∧
    sized w' (object_at w' (built_ref d w)).
Proof.
  intros Hcls Hsrc Hgc Hp.
  destruct (construct_Ok cls d w p Hcls Hsrc Hgc Hp)
    as (w' & o & Hrun & Hheap & Ho & _ & _ & _ & _ & Henv & _).
  exists w'. split; [exact Hrun|].
  assert (∀ {A} (f : Obj.t → A),
            (∀ x, f (Obj.set_quiz None [] x) = f x) →
            f o = f (built cls d w)) as Hfield
    by (intros A f Hf; by rewrite <- Ho, Hf).
  unfold object_at. rewrite Hheap, lookup_insert_eq.
  change (sized w' o). unfold sized.
  rewrite (Hfield _ Obj.scale), (Hfield _ Obj.size), (Hfield _ Obj.width),
    (Hfield _ Obj.height), (Hfield _ Obj.xVelocity), (Hfield _ Obj.yVelocity),
    (Hfield _ Obj.scaleFactor), (Hfield _ Obj.stepFactor) by done.
  apply (f_equal GameEnv.innerWidth) in Henv as HW.
  apply (f_equal GameEnv.innerHeight) in Henv as HH.
  cbn in HW, HH. rewrite HW, HH. by repeat split.
Qed.

Lemma sound_construct cls data : hoare sound (construct cls data) sound.
Proof.
  intros w [Hw Ha].
  assert (∀ this w',
            construct cls data w = Ok this w' →
            (cls ≠ Background → sized w' (object_at w' this)) →
            accepted cls data = true →
            (cls ≠ Background → Document.gameContainer (document w) = true) →
            sound w') as Hok.
  { intros this w' Hrun Hs Hacc Hgc.
    destruct (construct_accepted cls data w Hw Hacc Hgc)
      as (this' & w'' & Hrun' & Hw' & Hreg & Hcls & Hold & _ & HW & HH & _).
    rewrite Hrun in Hrun'. injection Hrun' as <- <-.
    split; [exact Hw'|]. intros g Hg Hc. rewrite Hreg in Hg.
    apply elem_of_app in Hg as [Hg|Hg].
    - rewrite Hold in Hc |- * by done. specialize (Ha g Hg Hc).
      unfold sized in Ha |- *. by rewrite HW, HH.
    - apply list_elem_of_singleton in Hg as ->. apply Hs. by rewrite <- Hcls. }
  destruct (decide (cls = Background)) as [Hb|Hcls].
  - destruct (construct_accepted cls data w Hw) as (this & w' & Hrun & _);
      [by subst|done|]. rewrite Hrun. apply (Hok this w' Hrun); by subst.
  - destruct (accepted cls data) eqn:Hacc;
      [destruct (Document.gameContainer (document w)) eqn:Hgc|].
    + destruct data as [d|]; [|by destruct cls].
      assert (truthy_str (SpriteData.src d) = true) as Hsrc by (by destruct cls).
      pose proof Hw as (_ & _ & _ & [p Hp]).
      destruct (construct_sized cls d w p Hcls Hsrc Hgc Hp) as (w' & Hrun & Hs).
      rewrite Hrun. by apply (Hok _ w' Hrun).
    + by destruct (construct_rejected cls data w Hcls (or_intror Hgc)) as [e ->].
    + by destruct (construct_rejected cls data w Hcls (or_introl Hacc)) as [e ->].
Qed.

Lemma sound_GameControl_resize window :
  hoare sound (GameControl_resize window) sound.
Proof.
  intros w [Hw _].
  destruct (GameControl_resize_Ok window w Hw) as (w' & Hrun & Hreg & _ & _ & _ & Hs).
  pose proof (keeping_GameControl_resize window w) as Hk.
  rewrite Hrun in Hk |- *. split; [by eapply consistent_keeps|].
  intros g Hg Hcls. rewrite Hreg in Hg. apply Hs; [done|].
  destruct (consistent_in_store w g Hw Hg) as [o Ho].
  destruct (keeps_object_at w w' g o Hk Ho) as (o' & _ & (Hc & _) & Hat & Hat').
  rewrite Hat. rewrite Hat', Hc in Hcls. exact Hcls.
Qed.

(** The ticks keep every invariant that the quiet methods, the emptying
    of the registry, the constructors and [destroy] keep. *)
Section Ticks.
Variable J : World → Prop.
Hypothesis J_quiet :
  ∀ A (m : M A), keeping m → framed settled m → hoare J m J.
Hypothesis J_empty : hoare J (set_gameObjects []) J.
Hypothesis J_construct : ∀ cls data, hoare J (construct cls data) J.
Hypothesis J_destroy : ∀ this, hoare J (destroy this) J.

Lemma tick_gets {A} (f : World → A) : hoare J (gets f) J.
Proof.
  apply J_quiet; [apply keeping_gets | apply (framed_gets settled settled_refl)].
Qed.

Lemma tick_require {A} (v : option A) msg : hoare J (require v msg) J.
Proof.
  apply J_quiet;
    [apply keeping_require | apply (framed_require settled settled_refl)].
Qed.

Lemma tick_running_frame fuel :
  hoare (λ w, J w ∧ GameEnv.continueLevel (env w) = true) (gameLoop (S fuel)) J.
Proof.
  intros w [Hw Hflag]. rewrite (gameLoop_nominal fuel w Hflag).
  by apply (J_quiet _ nominalFrame keeping_nominalFrame settled_nominalFrame).
Qed.

Lemma tick_empty_running :
  hoare (λ w, J w ∧ GameEnv.continueLevel (env w) = true)
        (set_gameObjects [])
        (λ w, J w ∧ GameEnv.continueLevel (env w) = true).
Proof.
  intros w [Hw Hflag]. specialize (J_empty w Hw).
  unfold set_gameObjects, modify in J_empty |- *. by split.
Qed.

Lemma tick_loadLevel fuel : hoare J (loadLevel (gameLoop (S fuel))) J.
Proof.
  set (running := λ w, J w ∧ GameEnv.continueLevel (env w) = true).
  assert (∀ w, running w → J w) as Hweak by (by intros w [? _]).
  unfold loadLevel.
  apply hoare_seq; [apply tick_gets|]. intros idx.
  apply hoare_seq; [apply tick_gets|]. intros lcs.
  destruct (bool_decide _);
    [apply J_quiet; [apply keeping_stopTimer | apply settled_stopTimer]|].
  apply (hoare_bind _ _ J running J); [|exact Hweak|].
  { intros w Hw.
    assert (hoare J (set_continueLevel true) J) as H
      by (apply J_quiet; unfold set_continueLevel; [keeping_tac | settled_tac]).
    specialize (H w Hw). unfold set_continueLevel, modify in H |- *.
    by split. }
  intros _.
  apply (hoare_bind _ _ running running J);
    [apply tick_empty_running | exact Hweak |]. intros _.
  apply (hoare_bind _ _ running running J); [|exact Hweak|].
  { apply hoare_running; [apply steady_set_currentPass|].
    apply J_quiet; unfold set_currentPass; [keeping_tac | settled_tac]. }
  intros _.
  apply (hoare_bind _ _ running running J); [|exact Hweak|].
  { apply hoare_running; [apply steady_require | apply tick_require]. }
  intros LevelClass.
  apply (hoare_bind _ _ running running J); [|exact Hweak|].
  { apply hoare_running; [apply steady_gets | apply tick_gets]. }
  intros path.
  apply (hoare_bind _ _ running running J); [|exact Hweak|].
  { apply hoare_running; [apply steady_gets | apply tick_gets]. }
  intros width.
  apply (hoare_bind _ _ running running J); [|exact Hweak|].
  { apply hoare_running; [apply steady_gets | apply tick_gets]. }
  intros height. unfold loadLevelObjects.
  apply (hoare_bind _ _ running running J); [|exact Hweak|].
  { apply hoare_forOf. intros object.
    apply hoare_seq.
    - apply hoare_running; [apply steady_construct | apply J_construct].
    - intros _. apply hoare_ret. }
  intros _. apply tick_running_frame.
Qed.

Lemma tick_destroyLoop n : hoare J (destroyLoop n) J.
Proof.
  induction n as [|n IH]; cbn [destroyLoop]; [apply hoare_ret|].
  apply hoare_seq; [apply tick_gets|]. intros objs.
  apply hoare_seq; [apply tick_require|]. intros obj.
  apply hoare_seq; [apply J_destroy|]. intros _. exact IH.
Qed.

Lemma tick_handleLevelEnd fuel :
  hoare J (handleLevelEnd (gameLoop (S fuel))) J.
Proof.
  unfold handleLevelEnd.
  apply hoare_seq; [apply tick_gets|]. intros idx.
  apply hoare_seq; [apply tick_gets|]. intros lcs.
  apply hoare_seq.
  { destruct (bool_decide _);
      (apply J_quiet; [apply keeping_alert | apply settled_emit]). }
  intros _.
  apply hoare_seq; [apply tick_gets|]. intros objs.
  apply hoare_seq; [apply tick_destroyLoop|]. intros _.
  apply hoare_seq.
  { apply J_quiet; unfold set_currentLevelIndex; [keeping_tac | settled_tac]. }
  intros _. apply tick_loadLevel.
Qed.

Lemma tick_gameLoop fuel : hoare J (gameLoop (S (S fuel))) J.
Proof.
  intros w Hw. destruct (GameEnv.continueLevel (env w)) eqn:Hflag.
  - by apply (tick_running_frame (S fuel) w).
  - assert (gameLoop (S (S fuel)) w = handleLevelEnd (gameLoop (S fuel)) w) as ->.
    { change (gameLoop (S (S fuel))) with (gameLoop_body (gameLoop (S fuel))).
      unfold gameLoop_body at 1.
      erewrite bind_Ok by reflexivity. cbv beta. by rewrite Hflag. }
    by apply tick_handleLevelEnd.
Qed.
End Ticks.

Lemma consistent_quiet {A} (m : M A) :
  keeping m → framed settled m → hoare consistent m consistent.
Proof. intros Hk _. by apply hoare_keeping. Qed.

Lemma consistent_empty_registry :
  hoare consistent (set_gameObjects []) consistent.
Proof.
  intros w Hw. unfold set_gameObjects, modify. by apply (consistent_empty w).
Qed.

Lemma hoare_gameLoop fuel :
  hoare consistent (gameLoop (S (S fuel))) consistent.
Proof.
  apply tick_gameLoop;
    [exact (@consistent_quiet) | exact consistent_empty_registry
    | exact hoare_construct | exact hoare_destroy].
Qed.

Lemma sound_quiet {A} (m : M A) :
  keeping m → framed settled m → hoare sound m sound.
Proof. intros Hk Hs. by apply hoare_settled; [apply hoare_keeping|]. Qed.

Lemma sound_empty_registry : hoare sound (set_gameObjects []) sound.
Proof.
  apply hoare_settled;
    [exact consistent_empty_registry | exact settled_set_gameObjects_nil].
Qed.

Lemma sound_destroy this : hoare sound (destroy this) sound.
Proof. apply hoare_settled; [apply hoare_destroy | apply settled_destroy]. Qed.

Lemma sound_gameLoop fuel : hoare sound (gameLoop (S (S fuel))) sound.
Proof.
  apply tick_gameLoop;
    [exact (@sound_quiet) | exact sound_empty_registry
    | exact sound_construct | exact sound_destroy].
Qed.

Lemma sound_loadLevel fuel : hoare sound (loadLevel (gameLoop (S fuel))) sound.
Proof.
  apply tick_loadLevel;
    [exact (@sound_quiet) | exact sound_empty_registry | exact sound_construct].
Qed.

Lemma final_hoare {A} (m : M A) (P Q : World → Prop) w :
  hoare P m Q → P w → ∃ w', final (m w) = Some w' ∧ Q w'.
Proof.
  intros H Hw. specialize (H w Hw). destruct (m w); [eauto|eauto|done].
Qed.

(** X26 (GameControl.gameLoop).  A tick ends and keeps the registry
    consistent, whichever way it goes: a frame of the running level, the
    end of a level with the loading of the next one, or the end of the
    game, and also when a constructor or an update throws. *)
Theorem gameLoop_consistent fuel w :
  consistent w →
  ∃ w', final (gameLoop (S (S fuel)) w) = Some w' ∧ consistent w'.
Proof. apply final_hoare, hoare_gameLoop. Qed.

Lemma loaded_sound w : loaded w → sound w.
Proof.
  intros [Hr Hinit]. split.
  - unfold consistent, registry_wf, registry_ready.
    rewrite Hr. split; [split; [apply NoDup_nil_2 | split; [constructor | done]]|].
    split; [done|]. split; [constructor | done].
  - intros g Hg. rewrite Hr in Hg. by apply elem_of_nil in Hg.
Qed.

Lemma hoare_final {A} (m : M A) (P Q : World → Prop) w w' :
  hoare P m Q → P w → final (m w) = Some w' → Q w'.
Proof.
  intros H Hw Hf. specialize (H w Hw).
  destruct (m w); cbn in Hf; [| |done]; by injection Hf as <-.
Qed.

(** X27 (the whole game).  In every world of a run, from the start of
    the game on and whatever frames, keys, resizes and clicks follow, the
    registry is consistent: no object is registered twice, every entry is
    in the store, every entry but a background has its canvas in the
    document, its sprite data and its position object.  These are the
    conditions on the registry under which the properties of [update],
    [collisionChecks], [destroy] and the end of a level are stated.  And
    the sizes are never stale: every registry object but a background has
    the scale, the size and the steps of the current game area, through
    the constructors that load a level and through every resize of the
    window. *)
Theorem run_sound w : run w → consistent w ∧ all_sized w.
Proof.
  change (run w → sound w).
  induction 1 as [fuel w0 w Hl Hf | w w' Hrun IH Hstep].
  - eapply (hoare_final _ sound sound w0 w);
      [apply sound_loadLevel | by apply loaded_sound | exact Hf].
  - destruct Hstep as [fuel w w' Hf | keypress this keyCode w w' Hf
                      | keypress this keyCode w w' Hf | this key w w' Hf
                      | key w w' Hf | window w w' Hf | w w' Hf];
      (eapply (hoare_final _ sound sound w w'); [|exact IH|exact Hf]).
    + apply sound_gameLoop.
    + apply sound_quiet;
        [apply keeping_Player_handleKeyDown | apply settled_Player_handleKeyDown].
    + apply sound_quiet;
        [apply keeping_Player_handleKeyUp | apply settled_Player_handleKeyUp].
    + apply sound_quiet;
        [apply keeping_Npc_handleKeyDown | apply settled_Npc_handleKeyDown].
    + apply sound_quiet;
        [apply keeping_exitKeyListener | apply settled_exitKeyListener].
    + apply sound_GameControl_resize.
    + apply sound_quiet; [apply keeping_handleSubmit | apply settled_handleSubmit].
Qed.

(** ** The further statements on sample worlds *)

Ltac by_compute :=
  vm_compute;
  first [reflexivity | discriminate | (eexists; reflexivity) | exact I].

Ltac by_decide := apply (bool_decide_unpack _); vm_compute; exact I.

Ltac consistent_by_compute :=
  unfold consistent, registry_wf;
  split; [split; [by_decide | split; [by_decide | by_compute]]
         | split; [by_compute | split; [by_decide | by_compute]]].

Lemma landscape_consistent : consistent landscape.
Proof. consistent_by_compute. Qed.

Lemma escaped_consistent : consistent escaped.
Proof. consistent_by_compute. Qed.

Lemma landscape_in_store :
  Forall (λ g, is_Some (heap landscape !! g)) (gameObjects landscape).
Proof. by_decide. Qed.

Lemma revisited_in_store :
  Forall (λ g, is_Some (heap revisited !! g)) (gameObjects revisited).
Proof. by_decide. Qed.

Lemma keysDown_velocity_witness :
  ∃ w' v,
    keysDown wasd chillguy [87; 65; 87]%nat landscape = Ok tt w' ∧
    heap w' !! chillguy =
      Some (Obj.set_direction Direction.up
              (Obj.set_velocity v (object_at landscape chillguy))) ∧
    (Vec.x v == - 1)%Q ∧ (Vec.y v == - 1.6)%Q.
Proof.
  destruct (keysDown_velocity wasd chillguy [87; 65; 87]%nat landscape
              (object_at landscape chillguy))
    as (w' & v & Hrun & Ht' & Hx & Hy).
  - vm_compute; reflexivity.
  - exists w', v. split; [exact Hrun|]. split; [exact Ht'|].
    split; [rewrite Hx | rewrite Hy]; vm_compute; reflexivity.
Defined.

Lemma key_repeat_accelerates_witness :
  ∃ w' t',
    keysDown wasd chillguy (replicate 3 (Keypress.down wasd)) landscape = Ok tt w' ∧
    heap w' !! chillguy = Some t' ∧
    (Vec.y (Obj.velocity t') == 2.4)%Q.
Proof.
  destruct (key_repeat_accelerates wasd chillguy 3 landscape
              (object_at landscape chillguy))
    as (w' & t' & Hrun & Ht' & Hy & _).
  - vm_compute; reflexivity.
  - vm_compute; discriminate.
  - vm_compute; discriminate.
  - exists w', t'. split; [exact Hrun|]. split; [exact Ht'|].
    rewrite Hy. vm_compute; reflexivity.
Defined.

Lemma keyUp_stops_axis_witness :
  ∃ w' t',
    (keysDown wasd chillguy [87; 65]%nat;;
     Player_handleKeyUp wasd chillguy 87) landscape = Ok tt w' ∧
    heap w' !! chillguy = Some t' ∧
    Vec.y (Obj.velocity t') = 0%Q ∧
    (Vec.x (Obj.velocity t') == - 1)%Q.
Proof.
  destruct (keyUp_stops_axis wasd chillguy [87; 65]%nat 87 Vertical landscape
              (object_at landscape chillguy))
    as (w' & t' & Hrun & Ht' & Hy & Hx).
  - vm_compute; reflexivity.
  - vm_compute; reflexivity.
  - exists w', t'. split; [exact Hrun|]. split; [exact Ht'|].
    split; [exact Hy|]. rewrite Hx. vm_compute; reflexivity.
Defined.

Lemma collisionChecks_velocity_witness :
  ∃ w' t',
    Vec_eq (Obj.velocity (object_at hemmed crowded_P)) (Vec.mk 10 8) ∧
    hits hemmed crowded_P = [crowded_A; crowded_B] ∧
    collisionChecks crowded_P hemmed = Ok tt w' ∧
    heap w' !! crowded_P = Some t' ∧
    Obj.velocity t' = Vec.mk 0 0.
Proof.
  destruct (collisionChecks_velocity hemmed crowded_P
              (object_at hemmed crowded_P))
    as (w' & t' & Hrun & Ht' & Hv).
  - vm_compute; reflexivity.
  - vm_compute; reflexivity.
  - vm_compute; reflexivity.
  - exists w', t'. split; [split; vm_compute; reflexivity|].
    split; [vm_compute; reflexivity|].
    split; [exact Hrun|]. split; [exact Ht'|].
    rewrite Hv. vm_compute; reflexivity.
Defined.

Lemma update_blocks_integrates_clamps_witness :
  ∃ w' t' p',
    Vec_eq (Obj.velocity (object_at cornered crowded_P)) (Vec.mk 10 8) ∧
    Vec_eq (position_at cornered crowded_P) (Vec.mk 100 100) ∧
    update crowded_P cornered = Ok tt w' ∧
    heap w' !! crowded_P = Some t' ∧
    positions w' !! Obj.position (object_at cornered crowded_P) = Some p' ∧
    Vec_eq p' (Vec.mk 110 100) ∧
    Vec_eq (Obj.velocity t') (Vec.mk 10 0).
Proof.
  destruct (update_blocks_integrates_clamps cornered crowded_P
              (object_at cornered crowded_P) (position_at cornered crowded_P))
    as (w' & t' & Hrun & Ht' & _ & Hp' & Hv').
  - vm_compute; reflexivity.
  - vm_compute; reflexivity.
  - vm_compute; reflexivity.
  - vm_compute; reflexivity.
  - vm_compute; reflexivity.
  - right. vm_compute; reflexivity.
  - eexists w', t', _.
    split; [split; vm_compute; reflexivity|].
    split; [split; vm_compute; reflexivity|].
    split; [exact Hrun|]. split; [exact Ht'|].
    split; [exact Hp'|]. split.
    + split; vm_compute; reflexivity.
    + rewrite Hv'. split; vm_compute; reflexivity.
Defined.

Lemma update_full_step_witness :
  ∃ w' t' p',
    Vec_eq (Obj.velocity (object_at cornered crowded_P)) (Vec.mk 10 8) ∧
    update crowded_P cornered = Ok tt w' ∧
    heap w' !! crowded_P = Some t' ∧
    positions w' !! Obj.position t' = Some p' ∧
    Vec.x (Obj.velocity t') = Vec.x (Obj.velocity (object_at cornered crowded_P)) ∧
    Vec.x p' = (Vec.x (position_at cornered crowded_P)
                + Vec.x (Obj.velocity (object_at cornered crowded_P)))%Q ∧
    (Vec.y (Obj.velocity t') == 0)%Q.
Proof.
  destruct (update_full_step cornered crowded_P
              (object_at cornered crowded_P) (position_at cornered crowded_P))
    as (w' & t' & p' & Hrun & Ht' & Hp' & Hx & _).
  - vm_compute; reflexivity.
  - vm_compute; reflexivity.
  - vm_compute; reflexivity.
  - vm_compute; reflexivity.
  - vm_compute; reflexivity.
  - right. vm_compute; reflexivity.
  - assert (∃ w0, update crowded_P cornered = Ok tt w0 ∧
                  Vec_eq (Obj.velocity (object_at w0 crowded_P)) (Vec.mk 10 0))
      as (w0 & Hrun0 & Hvx & Hvy)
      by (eexists; split; [vm_compute; reflexivity|];
          split; vm_compute; reflexivity).
    rewrite Hrun in Hrun0. injection Hrun0 as <-.
    unfold object_at in Hvx, Hvy. rewrite Ht' in Hvx, Hvy.
    change (Vec.x (Obj.velocity t') == 10)%Q in Hvx.
    change (Vec.y (Obj.velocity t') == 0)%Q in Hvy.
    destruct Hx as [Hx1 Hx2]; [rewrite Hvx; vm_compute; discriminate|].
    exists w', t', p'.
    split; [split; vm_compute; reflexivity|].
    split; [exact Hrun|]. split; [exact Ht'|]. split; [exact Hp'|].
    split; [exact Hx1|]. split; [exact Hx2|]. exact Hvy.
Defined.

Lemma updatePromptTable_rows_witness :
  ∃ table,
    updatePromptTable asked = Ok table asked ∧
    inputs table = seq 0 10 ∧
    questionsShown table = Obj.questions (object_at asked tux).
Proof.
  destruct (updatePromptTable_rows asked tux (object_at asked tux))
    as (table & Hrun & Hin & Hq).
  - vm_compute; reflexivity.
  - vm_compute; reflexivity.
  - exists table. split; [exact Hrun|]. split; [|exact Hq].
    rewrite Hin. vm_compute; reflexivity.
Defined.

Lemma openPromptPanel_opens_witness :
  ∃ w' table,
    openPromptPanel tux landscape = Ok tt w' ∧
    prompt w' = Prompt.mk true true (Some tux) ∧
    Document.promptDropDown (document w') = Some [NodeTitle; table] ∧
    inputs table = seq 0 10 ∧
    Document.dimDiv (document w') = 1%nat.
Proof.
  destruct (openPromptPanel_opens landscape tux (object_at landscape tux)
              "Linux Command Quiz" [] (TitleElement.mk "" ""))
    as (w' & table & Hrun & Hpr & Hpd & _ & Hin & Hdim & _).
  - vm_compute; reflexivity.
  - vm_compute; reflexivity.
  - vm_compute; reflexivity.
  - vm_compute; reflexivity.
  - intros H. vm_compute in H. discriminate H.
  - exists w', table. split; [exact Hrun|]. split; [exact Hpr|].
    split; [exact Hpd|]. split.
    + rewrite Hin. vm_compute; reflexivity.
    + rewrite Hdim. vm_compute; reflexivity.
Defined.

Lemma open_then_submit_witness :
  ∃ w',
    (openPromptPanel tux;; handleSubmit) landscape = Ok tt w' ∧
    Prompt.isOpen (prompt w') = false ∧
    Document.dimDiv (document w') = 0%nat ∧
    heap w' = heap landscape.
Proof.
  destruct (open_then_submit landscape tux (object_at landscape tux)
              "Linux Command Quiz" [] (TitleElement.mk "" ""))
    as (w' & el & Hrun & Hio & _ & Hdim & _ & _ & _ & Hheap & _).
  - vm_compute; reflexivity.
  - vm_compute; reflexivity.
  - vm_compute; reflexivity.
  - vm_compute; reflexivity.
  - vm_compute; reflexivity.
  - exists w'. split; [exact Hrun|]. split; [exact Hio|]. split; [|exact Hheap].
    rewrite Hdim. vm_compute; reflexivity.
Defined.

Lemma submit_without_overlay_witness :
  ∃ msg w',
    handleSubmit landscape = Throw (TypeError msg) w' ∧
    Prompt.isOpen (prompt w') = false.
Proof.
  destruct (submit_without_overlay landscape) as (msg & w' & Hrun & Hio & _).
  - vm_compute; reflexivity.
  - exists msg, w'. split; [exact Hrun | exact Hio].
Defined.

Lemma openPromptPanel_without_title_witness :
  ∃ msg w',
    openPromptPanel chillguy landscape = Throw (TypeError msg) w' ∧
    Prompt.isOpen (prompt w') = true ∧
    Document.dimDiv (document w') = 0%nat.
Proof.
  destruct (openPromptPanel_without_title landscape chillguy
              (object_at landscape chillguy) [] (TitleElement.mk "" ""))
    as (msg & w' & Hrun & Hio & _ & _ & Hdim).
  - vm_compute; reflexivity.
  - vm_compute; reflexivity.
  - vm_compute; reflexivity.
  - vm_compute; reflexivity.
  - vm_compute; reflexivity.
  - exists msg, w'. split; [exact Hrun|]. split; [exact Hio|].
    rewrite Hdim. vm_compute; reflexivity.
Defined.

Lemma interaction_key_gates_witness :
  Npc_handleKeyDown tux "e" landscape = Ok tt landscape.
Proof.
  apply (interaction_key_gates landscape tux (object_at landscape tux)
           (sprite_data_tux "" 1000 800) "e").
  - vm_compute; reflexivity.
  - vm_compute; reflexivity.
  - exact landscape_in_store.
  - right. right. left. vm_compute; reflexivity.
Defined.

Lemma interaction_key_opens_once_witness :
  ∃ w',
    Npc_handleKeyDown tux "e" revisited = Ok tt w' ∧
    openPromptPanel tux revisited = Ok tt w' ∧
    Prompt.isOpen (prompt w') = true ∧
    Document.dimDiv (document w') = 1%nat.
Proof.
  destruct (interaction_key_opens_once revisited tux (object_at revisited tux)
              (sprite_data_tux "" 100 1000) "Linux Command Quiz" []
              (TitleElement.mk "" "") "e")
    as (w' & Hrun & Hopen & Hio & Hdim).
  - vm_compute; reflexivity.
  - vm_compute; reflexivity.
  - exact revisited_in_store.
  - left. reflexivity.
  - vm_compute; discriminate.
  - vm_compute; discriminate.
  - vm_compute; reflexivity.
  - vm_compute; reflexivity.
  - vm_compute; reflexivity.
  - vm_compute; reflexivity.
  - exists w'. split; [exact Hrun|]. split; [exact Hopen|]. split; [exact Hio|].
    rewrite Hdim. vm_compute; reflexivity.
Defined.

Lemma Npc_constructor_questions_witness :
  ∃ this w' n,
    construct Npc (Some (sprite_data_tux "" 1000 800)) (created 1000 800)
      = Ok this w' ∧
    heap w' !! this = Some n ∧
    Obj.quiz n = Some "Linux Command Quiz" ∧
    length (Obj.questions n) = 10%nat.
Proof.
  destruct (Npc_constructor_questions (sprite_data_tux "" 1000 800)
              (created 1000 800) (Vec.mk 0 0))
    as (this & w' & n & Hrun & Hn & _ & Hquiz & Hperm).
  - vm_compute; reflexivity.
  - vm_compute; reflexivity.
  - vm_compute; reflexivity.
  - exists this, w', n. split; [exact Hrun|]. split; [exact Hn|]. split.
    + rewrite Hquiz. vm_compute; reflexivity.
    + rewrite (Permutation_length Hperm). vm_compute; reflexivity.
Defined.

Lemma constructor_registers_witness :
  ∃ this w' o,
    construct Player (Some (sprite_data_chillguy "" 1000 800)) (created 1000 800)
      = Ok this w' ∧
    gameObjects w' = [this] ∧
    heap w' !! this = Some o ∧
    Obj.class o = Player ∧
    (Obj.size o == 160)%Q.
Proof.
  destruct (constructor_registers Player (sprite_data_chillguy "" 1000 800)
              (created 1000 800) (Vec.mk 0 0))
    as (this & w' & o & c & Hrun & Hreg & _ & Ho & _ & Hcls & _ & _ & _ & _ & _
          & Hsf & _ & Hsize & _).
  - discriminate.
  - vm_compute; reflexivity.
  - vm_compute; reflexivity.
  - vm_compute; reflexivity.
  - exists this, w', o. split; [exact Hrun|]. split; [exact Hreg|].
    split; [exact Ho|]. split; [exact Hcls|].
    rewrite Hsize, Hsf. vm_compute; reflexivity.
Defined.

Lemma constructor_rescales_position_witness :
  ∃ this w',
    construct Player (Some (sprite_data_chillguy "" 1000 599)) (created 1000 599)
      = Ok this w' ∧
    position_at w' this =
      Vec.mk (0 / 1000 * 1000)%Q ((599 - 599 / 5) / 599 * 599)%Q.
Proof.
  destruct (constructor_rescales_position Player
              (sprite_data_chillguy "" 1000 599)
              (created 1000 599) (Vec.mk 0 0) (Vec.mk 0 (599 - 599 / 5)))
    as (this & w' & Hrun & _ & Hp).
  - discriminate.
  - vm_compute; reflexivity.
  - vm_compute; reflexivity.
  - vm_compute; reflexivity.
  - vm_compute; reflexivity.
  - vm_compute; discriminate.
  - vm_compute; discriminate.
  - exists this, w'. split; [exact Hrun | exact Hp].
Defined.

Lemma default_position_shared_witness :
  ∃ a w1 b w2,
    construct Player (Some (plain_sprite "a")) (created 1000 800) = Ok a w1 ∧
    construct Npc (Some (plain_sprite "b")) w1 = Ok b w2 ∧
    a ≠ b ∧
    position_at w2 a = position_at w2 b.
Proof.
  destruct (default_position_shared Player Npc (plain_sprite "a")
              (plain_sprite "b") (created 1000 800) (Vec.mk 0 0))
    as (a & w1 & b & w2 & Hrun1 & Hrun2 & Hne & Hshared).
  - discriminate.
  - discriminate.
  - vm_compute; reflexivity.
  - vm_compute; reflexivity.
  - vm_compute; reflexivity.
  - vm_compute; reflexivity.
  - reflexivity.
  - reflexivity.
  - exists a, w1, b, w2. split; [exact Hrun1|]. split; [exact Hrun2|].
    split; [exact Hne|]. apply (Hshared w2), keeps_refl.
Defined.

Lemma destroy_removes_only_this_witness :
  ∃ w',
    destroy tux landscape = Ok tt w' ∧
    gameObjects w' = [desert_background; chillguy; octocat; robot].
Proof.
  destruct (destroy_removes_only_this landscape tux (object_at landscape tux))
    as (w' & o' & Hrun & Hreg & _).
  - by_decide.
  - by_decide.
  - vm_compute; reflexivity.
  - vm_compute; reflexivity.
  - exists w'. split; [exact Hrun|]. rewrite Hreg. vm_compute; reflexivity.
Defined.



Lemma loadLevel_registers_witness :
  ∃ w',
    loadLevel (gameLoop 1) (created 1000 800) = Ok tt w' ∧
    classesOf w' = [Background; Player; Npc; Npc; Npc].
Proof.
  destruct (loadLevel_registers 0 (created 1000 800) GameLevelDesert)
    as (w' & Hrun & Hclasses & _).
  - vm_compute. eexists; reflexivity.
  - reflexivity.
  - vm_compute; reflexivity.
  - vm_compute; reflexivity.
  - vm_compute; reflexivity.
  - exists w'. split; [exact Hrun|]. rewrite Hclasses. vm_compute; reflexivity.
Defined.




Lemma gameLoop_consistent_witness :
  ∃ w', final (gameLoop 2 escaped) = Some w' ∧ consistent w'.
Proof. exact (gameLoop_consistent 0 escaped escaped_consistent). Defined.

Lemma run_sound_witness : consistent landscape ∧ all_sized landscape.
Proof.
  apply run_sound.
  apply (run_start 0 (created 1000 800)).
  - split; [reflexivity | vm_compute; eexists; reflexivity].
  - vm_compute; reflexivity.
Defined.


Lemma GameControl_resize_sizes_witness :
  ∃ w',
    GameControl_resize (Window.mk 800 650 (Some 50%Q) None) landscape = Ok tt w' ∧
    GameEnv.innerHeight (env w') = (650 - 50 - 0)%Q ∧
    sized w' (object_at w' chillguy).
Proof.
  destruct (GameControl_resize_sizes (Window.mk 800 650 (Some 50%Q) None)
              landscape landscape_consistent)
    as (w' & Hrun & _ & _ & HH & _ & Hs).
  exists w'. split; [exact Hrun|]. split; [exact HH|].
  apply Hs.
  - by_decide.
  - vm_compute; discriminate.
Defined.

Lemma collisionChecks_only_this_witness :
  ∃ w',
    collisionChecks crowded_P crowded = Ok tt w' ∧
    heap w' !! crowded_A = heap crowded !! crowded_A ∧
    heap w' !! crowded_B = heap crowded !! crowded_B.
Proof.
  destruct (collisionChecks_only_this crowded crowded_P
              (object_at crowded crowded_P))
    as (w' & t' & Hrun & _ & _ & Hothers & _).
  - vm_compute; reflexivity.
  - vm_compute; reflexivity.
  - vm_compute; reflexivity.
  - exists w'. split; [exact Hrun|].
    split; apply Hothers; vm_compute; discriminate.
Defined.
